(** * Shallow embedding of the ibm_cloud_vercel deployment helper

    Sources embedded here: [sdk/auth.py] (credential resolution),
    [sdk/cos.py] (archive builder and storage uploader), the two
    configuration records of [core/config.py] and [deploy_ibm.py] (the
    orchestrating [main]).

    Python values are modelled as the code has them: [str] as [string],
    [Optional[str]] as [option string], exceptions as a class plus a
    message, and the process environment, the file system, the clock and
    the network as fields of an explicit [World] threaded through every
    call.  Paths are looked up name by name, as the kernel does; the
    libraries the code calls ([requests], [ibm_boto3], [zipfile], the
    [IAMAuthenticator] constructor) appear by what they return or
    raise. *)

From Stdlib Require Import Ascii String ZArith Permutation.
From stdpp Require Import gmap strings list fin_maps.

Local Open Scope string_scope.
Local Open Scope list_scope.
Set Warnings "-register-all,-abstract-large-number".

(** ** Python [str] helpers *)

(** [sub in s] on two strings: substring containment. *)
Fixpoint str_in (sub s : string) : bool :=
  String.prefix sub s
  || match s with
     | EmptyString => false
     | String _ s' => str_in sub s'
     end.

(** [sep.join(parts)]. *)
Definition join (sep : string) (parts : list string) : string :=
  String.concat sep parts.

(** [s.split("/")]. *)
Fixpoint split_slash (s : string) : list string :=
  match s with
  | EmptyString => [EmptyString]
  | String c s' =>
      if Ascii.eqb c "/" then EmptyString :: split_slash s'
      else match split_slash s' with
           | seg :: segs => String c seg :: segs
           | [] => [String c EmptyString]
           end
  end.

(** Character classes and case, for ASCII text.  (On other characters
    Python's [str] methods follow Unicode; the strings here are sequences
    of 8-bit characters, and those above 127 are in no class.) *)
Definition in_range (lo hi : nat) (c : ascii) : bool :=
  Nat.leb lo (nat_of_ascii c) && Nat.leb (nat_of_ascii c) hi.

Definition isdigit (c : ascii) : bool := in_range 48 57 c.
Definition isupper (c : ascii) : bool := in_range 65 90 c.
Definition islower (c : ascii) : bool := in_range 97 122 c.
Definition isalpha (c : ascii) : bool := isupper c || islower c.
Definition isalnum (c : ascii) : bool := isalpha c || isdigit c.

Definition lower_char (c : ascii) : ascii :=
  if isupper c then ascii_of_nat (nat_of_ascii c + 32) else c.

Fixpoint map_chars (f : ascii → ascii) (s : string) : string :=
  match s with
  | EmptyString => EmptyString
  | String c s' => String (f c) (map_chars f s')
  end.

(** [s.lower()]. *)
Definition lower (s : string) : string := map_chars lower_char s.

(** [s.replace(old, new)] for one-character [old] and [new]. *)
Definition replace_char (old new : ascii) (s : string) : string :=
  map_chars (fun c => if Ascii.eqb c old then new else c) s.

(** ["".join(c for c in s if p(c))]. *)
Fixpoint filter_chars (p : ascii → bool) (s : string) : string :=
  match s with
  | EmptyString => EmptyString
  | String c s' =>
      if p c then String c (filter_chars p s') else filter_chars p s'
  end.

(** [s[:n]]. *)
Fixpoint take_chars (n : nat) (s : string) : string :=
  match n, s with
  | S n', String c s' => String c (take_chars n' s')
  | _, _ => EmptyString
  end.

(** Truth value of an [Optional[str]]: [None] and [""] are false. *)
Definition truthy (o : option string) : bool :=
  match o with
  | Some s => negb (String.eqb s "")
  | None => false
  end.

(** ** [fnmatch.fnmatch] on a posix host

    [os.path.normcase] is the identity there, so the match is that of the
    regular expression built by [fnmatch.translate]: [*] is any run of
    characters (slashes included), [?] any one character, [[seq]] a
    character class with [!] for negation and [lo-hi] ranges, an unclosed
    bracket a literal one. *)

Inductive glob_token :=
| GStar
| GAny
| GLit (c : ascii)
| GSet (negated : bool) (ranges : list (ascii * ascii)).

(** Splits at the first closing bracket. *)
Fixpoint find_close (s : list ascii) : option (list ascii * list ascii) :=
  match s with
  | [] => None
  | c :: s' =>
      if Ascii.eqb c "]" then Some ([], s')
      else match find_close s' with
           | Some (body, rest) => Some (c :: body, rest)
           | None => None
           end
  end.

(** The text after an opening bracket: [stuff], the text up to the
    closing bracket (a leading [!] included), and the rest of the
    pattern; [None] when the bracket is never closed.  A closing bracket
    in first position, or right after the [!], belongs to [stuff]. *)
Definition bracket_body (s : list ascii)
  : option (list ascii * list ascii) :=
  let '(bang, s1) :=
    match s with
    | c :: r => if Ascii.eqb c "!" then ([c], r) else ([], s)
    | [] => ([], s)
    end in
  match s1 with
  | c :: r =>
      if Ascii.eqb c "]" then
        match find_close r with
        | Some (body, rest) => Some (bang ++ c :: body, rest)
        | None => None
        end
      else
        match find_close s1 with
        | Some (body, rest) => Some (bang ++ body, rest)
        | None => None
        end
  | [] => None
  end.

(** The chunks of a [stuff] with a hyphen: it is cut at each hyphen that
    makes a range, the search for the next one leaving out the [skip]
    characters that follow (the upper end of the range and the character
    after it); a hyphen at the very end goes to the last chunk. *)
Fixpoint split_chunks (cur : list ascii) (skip : nat) (s : list ascii)
  : list (list ascii) :=
  match s with
  | [] => [cur]
  | c :: s' =>
      match skip with
      | S n => split_chunks (cur ++ [c]) n s'
      | O =>
          if Ascii.eqb c "-" then
            match s' with
            | [] => [cur ++ [c]]
            | _ => cur :: split_chunks [] 2 s'
            end
          else split_chunks (cur ++ [c]) 0 s'
      end
  end.

(** The loop that removes the empty ranges, from the last chunk to the
    first: where the last character of a chunk is above the first of the
    next, both characters go and the two chunks become one. *)
Fixpoint drop_empty_ranges (chunks : list (list ascii))
  : list (list ascii) :=
  match chunks with
  | [] => []
  | c :: rest =>
      match drop_empty_ranges rest with
      | [] => [c]
      | d :: rest' =>
          match List.last (List.map Some c) None, d with
          | Some lo, hi :: d' =>
              if Nat.ltb (nat_of_ascii hi) (nat_of_ascii lo)
              then (removelast c ++ d') :: rest'
              else c :: d :: rest'
          | _, _ => c :: d :: rest'
          end
      end
  end.

(** The class that the chunks joined by hyphens denote: the characters
    of each chunk, and the range from the last character of a chunk to
    the first of the next.  [lo] is the lower end of the range the first
    chunk closes, if any. *)
Fixpoint chunk_ranges (lo : option ascii) (chunks : list (list ascii))
  : list (ascii * ascii) :=
  match chunks with
  | [] => []
  | c :: rest =>
      let '(closed, body) :=
        match lo, c with
        | Some l, h :: c' => ([(l, h)], c')
        | _, _ => ([], c)
        end in
      match rest with
      | [] => closed ++ List.map (fun x => (x, x)) body
      | _ =>
          closed ++ List.map (fun x => (x, x)) (removelast body)
          ++ chunk_ranges (List.last (List.map Some body) None) rest
      end
  end.

(** The token of a bracket expression with text [stuff]: nothing when
    the removal of empty ranges leaves no text, any character when it
    leaves [!] alone, else the class, negated when the text left starts
    with [!]. *)
Definition class_token (stuff : list ascii) : glob_token :=
  let chunks :=
    if existsb (Ascii.eqb "-") stuff then
      drop_empty_ranges
        (split_chunks []
           (match stuff with
            | c :: _ => if Ascii.eqb c "!" then 2 else 1
            | [] => 1
            end) stuff)
    else [stuff] in
  match chunks with
  | [] => GSet false []
  | [[]] => GSet false []
  | (c :: first) :: rest =>
      if Ascii.eqb c "!" then
        match first, rest with
        | [], [] => GAny
        | _, _ => GSet true (chunk_ranges None (first :: rest))
        end
      else GSet false (chunk_ranges None chunks)
  | [] :: _ => GSet false (chunk_ranges None chunks)
  end.

Fixpoint translate_aux (fuel : nat) (pat : list ascii) : list glob_token :=
  match fuel, pat with
  | _, [] => []
  | O, _ => []
  | S fuel', c :: rest =>
      if Ascii.eqb c "*" then GStar :: translate_aux fuel' rest
      else if Ascii.eqb c "?" then GAny :: translate_aux fuel' rest
      else if Ascii.eqb c "[" then
        match bracket_body rest with
        | Some (stuff, rest') => class_token stuff :: translate_aux fuel' rest'
        | None => GLit c :: translate_aux fuel' rest
        end
      else GLit c :: translate_aux fuel' rest
  end.

Definition translate (pat : string) : list glob_token :=
  let p := list_ascii_of_string pat in translate_aux (length p) p.

Definition in_class (ranges : list (ascii * ascii)) (c : ascii) : bool :=
  existsb (fun '(lo, hi) =>
             Nat.leb (nat_of_ascii lo) (nat_of_ascii c)
             && Nat.leb (nat_of_ascii c) (nat_of_ascii hi)) ranges.

Fixpoint glob_match (ts : list glob_token) (s : list ascii) : bool :=
  match ts with
  | [] => match s with [] => true | _ => false end
  | GStar :: ts' =>
      (fix star (s : list ascii) : bool :=
         glob_match ts' s
         || match s with [] => false | _ :: s' => star s' end) s
  | GAny :: ts' =>
      match s with _ :: s' => glob_match ts' s' | [] => false end
  | GLit c :: ts' =>
      match s with
      | d :: s' => Ascii.eqb c d && glob_match ts' s'
      | [] => false
      end
  | GSet neg ranges :: ts' =>
      match s with
      | d :: s' => xorb neg (in_class ranges d) && glob_match ts' s'
      | [] => false
      end
  end.

(** [fnmatch(name, pat)]. *)
Definition fnmatch (name pat : string) : bool :=
  glob_match (translate pat) (list_ascii_of_string name).

(** ** [pathlib] paths

    A [Path] is its anchor (is there a leading slash) and the tuple of its
    components, as [PurePosixPath] keeps them. *)

Record Path := mkPath { anchor : bool; parts : list string }.

(** [Path(s)]: empty and [.] components are dropped. *)
Definition Path_of_str (s : string) : Path :=
  {| anchor := String.prefix "/" s;
     parts := filter (fun x => x ≠ "" ∧ x ≠ ".") (split_slash s) |}.

(** [str(p)] and [p.as_posix()]. *)
Definition str (p : Path) : string :=
  if anchor p then "/" +:+ join "/" (parts p)
  else match parts p with
       | [] => "."
       | _ => join "/" (parts p)
       end.

Definition as_posix (p : Path) : string := str p.

(** [p.name]: the final component, [""] when there is none. *)
Definition name (p : Path) : string := List.last (parts p) "".

(** [p.parent]. *)
Definition parent (p : Path) : Path :=
  {| anchor := anchor p; parts := removelast (parts p) |}.

(** [p / child] for a list of further components. *)
Definition joinpath (p : Path) (rel : list string) : Path :=
  {| anchor := anchor p; parts := (parts p ++ rel)%list |}.

Fixpoint strip_prefix (base l : list string) : option (list string) :=
  match base, l with
  | [], _ => Some l
  | b :: base', x :: l' =>
      if String.eqb b x then strip_prefix base' l' else None
  | _ :: _, [] => None
  end.

(** [p.relative_to(base)]; [None] stands for the [ValueError] raised when
    [base] is not a prefix of [p]. *)
Definition relative_to (p base : Path) : option Path :=
  if Bool.eqb (anchor p) (anchor base) then
    match strip_prefix (parts base) (parts p) with
    | Some rel => Some {| anchor := false; parts := rel |}
    | None => None
    end
  else None.

Definition step_component (acc : list string) (x : string) : list string :=
  if String.eqb x ".." then removelast acc else (acc ++ [x])%list.

(** Components of the absolute, normalised path that [p] denotes when the
    working directory is [cwd]; [..] steps are taken lexically. *)
Definition abs_parts (cwd : list string) (p : Path) : list string :=
  fold_left step_component
    ((if anchor p then [] else cwd) ++ parts p)%list [].

(** ** Exclusion rules ([sdk/cos.py]) *)

Definition DEFAULT_EXCLUDE_PATTERNS : list string :=
  [ ".git"; ".gitmodules"; ".github"; ".cache"; ".mypy_cache";
    ".pytest_cache"; ".venv"; "venv"; ".env"; ".env.local";
    "node_modules"; ".next"; ".vercel"; "__pycache__";
    "*.pyc"; "*.pyo"; "*.pyd"; "*.log"; "*.tmp"; "*.swp";
    ".DS_Store"; "dist"; "build"; "coverage" ].

(** [any(token in pattern for token in ("*", "?", "[", "]"))]. *)
Definition has_glob (pattern : string) : bool :=
  existsb (fun token => str_in token pattern) ["*"; "?"; "["; "]"].

(** The [for pattern in exclude_patterns] loop of [should_exclude], with
    its early [return True], its [continue] and the final [return False]. *)
Fixpoint exclude_loop (exclude_patterns : list string)
    (file_name relative_str : string) (parts : list string) : bool :=
  match exclude_patterns with
  | [] => false
  | pattern :: rest =>
      if negb (has_glob pattern) then
        if bool_decide (pattern ∈ parts) then true
        else exclude_loop rest file_name relative_str parts
      else if fnmatch file_name pattern || fnmatch relative_str pattern
           then true
      else exclude_loop rest file_name relative_str parts
  end.

(** The closure [should_exclude(file_path)] of [create_source_archive];
    [source_path] and [exclude_patterns] are its captured variables.
    [None] is the [ValueError] of [relative_to]. *)
Definition should_exclude (exclude_patterns : list string)
    (source_path file_path : Path) : option bool :=
  match relative_to file_path source_path with
  | None => None
  | Some relative_path =>
      let relative_str := as_posix relative_path in
      let parts := parts relative_path in
      Some (exclude_loop exclude_patterns (name file_path) relative_str parts)
  end.

(** ** Exceptions and the world *)

(** The exception classes the sources raise or catch.  [RequestException]
    stands for [requests.exceptions.RequestException] and its subclasses
    (connection errors, timeouts, [HTTPError], [JSONDecodeError]);
    [OSError] for the subclasses other than [FileNotFoundError]
    ([FileExistsError], [NotADirectoryError], [IsADirectoryError]);
    [ClientError] for what the storage client raises. *)
Inductive exn_class :=
| ValueError
| RuntimeError
| FileNotFoundError
| AttributeError
| KeyError
| OSError
| RequestException
| ClientError
| IndexError.

Record exn := Exn { exn_cls : exn_class; exn_msg : string }.

Inductive result (A : Type) :=
| Ok (a : A)
| Raise (e : exn).
Arguments Ok {A} a.
Arguments Raise {A} e.

(** What [response.json()] can return (numbers as integers). *)
Inductive json :=
| JNull
| JBool (b : bool)
| JNum (z : Z)
| JStr (s : string)
| JArr (items : list json)
| JObj (fields : list (string * json)).

(** A [requests.Response], by what the callers ask of it:
    [raise_for_status()] raises [HTTPError] with the message
    [http_error] when there is one, [json()] returns [json_body] or raises
    [JSONDecodeError] when the body is not JSON. *)
Record Response := {
  http_error : option string;
  json_body : option json;
}.

(** [requests.post(...)]: a transport failure (a [RequestException] with
    its message) or a response. *)
Inductive PostOutcome :=
| PostRaises (msg : string)
| PostReturns (r : Response).

(** Content of a regular file: opaque bytes, or a zip archive given by its
    entries (archive name, content) in the order they were written. *)
Inductive Data :=
| Raw (bytes : string)
| Zip (entries : list (Path * Data)).

(** What lives at a path.  The model covers file systems made of
    directories and regular files; symbolic links and special files
    (sockets, devices, FIFOs) are outside it. *)
Inductive Node :=
| File (data : Data)
| Dir.

(** The client object [ibm_boto3.client("s3", ...)] returns, by the
    arguments it was built from. *)
Record Client := {
  ibm_api_key_id : string;
  ibm_service_instance_id : string;
  endpoint_url : string;
}.

(** [datetime] as [utcnow()] returns it (microseconds are not used). *)
Record datetime := {
  year : nat; month : nat; day : nat;
  hour : nat; minute : nat; second : nat;
}.

Inductive Event :=
| EvPost (url : string) (data : list (string * string)) (timeout : nat)
| EvUpload (bucket key : string)
| EvDelete (bucket key : string).

(** Everything outside the process.  [clock] gives the successive readings
    of [datetime.utcnow()], [ticks] counts the readings taken so far;
    [iam] is the reply of the network to a form-encoded POST;
    [client_error] is the exception with which [ibm_boto3.client] refuses
    to build a client from its arguments, if it does (an endpoint URL it
    finds invalid, say); [zip_error] is the exception with which
    [ZipFile.write] refuses the file at a path, if it does (a modification
    time before 1980, say); [cos_put] and [cos_delete] give the error with
    which the storage service rejects a request, if it does; [trace]
    lists the network calls made, oldest first. *)
Record World := {
  environ : gmap string string;
  cwd : list string;
  fs : gmap (list string) Node;
  clock : nat → datetime;
  ticks : nat;
  iam : string → list (string * string) → PostOutcome;
  client_error : Client → option exn;
  zip_error : list string → option exn;
  cos_put : string → string → option string;
  cos_delete : string → string → option string;
  bucket_objects : gmap (string * string) Data;
  trace : list Event;
}.

Definition set_environ (e : gmap string string) (w : World) : World :=
  {| environ := e; cwd := cwd w; fs := fs w; clock := clock w;
     ticks := ticks w; iam := iam w; client_error := client_error w;
     zip_error := zip_error w; cos_put := cos_put w;
     cos_delete := cos_delete w; bucket_objects := bucket_objects w;
     trace := trace w |}.

Definition set_fs (f : gmap (list string) Node) (w : World) : World :=
  {| environ := environ w; cwd := cwd w; fs := f; clock := clock w;
     ticks := ticks w; iam := iam w; client_error := client_error w;
     zip_error := zip_error w; cos_put := cos_put w;
     cos_delete := cos_delete w; bucket_objects := bucket_objects w;
     trace := trace w |}.

Definition set_ticks (n : nat) (w : World) : World :=
  {| environ := environ w; cwd := cwd w; fs := fs w; clock := clock w;
     ticks := n; iam := iam w; client_error := client_error w;
     zip_error := zip_error w; cos_put := cos_put w;
     cos_delete := cos_delete w; bucket_objects := bucket_objects w;
     trace := trace w |}.

Definition set_bucket_objects (b : gmap (string * string) Data) (w : World)
  : World :=
  {| environ := environ w; cwd := cwd w; fs := fs w; clock := clock w;
     ticks := ticks w; iam := iam w; client_error := client_error w;
     zip_error := zip_error w; cos_put := cos_put w;
     cos_delete := cos_delete w; bucket_objects := b;
     trace := trace w |}.

Definition log_event (e : Event) (w : World) : World :=
  {| environ := environ w; cwd := cwd w; fs := fs w; clock := clock w;
     ticks := ticks w; iam := iam w; client_error := client_error w;
     zip_error := zip_error w; cos_put := cos_put w;
     cos_delete := cos_delete w; bucket_objects := bucket_objects w;
     trace := (trace w ++ [e])%list |}.

(** ** The monad of Python code: state plus exceptions *)

Definition M (A : Type) : Type := World → result A * World.

Definition ret {A} (a : A) : M A := fun w => (Ok a, w).

Definition bind {A B} (m : M A) (k : A → M B) : M B :=
  fun w =>
    match m w with
    | (Ok a, w') => k a w'
    | (Raise e, w') => (Raise e, w')
    end.

(** [raise cls(msg)]. *)
Definition raise {A} (cls : exn_class) (msg : string) : M A :=
  fun w => (Raise (Exn cls msg), w).

Definition reraise {A} (e : exn) : M A := fun w => (Raise e, w).

(** [try: body  except ...: handler]; the handler re-raises what no
    [except] clause takes. *)
Definition try_except {A} (body : M A) (handler : exn → M A) : M A :=
  fun w =>
    match body w with
    | (Ok a, w') => (Ok a, w')
    | (Raise e, w') => handler e w'
    end.

(** A computation that does not touch the world. *)
Definition lift {A} (r : result A) : M A := fun w => (r, w).

Definition gets {A} (f : World → A) : M A := fun w => (Ok (f w), w).
Definition modify (f : World → World) : M unit := fun w => (Ok tt, f w).

Notation "'let*' x ':=' m 'in' k" := (bind m (fun x => k))
  (at level 10, x pattern, m at level 100, k at level 200).
Notation "m ';;;' k" := (bind m (fun _ => k))
  (at level 100, k at level 200, right associativity).

(** [os.getenv(key)] and [os.getenv(key, default)]. *)
Definition getenv (key : string) : M (option string) :=
  gets (fun w => environ w !! key).

Definition getenv_default (key dflt : string) : M string :=
  gets (fun w => default dflt (environ w !! key)).

(** ** Credentials ([ibm_cloud_sdk_core.authenticators])

    The two authenticator classes, by the attributes their instances
    carry: an [IAMAuthenticator] has a [token_manager] whose [apikey] is
    the key it was built from; a [BearerTokenAuthenticator] has only its
    [bearer_token]. *)
Inductive Authenticator :=
| IAMAuthenticator (apikey : string)
| BearerTokenAuthenticator (bearer_token : json).

(** The double quote. *)
Definition dquote : ascii := "034"%char.

Fixpoint last_char (s : string) : option ascii :=
  match s with
  | EmptyString => None
  | String c EmptyString => Some c
  | String _ s' => last_char s'
  end.

(** [ibm_cloud_sdk_core.utils.has_bad_first_or_last_char]: the value
    starts with an opening curly bracket or a double quote, or ends with a
    closing curly bracket or a double quote. *)
Definition has_bad_first_or_last_char (val : string) : bool :=
  match val with
  | String c _ => Ascii.eqb c "{" || Ascii.eqb c dquote
  | EmptyString => false
  end
  || match last_char val with
     | Some c => Ascii.eqb c "}" || Ascii.eqb c dquote
     | None => false
     end.

(** The constructor call [IAMAuthenticator(apikey=apikey)]: the library
    validates the key and raises [ValueError] on a bad first or last
    character. *)
Definition new_IAMAuthenticator (apikey : string) : M Authenticator :=
  if has_bad_first_or_last_char apikey then
    raise ValueError
      ("The apikey shouldn't start or end with curly brackets or quotes. Please remove any surrounding {, }, or "
       +:+ String dquote " characters.")
  else ret (IAMAuthenticator apikey).

(** [authenticator.token_manager.apikey]. *)
Definition token_manager_apikey (a : Authenticator) : M string :=
  match a with
  | IAMAuthenticator apikey => ret apikey
  | BearerTokenAuthenticator _ =>
      raise AttributeError
        "'BearerTokenAuthenticator' object has no attribute 'token_manager'"
  end.

(** ** [sdk/auth.py] *)

(** Truth value of a JSON value, as [not access_token] tests it. *)
Definition json_truthy (v : json) : bool :=
  match v with
  | JNull => false
  | JBool b => b
  | JNum z => negb (Z.eqb z 0)
  | JStr s => negb (String.eqb s "")
  | JArr items => match items with [] => false | _ => true end
  | JObj fields => match fields with [] => false | _ => true end
  end.

Fixpoint assoc (key : string) (fields : list (string * json)) : option json :=
  match fields with
  | [] => None
  | (k, v) :: rest => if String.eqb k key then Some v else assoc key rest
  end.

(** [type(v).__name__] of a decoded JSON value. *)
Definition type_name (v : json) : string :=
  match v with
  | JNull => "NoneType"
  | JBool _ => "bool"
  | JNum _ => "int"
  | JStr _ => "str"
  | JArr _ => "list"
  | JObj _ => "dict"
  end.

(** [token_data.get(key)]: a dict gives the value or [None], anything else
    has no [get]. *)
Definition json_get (token_data : json) (key : string) : M json :=
  match token_data with
  | JObj fields => ret (default JNull (assoc key fields))
  | _ =>
      raise AttributeError
        ("'" +:+ type_name token_data +:+ "' object has no attribute 'get'")
  end.

(** [requests.post(url, headers=..., data=data, timeout=timeout)]. *)
Definition requests_post (url : string) (data : list (string * string))
    (timeout : nat) : M Response :=
  let* _ := modify (log_event (EvPost url data timeout)) in
  let* reply := gets (fun w => iam w url data) in
  match reply with
  | PostRaises msg => raise RequestException msg
  | PostReturns r => ret r
  end.

Definition raise_for_status (r : Response) : M unit :=
  match http_error r with
  | Some msg => raise RequestException msg
  | None => ret tt
  end.

Definition response_json (r : Response) : M json :=
  match json_body r with
  | Some v => ret v
  | None => raise RequestException "Expecting value"
  end.

Definition create_iam_authenticator (api_key : option string)
  : M Authenticator :=
  let* api_key :=
    match api_key with
    | None => getenv "IBM_CLOUD_API_KEY"
    | Some _ => ret api_key
    end in
  match api_key with
  | Some key =>
      if String.eqb key "" then
        raise ValueError
          "IBM Cloud API key is required. Provide it as an argument or set the IBM_CLOUD_API_KEY environment variable."
      else new_IAMAuthenticator key
  | None =>
      raise ValueError
        "IBM Cloud API key is required. Provide it as an argument or set the IBM_CLOUD_API_KEY environment variable."
  end.

Definition create_iam_authenticator_oidc
    (oidc_token trusted_profile_id : option string) (iam_endpoint : string)
  : M Authenticator :=
  if negb (truthy oidc_token) then
    raise ValueError "OIDC token is required for OIDC authentication"
  else if negb (truthy trusted_profile_id) then
    raise ValueError
      "IBM Cloud Trusted Profile ID is required for OIDC authentication. Set it in your ibmcloudvercel.yml configuration."
  else
    try_except
      (let token_url := iam_endpoint +:+ "/identity/token" in
       let data :=
         [ ("grant_type", "urn:ibm:params:oauth:grant-type:cr-token");
           ("cr_token", default "" oidc_token);
           ("profile_id", default "" trusted_profile_id) ] in
       let* response := requests_post token_url data 10 in
       raise_for_status response ;;;
       let* token_data := response_json response in
       let* access_token := json_get token_data "access_token" in
       if negb (json_truthy access_token) then
         raise RuntimeError "Failed to obtain access token from IBM IAM"
       else ret (BearerTokenAuthenticator access_token))
      (fun e =>
         match exn_cls e with
         | RequestException =>
             raise RuntimeError
               ("Failed to exchange OIDC token with IBM IAM: " +:+ exn_msg e)
         | KeyError =>
             raise RuntimeError
               ("Invalid response from IBM IAM token endpoint: " +:+ exn_msg e)
         | _ => reraise e
         end).

Definition get_authenticator
    (trusted_profile_id api_key oidc_token : option string)
  : M Authenticator :=
  let* oidc_token :=
    match oidc_token with
    | None => getenv "VERCEL_OIDC_TOKEN"
    | Some _ => ret oidc_token
    end in
  if truthy oidc_token && truthy trusted_profile_id then
    create_iam_authenticator_oidc oidc_token trusted_profile_id
      "https://iam.cloud.ibm.com"
  else
    let* api_key :=
      match api_key with
      | None => getenv "IBM_CLOUD_API_KEY"
      | Some _ => ret api_key
      end in
    if truthy api_key then create_iam_authenticator api_key
    else
      raise ValueError
        "No valid authentication method available. Either set VERCEL_OIDC_TOKEN with a Trusted Profile ID, or set IBM_CLOUD_API_KEY environment variable."
  .

(** ** Clock and [strftime] *)

(** [datetime.utcnow()]. *)
Definition utcnow : M datetime :=
  fun w => (Ok (clock w (ticks w)), set_ticks (S (ticks w)) w).

Definition digit (n : nat) : ascii := ascii_of_nat (48 + n mod 10)%nat.

(** Zero-padded decimal fields of [%m], [%d], [%H], [%M], [%S] and [%Y]. *)
Definition pad2 (n : nat) : string :=
  String (digit (n / 10)%nat) (String (digit n) "").

Definition pad4 (n : nat) : string :=
  String (digit (n / 1000)%nat) (String (digit (n / 100)%nat)
    (String (digit (n / 10)%nat) (String (digit n) ""))).

Definition directive (c : ascii) (dt : datetime) : string :=
  if Ascii.eqb c "Y" then pad4 (year dt)
  else if Ascii.eqb c "m" then pad2 (month dt)
  else if Ascii.eqb c "d" then pad2 (day dt)
  else if Ascii.eqb c "H" then pad2 (hour dt)
  else if Ascii.eqb c "M" then pad2 (minute dt)
  else if Ascii.eqb c "S" then pad2 (second dt)
  else String "%" (String c "").

(** [dt.strftime(fmt)] for the directives the sources use. *)
Fixpoint strftime (fmt : string) (dt : datetime) : string :=
  match fmt with
  | EmptyString => ""
  | String c rest =>
      if Ascii.eqb c "%" then
        match rest with
        | String d rest' => directive d dt +:+ strftime rest' dt
        | EmptyString => "%"
        end
      else String c (strftime rest dt)
  end.

(** The value ranges of a [datetime]. *)
Definition valid_datetime (dt : datetime) : Prop :=
  (1 ≤ year dt ≤ 9999 ∧ 1 ≤ month dt ≤ 12 ∧ 1 ≤ day dt ≤ 31 ∧
   hour dt ≤ 23 ∧ minute dt ≤ 59 ∧ second dt ≤ 59)%nat.

(** ** File-system operations

    Paths are looked up as the kernel does it, name by name: every
    directory on the way has to exist, and [..] is the parent of the
    directory reached so far (there are no symbolic links, so that is the
    directory written before it). *)

(** What is at the absolute components [key]; the root always is a
    directory. *)
Definition node_at (f : gmap (list string) Node) (key : list string)
  : option Node :=
  match key with
  | [] => Some Dir
  | _ => f !! key
  end.

Definition is_dir_at (f : gmap (list string) Node) (key : list string)
  : bool :=
  match node_at f key with Some Dir => true | _ => false end.

Definition is_file_at (f : gmap (list string) Node) (key : list string)
  : bool :=
  match node_at f key with Some (File _) => true | _ => false end.

(** Where a walk ends: at the entry [key] of the last directory (which
    may hold nothing under that name), or with [ENOENT] or [ENOTDIR] on
    the way. *)
Inductive walked :=
| Reached (key : list string)
| NoEntry
| NotADirectory.

(** The walk along [names] from the directory [cur]. *)
Fixpoint path_walk (f : gmap (list string) Node) (cur names : list string)
  : walked :=
  match names with
  | [] => Reached cur
  | x :: rest =>
      match node_at f cur with
      | Some Dir => path_walk f (step_component cur x) rest
      | Some _ => NotADirectory
      | None => NoEntry
      end
  end.

(** The walk for the path [p] as written: from the root when it is
    absolute, from the working directory otherwise. *)
Definition locate (f : gmap (list string) Node) (cwd : list string)
    (p : Path) : walked :=
  path_walk f (if anchor p then [] else cwd) (parts p).

(** [os.stat(p)], by what it finds; [None] is [ENOENT] or [ENOTDIR]. *)
Definition stat (f : gmap (list string) Node) (cwd : list string)
    (p : Path) : option Node :=
  match locate f cwd p with
  | Reached key => node_at f key
  | _ => None
  end.

(** [os.stat] of the absolute path with components [key]. *)
Definition stat_abs (f : gmap (list string) Node) (key : list string)
  : option Node :=
  stat f [] {| anchor := true; parts := key |}.

(** The text of an [OSError] about the path [p]: the error, then the
    [repr] of the path, which is the path between single quotes when it
    holds no quote, backslash or unprintable character. *)
Definition os_error_text (text : string) (p : Path) : string :=
  text +:+ ": '" +:+ str p +:+ "'".

(** [Path(s).resolve()]: without symbolic links, the absolute path with
    the [..] steps taken on the text. *)
Definition resolve (p : Path) : M Path :=
  gets (fun w => {| anchor := true; parts := abs_parts (cwd w) p |}).

(** [p.exists()]. *)
Definition path_exists (p : Path) : M bool :=
  gets (fun w =>
          match stat (fs w) (cwd w) p with
          | Some _ => true
          | None => false
          end).

(** [p.is_dir()]. *)
Definition is_dir (f : gmap (list string) Node) (cwd : list string)
    (p : Path) : bool :=
  match stat f cwd p with Some Dir => true | _ => false end.

(** [os.mkdir(p)]: the file system with the new directory, or the error. *)
Inductive mkdir_outcome :=
| Made (f' : gmap (list string) Node)
| AlreadyThere
| MkNoEntry
| MkNotADirectory.

Definition os_mkdir (f : gmap (list string) Node) (cwd : list string)
    (p : Path) : mkdir_outcome :=
  match locate f cwd p with
  | Reached key =>
      match node_at f key with
      | Some _ => AlreadyThere
      | None =>
          if String.eqb (List.last (parts p) "..") ".." then MkNoEntry
          else Made (<[key := Dir]> f)
      end
  | NoEntry => MkNoEntry
  | NotADirectory => MkNotADirectory
  end.

(** [p.mkdir(parents=True, exist_ok=True)], for the path whose
    components are [rnames] read backwards: [os.mkdir], then on
    [FileNotFoundError] the parent first and [os.mkdir] again, and on any
    other [OSError] a check that the path is a directory.  The result
    comes with the file system the call leaves, which on an error holds
    the directories made before it. *)
Fixpoint mkdir_parents (f : gmap (list string) Node) (cwd : list string)
    (anchored : bool) (rnames : list string)
  : result unit * gmap (list string) Node :=
  let p := {| anchor := anchored; parts := reverse rnames |} in
  match os_mkdir f cwd p with
  | Made f' => (Ok tt, f')
  | AlreadyThere =>
      if is_dir f cwd p then (Ok tt, f)
      else (Raise (Exn OSError (os_error_text "[Errno 17] File exists" p)), f)
  | MkNotADirectory =>
      (Raise (Exn OSError (os_error_text "[Errno 20] Not a directory" p)), f)
  | MkNoEntry =>
      match rnames with
      | [] =>
          (Raise (Exn FileNotFoundError
                    (os_error_text "[Errno 2] No such file or directory" p)),
           f)
      | _ :: rparent =>
          match mkdir_parents f cwd anchored rparent with
          | (Raise e, f1) => (Raise e, f1)
          | (Ok _, f1) =>
              match os_mkdir f1 cwd p with
              | Made f2 => (Ok tt, f2)
              | AlreadyThere =>
                  if is_dir f1 cwd p then (Ok tt, f1)
                  else (Raise (Exn OSError
                                 (os_error_text "[Errno 17] File exists" p)),
                        f1)
              | MkNotADirectory =>
                  (Raise (Exn OSError
                            (os_error_text "[Errno 20] Not a directory" p)),
                   f1)
              | MkNoEntry =>
                  (Raise (Exn FileNotFoundError
                            (os_error_text
                               "[Errno 2] No such file or directory" p)),
                   f1)
              end
          end
      end
  end.

Definition mkdir_parents_exist_ok (p : Path) : M unit :=
  fun w =>
    match mkdir_parents (fs w) (cwd w) (anchor p) (reverse (parts p)) with
    | (r, f) => (r, set_fs f w)
    end.

(** Opening [p] for writing, as [zipfile.ZipFile(p, "w")] does: the file
    is created, or truncated, as an archive without entries.  The result
    is the entry the open file is. *)
Definition zip_open_w (p : Path) : M (list string) :=
  fun w =>
    match locate (fs w) (cwd w) p with
    | Reached key =>
        match node_at (fs w) key with
        | Some Dir =>
            (Raise (Exn OSError (os_error_text "[Errno 21] Is a directory" p)),
             w)
        | Some (File _) =>
            (Ok key, set_fs (<[key := File (Zip [])]> (fs w)) w)
        | None =>
            if String.eqb (List.last (parts p) "..") ".." then
              (Raise (Exn FileNotFoundError
                        (os_error_text
                           "[Errno 2] No such file or directory" p)), w)
            else (Ok key, set_fs (<[key := File (Zip [])]> (fs w)) w)
        end
    | NoEntry =>
        (Raise (Exn FileNotFoundError
                  (os_error_text "[Errno 2] No such file or directory" p)), w)
    | NotADirectory =>
        (Raise (Exn OSError (os_error_text "[Errno 20] Not a directory" p)),
         w)
    end.

(** Closing the archive opened at [key] writes its entries out. *)
Definition zip_close (key : list string) (entries : list (Path * Data))
  : M unit :=
  modify (fun w => set_fs (<[key := File (Zip entries)]> (fs w)) w).

(** [open(p, "rb")] and reading it all. *)
Definition open_rb (p : Path) : M Data :=
  fun w =>
    match locate (fs w) (cwd w) p with
    | Reached key =>
        match node_at (fs w) key with
        | Some (File data) => (Ok data, w)
        | Some Dir =>
            (Raise (Exn OSError (os_error_text "[Errno 21] Is a directory" p)),
             w)
        | None =>
            (Raise (Exn FileNotFoundError
                      (os_error_text
                         "[Errno 2] No such file or directory" p)), w)
        end
    | NoEntry =>
        (Raise (Exn FileNotFoundError
                  (os_error_text "[Errno 2] No such file or directory" p)), w)
    | NotADirectory =>
        (Raise (Exn OSError (os_error_text "[Errno 20] Not a directory" p)),
         w)
    end.

(** [p.unlink(missing_ok=True)]: [FileNotFoundError] is passed over, any
    other error is raised. *)
Definition unlink_missing_ok (p : Path) : M unit :=
  fun w =>
    match locate (fs w) (cwd w) p with
    | Reached key =>
        match node_at (fs w) key with
        | Some Dir =>
            (Raise (Exn OSError (os_error_text "[Errno 21] Is a directory" p)),
             w)
        | Some (File _) => (Ok tt, set_fs (delete key (fs w)) w)
        | None => (Ok tt, w)
        end
    | NoEntry => (Ok tt, w)
    | NotADirectory =>
        (Raise (Exn OSError (os_error_text "[Errno 20] Not a directory" p)),
         w)
    end.

(** The kernel reaches [pre/rel] from the directory [pre] by the names
    of [rel]: every directory from [pre] down to the parent of [pre/rel]
    is one, and no name is [..]. *)
Fixpoint reach (f : gmap (list string) Node) (pre rel : list string)
  : bool :=
  match rel with
  | [] => true
  | x :: rel' =>
      is_dir_at f pre && negb (String.eqb x "..")
      && reach f (pre ++ [x])%list rel'
  end.

(** One step of the walk: the item for the entry [key] of the file
    system, when it lies below [source_path] and is reached from the
    root. *)
Definition walk_item (f : gmap (list string) Node) (source_path : Path)
    (key : list string) : option Path :=
  match strip_prefix (parts source_path) key with
  | Some [] => None
  | Some rel =>
      if reach f [] key then Some (joinpath source_path rel) else None
  | None => None
  end.

(** [source_path.rglob("*")] for a resolved [source_path]: every entry
    below it.  The order is that of the map; nothing below depends on
    it. *)
Definition rglob (f : gmap (list string) Node) (source_path : Path)
  : list Path :=
  omap (fun kv => walk_item f source_path (fst kv)) (map_to_list f).

(** ** [sdk/cos.py] *)

Record COSUploader := {
  bucket_name : string;
  endpoint : string;
  client : Client;
}.

(** [client.upload_fileobj(Fileobj=f, Bucket=bucket, Key=key)]. *)
Definition upload_fileobj (c : Client) (fileobj : Data) (bucket key : string)
  : M unit :=
  let* _ := modify (log_event (EvUpload bucket key)) in
  let* verdict := gets (fun w => cos_put w bucket key) in
  match verdict with
  | Some msg => raise ClientError msg
  | None =>
      modify (fun w =>
                set_bucket_objects
                  (<[(bucket, key) := fileobj]> (bucket_objects w)) w)
  end.

(** [client.delete_object(Bucket=bucket, Key=key)]. *)
Definition delete_object (c : Client) (bucket key : string) : M unit :=
  let* _ := modify (log_event (EvDelete bucket key)) in
  let* verdict := gets (fun w => cos_delete w bucket key) in
  match verdict with
  | Some msg => raise ClientError msg
  | None =>
      modify (fun w =>
                set_bucket_objects (delete (bucket, key) (bucket_objects w)) w)
  end.

(** [ibm_boto3.client("s3", ibm_api_key_id=..., ibm_service_instance_id=...,
    config=Config(signature_version="oauth"), endpoint_url=...)]: the
    library returns the client or raises. *)
Definition boto3_client (c : Client) : M Client :=
  let* verdict := gets (fun w => client_error w c) in
  match verdict with
  | Some e => reraise e
  | None => ret c
  end.

(** [COSUploader.__init__]. *)
Definition COSUploader_init (authenticator : Authenticator)
    (service_instance_id endpoint bucket_name : string) : M COSUploader :=
  let* apikey := token_manager_apikey authenticator in
  let* client :=
    boto3_client {| ibm_api_key_id := apikey;
                    ibm_service_instance_id := service_instance_id;
                    endpoint_url := "https://" +:+ endpoint |} in
  ret {| bucket_name := bucket_name;
         endpoint := endpoint;
         client := client |}.

(** The body of the [for item in source_path.rglob("*")] loop, over the
    items in the order the walk yields them: the entries written, and the
    exception that ended the loop, if any.  [reject] is the verdict of
    [zipf.write] on the file at a path. *)
Fixpoint write_entries (f : gmap (list string) Node)
    (reject : list string → option exn)
    (exclude_patterns : list string) (source_path : Path)
    (items : list Path) : list (Path * Data) * option exn :=
  match items with
  | [] => ([], None)
  | item :: rest =>
      match stat_abs f (parts item) with
      | Some (File data) =>
          match should_exclude exclude_patterns source_path item with
          | None => ([], Some (Exn ValueError "not in the subpath"))
          | Some true =>
              write_entries f reject exclude_patterns source_path rest
          | Some false =>
              match relative_to item source_path with
              | None => ([], Some (Exn ValueError "not in the subpath"))
              | Some arcname =>
                  match reject (parts item) with
                  | Some e => ([], Some e)
                  | None =>
                      let '(written, err) :=
                        write_entries f reject exclude_patterns source_path
                          rest in
                      ((arcname, data) :: written, err)
                  end
              end
          end
      | _ => write_entries f reject exclude_patterns source_path rest
      end
  end.

(** [COSUploader.create_source_archive].  The archive's own file, when
    the walk meets it, is read as it was created; what [zipfile] reads
    there while it writes is not followed. *)
Definition create_source_archive (self : COSUploader) (source_dir : string)
    (output_path : option string) (exclude_patterns : option (list string))
  : M string :=
  let exclude_patterns :=
    match exclude_patterns with
    | None => DEFAULT_EXCLUDE_PATTERNS
    | Some l => l
    end in
  let* source_path := resolve (Path_of_str source_dir) in
  let* found := path_exists source_path in
  if negb found then
    raise FileNotFoundError ("Source directory not found: " +:+ source_dir)
  else
    let* output_path :=
      match output_path with
      | None =>
          let* now := utcnow in
          let timestamp := strftime "%Y%m%d_%H%M%S" now in
          ret ("/tmp/source_" +:+ timestamp +:+ ".zip")
      | Some s => ret s
      end in
    let output_file := Path_of_str output_path in
    mkdir_parents_exist_ok (parent output_file) ;;;
    let* zipf := zip_open_w output_file in
    let* f := gets fs in
    let* reject := gets zip_error in
    let '(entries, err) :=
      write_entries f reject exclude_patterns source_path
        (rglob f source_path) in
    zip_close zipf entries ;;;
    match err with
    | Some e => reraise e
    | None => ret (str output_file)
    end.

(** [COSUploader.upload_file]. *)
Definition upload_file (self : COSUploader) (file_path : string)
    (object_name : option string) : M string :=
  let file_to_upload := Path_of_str file_path in
  let* found := path_exists file_to_upload in
  if negb found then
    raise FileNotFoundError ("File not found: " +:+ file_path)
  else
    let object_name :=
      match object_name with
      | None => name file_to_upload
      | Some s => s
      end in
    try_except
      (let* f := open_rb file_to_upload in
       upload_fileobj (client self) f (bucket_name self) object_name ;;;
       let cos_uri := "cos://" +:+ bucket_name self +:+ "/" +:+ object_name in
       ret cos_uri)
      (fun e =>
         raise RuntimeError ("Failed to upload file to COS: " +:+ exn_msg e)).

(** [COSUploader.delete_file]: a failure is printed, not raised. *)
Definition delete_file (self : COSUploader) (object_name : string) : M unit :=
  try_except
    (delete_object (client self) (bucket_name self) object_name)
    (fun _ => ret tt).

(** [COSUploader.upload_source_code]. *)
Definition upload_source_code (self : COSUploader) (source_dir : string)
    (deployment_id : string) (exclude_patterns : option (list string))
  : M (string * string) :=
  let* now := utcnow in
  let timestamp := strftime "%Y%m%d_%H%M%S" now in
  let object_name :=
    "deployments/" +:+ deployment_id +:+ "/" +:+ timestamp +:+ "_source.zip" in
  let* zip_path := create_source_archive self source_dir None exclude_patterns in
  let* cos_uri := upload_file self zip_path (Some object_name) in
  ret (cos_uri, zip_path).

(** [create_cos_uploader]. *)
Definition create_cos_uploader (authenticator : Authenticator)
    (region bucket_name : string) (endpoint : option string)
  : M COSUploader :=
  let endpoint :=
    match endpoint with
    | None => "s3." +:+ region +:+ ".cloud-object-storage.appdomain.cloud"
    | Some s => s
    end in
  let* service_instance_id :=
    getenv_default "IBM_COS_SERVICE_INSTANCE_ID"
      "crn:v1:bluemix:public:cloud-object-storage:global:a/:::" in
  COSUploader_init authenticator service_instance_id endpoint bucket_name.

(** [upload_source]. *)
Definition upload_source (authenticator : Authenticator)
    (source_path bucket_name region : string)
    (endpoint deployment_id : option string) : M string :=
  let* deployment_id :=
    match deployment_id with
    | None => getenv_default "VERCEL_DEPLOYMENT_ID" "local"
    | Some s => ret s
    end in
  let* uploader :=
    create_cos_uploader authenticator region bucket_name endpoint in
  let* r := upload_source_code uploader source_path deployment_id None in
  ret (fst r).

(** ** [deploy_ibm.py] *)

(** The fields of [core/config.py]'s dataclasses that [main] reads. *)
Record IBMCloudConfig := {
  region : string;
  project_id : string;
  cos_bucket : string;
  cos_endpoint : option string;
  trusted_profile_id : option string;
}.

Record VercelConfig := {
  git_commit_sha : string;
  git_commit_ref : string;
  deployment_id : string;
  project_name : string;
  checks_token : option string;
}.

(** [VercelConfig.get_app_name] ([core/config.py]): indexing the sanitized
    ref raises [IndexError] when nothing is left of it. *)
Definition get_app_name (self : VercelConfig) : result string :=
  let sanitized_ref :=
    replace_char "_" "-"
      (replace_char "/" "-" (lower (git_commit_ref self))) in
  let sanitized_ref :=
    filter_chars (fun c => isalnum c || Ascii.eqb c "-") sanitized_ref in
  match sanitized_ref with
  | EmptyString => Raise (Exn IndexError "string index out of range")
  | String c _ =>
      let sanitized_ref :=
        if negb (isalpha c) then "app-" +:+ sanitized_ref
        else sanitized_ref in
      Ok (take_chars 63 (project_name self +:+ "-" +:+ sanitized_ref))
  end.

Record DeploymentConfig := {
  ibm_cloud : IBMCloudConfig;
  vercel : VercelConfig;
  source_dir : string;
  cleanup_artifacts : bool;
}.

(** The [try] block of [main] after the configuration is loaded.  Of the
    values it prints, only the application name can raise. *)
Definition main_body (config : DeploymentConfig) : M unit :=
  let* app_name := lift (get_app_name (vercel config)) in
  let* authenticator :=
    get_authenticator (trusted_profile_id (ibm_cloud config)) None None in
  let* cos_uploader :=
    create_cos_uploader authenticator (region (ibm_cloud config))
      (cos_bucket (ibm_cloud config)) (cos_endpoint (ibm_cloud config)) in
  let* r :=
    upload_source_code cos_uploader (source_dir config)
      (deployment_id (vercel config)) None in
  let zip_path := snd r in
  if cleanup_artifacts config then
    unlink_missing_ok (Path_of_str zip_path)
  else ret tt.

(** [main]: the exit code.  [load_config] is the call that reads the YAML
    file; each of the three [except] clauses returns 1. *)
Definition main (load_config : M DeploymentConfig) (w : World) : Z * World :=
  match (let* config := load_config in main_body config) w with
  | (Ok _, w') => (0%Z, w')
  | (Raise e, w') =>
      match exn_cls e with
      | FileNotFoundError => (1%Z, w')
      | ValueError => (1%Z, w')
      | _ => (1%Z, w')
      end
  end.

(** ** Vocabulary of the properties *)

(** The glob metacharacters. *)
Definition metachars : list ascii := ["*"; "?"; "["; "]"]%char.

(** A rule without any glob metacharacter. *)
Definition glob_free (rule : string) : Prop :=
  ∀ c, c ∈ metachars → c ∉ list_ascii_of_string rule.

(** One rule matches the path whose components relative to the source root
    are [rel]: a plain rule equals one of the components, a glob rule
    matches the base name or the posix form of the relative path. *)
Definition rule_matches (rule : string) (rel : list string) : Prop :=
  (glob_free rule ∧ rule ∈ rel)
  ∨ (¬ glob_free rule
     ∧ (fnmatch (List.last rel "") rule = true
        ∨ fnmatch (join "/" rel) rule = true)).

(** The value of an optional argument that falls back on an environment
    variable when it is [None]. *)
Definition resolved (explicit : option string) (variable : string)
    (w : World) : option string :=
  match explicit with
  | None => environ w !! variable
  | Some _ => explicit
  end.

(** The form [create_iam_authenticator_oidc] posts, and the network call
    it makes. *)
Definition exchange_form (oidc_token trusted_profile_id : option string)
  : list (string * string) :=
  [ ("grant_type", "urn:ibm:params:oauth:grant-type:cr-token");
    ("cr_token", default "" oidc_token);
    ("profile_id", default "" trusted_profile_id) ].

Definition exchange_call (oidc_token trusted_profile_id : option string)
  : Event :=
  EvPost "https://iam.cloud.ibm.com/identity/token"
    (exchange_form oidc_token trusted_profile_id) 10.

(** The replies on which the exchange fails, that is every reply but a
    response without HTTP error whose body is a JSON object with a truthy
    [access_token]: the transport raises, the response carries an HTTP
    error, its body is not JSON, its body is JSON but not an object, or it
    is an object whose [access_token] is missing or falsy. *)
Inductive exchange_failure : PostOutcome → Prop :=
| transport_error msg :
    exchange_failure (PostRaises msg)
| error_status msg body :
    exchange_failure (PostReturns {| http_error := Some msg; json_body := body |})
| body_not_json :
    exchange_failure (PostReturns {| http_error := None; json_body := None |})
| body_not_object v :
    (∀ fields, v ≠ JObj fields) →
    exchange_failure
      (PostReturns {| http_error := None; json_body := Some v |})
| token_missing fields :
    assoc "access_token" fields = None →
    exchange_failure
      (PostReturns {| http_error := None; json_body := Some (JObj fields) |})
| token_falsy fields v :
    assoc "access_token" fields = Some v → json_truthy v = false →
    exchange_failure
      (PostReturns {| http_error := None; json_body := Some (JObj fields) |}).

(** The reply is a response without HTTP error whose body is JSON but
    not an object. *)
Definition body_is_not_object (reply : PostOutcome) : bool :=
  match reply with
  | PostReturns r =>
      match http_error r, json_body r with
      | None, Some (JObj _) => false
      | None, Some _ => true
      | _, _ => false
      end
  | PostRaises _ => false
  end.

(** The class of the exception a failed exchange ends with. *)
Definition exchange_error_class (reply : PostOutcome) : exn_class :=
  if body_is_not_object reply then AttributeError else RuntimeError.

(** The arguments with which the uploader factory, given an API-key
    credential for [k], asks the library for its client. *)
Definition factory_client (k region : string) (endpoint : option string)
    (w : World) : Client :=
  {| ibm_api_key_id := k;
     ibm_service_instance_id :=
       default "crn:v1:bluemix:public:cloud-object-storage:global:a/:::"
         (environ w !! "IBM_COS_SERVICE_INSTANCE_ID");
     endpoint_url :=
       "https://"
       +:+ default ("s3." +:+ region +:+ ".cloud-object-storage.appdomain.cloud")
             endpoint |}.

(** The object key of a deployment uploaded at [now]. *)
Definition object_key (deployment_id : string) (now : datetime) : string :=
  "deployments/" +:+ deployment_id +:+ "/"
  +:+ strftime "%Y%m%d_%H%M%S" now +:+ "_source.zip".

(** The locator of an object. *)
Definition locator (bucket key : string) : string :=
  "cos://" +:+ bucket +:+ "/" +:+ key.

(** The output path [create_source_archive] writes to: the one given, or
    the time-stamped default under [/tmp]. *)
Definition chosen_output (output_path : option string) (w : World) : string :=
  match output_path with
  | Some s => s
  | None =>
      "/tmp/source_" +:+ strftime "%Y%m%d_%H%M%S" (clock w (ticks w))
      +:+ ".zip"
  end.

(** The entry that a path without [..] names: its components, after
    those of the working directory when it is relative. *)
Definition written_key (cwd0 : list string) (p : Path) : list string :=
  (if anchor p then [] else cwd0) ++ parts p.

(** The entry [root/rel] lies below [root] and the kernel reaches it:
    [rel] is not empty, every directory from the root of the file system
    down to the parent of [root/rel] is one, and no name is [..]. *)
Definition under (f : gmap (list string) Node) (root rel : list string)
  : Prop :=
  rel ≠ [] ∧ reach f [] (root ++ rel) = true.

(** The entry the loop of [create_source_archive] writes for one item of
    the walk, if it writes one. *)
Definition entry_of (f : gmap (list string) Node)
    (exclude_patterns : list string) (source_path item : Path)
  : option (Path * Data) :=
  match stat_abs f (parts item) with
  | Some (File data) =>
      match should_exclude exclude_patterns source_path item with
      | Some false =>
          match relative_to item source_path with
          | Some arcname => Some (arcname, data)
          | None => None
          end
      | _ => None
      end
  | _ => None
  end.

(** A string without slash. *)
Definition slash_free (s : string) : Prop :=
  "/"%char ∉ list_ascii_of_string s.

(** Unfolds the monad and the small wrappers of [sdk/auth.py]. *)
Ltac run :=
  unfold create_iam_authenticator_oidc, create_iam_authenticator,
    requests_post, raise_for_status, response_json, json_get,
    token_manager_apikey, getenv, getenv_default,
    bind, ret, raise, reraise, try_except, gets, modify in *;
  simpl in *.

(** ** Sample worlds

    A project with the three files of the specification's first scenario,
    a clock stopped at 2024-01-02 03:04:05, and an IAM endpoint that is
    either unreachable or grants a token. *)

Definition sample_time : datetime :=
  {| year := 2024; month := 1; day := 2;
     hour := 3; minute := 4; second := 5 |}.

Definition sample_fs : gmap (list string) Node :=
  list_to_map
    [ (["proj"], Dir);
      (["proj"; "a.txt"], File (Raw "hello"));
      (["proj"; ".git"], Dir);
      (["proj"; ".git"; "config"], File (Raw "[core]"));
      (["proj"; "node_modules"], Dir);
      (["proj"; "node_modules"; "x.js"], File (Raw "x()")) ].

Definition sample_world (env : list (string * string))
    (reply : PostOutcome) (put_error : option string) : World :=
  {| environ := list_to_map env;
     cwd := ["proj"];
     fs := sample_fs;
     clock := fun _ => sample_time;
     ticks := 0;
     iam := fun _ _ => reply;
     client_error := fun _ => None;
     zip_error := fun _ => None;
     cos_put := fun _ _ => put_error;
     cos_delete := fun _ _ => None;
     bucket_objects := ∅;
     trace := [] |}.


Definition token_granted : PostOutcome :=
  PostReturns
    {| http_error := None;
       json_body :=
         Some (JObj [("access_token", JStr "tok"); ("expires_in", JNum 3600)]) |}.


Definition sample_uploader : COSUploader :=
  {| bucket_name := "bkt";
     endpoint := "s3.us-south.cloud-object-storage.appdomain.cloud";
     client :=
       {| ibm_api_key_id := "key";
          ibm_service_instance_id :=
            "crn:v1:bluemix:public:cloud-object-storage:global:a/:::";
          endpoint_url :=
            "https://s3.us-south.cloud-object-storage.appdomain.cloud" |} |}.

Definition sample_config (profile : option string) (cleanup : bool)
  : DeploymentConfig :=
  {| ibm_cloud :=
       {| region := "us-south"; project_id := "p"; cos_bucket := "bkt";
          cos_endpoint := None; trusted_profile_id := profile |};
     vercel :=
       {| git_commit_sha := "0123456789abcdef"; git_commit_ref := "main";
          deployment_id := "dep123"; project_name := "app";
          checks_token := None |};
     source_dir := ".";
     cleanup_artifacts := cleanup |}.

(** ** Failure cases

    The five failure cases of the core, and the runs of the code that are
    a failure of each case: no credential is available; the token
    exchange is attempted and fails; the source root is missing; the
    upload target is missing ([TargetNotFoundError], the file-not-found
    error of [upload_file]); the upload of a path that exists fails. *)





(** The second clause of the resolver's priority as the specification
    words it: whenever the OIDC pair is not complete and an API key is
    available, the resolver constructs a credential. *)
Definition api_key_always_accepted : Prop :=
  ∀ (tp api_key oidc_token : option string) (w : World),
    truthy (resolved oidc_token "VERCEL_OIDC_TOKEN" w) && truthy tp = false →
    truthy (resolved api_key "IBM_CLOUD_API_KEY" w) = true →
    ∃ a w', get_authenticator tp api_key oidc_token w = (Ok a, w').


(** ** More of [core/config.py] and [sdk/auth.py] *)

(** [s.isascii()]. *)
Fixpoint isascii (s : string) : bool :=
  match s with
  | EmptyString => true
  | String c s' => Nat.ltb (nat_of_ascii c) 128 && isascii s'
  end.

(** The characters of a git ref that [get_app_name] keeps: letters and
    digits, the hyphen, and the slash and the underscore (as hyphens). *)
Definition name_char (c : ascii) : bool :=
  isalnum c || Ascii.eqb c "-" || Ascii.eqb c "/" || Ascii.eqb c "_".

(** [IBMCloudConfig.__post_init__], which the dataclass runs on every
    construction. *)
Definition IBMCloudConfig_post_init (self : IBMCloudConfig) : IBMCloudConfig :=
  if negb (truthy (cos_endpoint self)) then
    {| region := region self;
       project_id := project_id self;
       cos_bucket := cos_bucket self;
       cos_endpoint :=
         Some ("s3." +:+ region self
               +:+ ".cloud-object-storage.appdomain.cloud");
       trusted_profile_id := trusted_profile_id self |}
  else self.

(** [VercelConfig.from_environment]. *)
Definition from_environment : M VercelConfig :=
  let* git_commit_sha := getenv_default "VERCEL_GIT_COMMIT_SHA" "unknown" in
  let* git_commit_ref := getenv_default "VERCEL_GIT_COMMIT_REF" "main" in
  let* deployment_id := getenv_default "VERCEL_DEPLOYMENT_ID" "local" in
  let* project_name := getenv_default "VERCEL_PROJECT_NAME" "app" in
  let* checks_token := getenv "VERCEL_CHECKS_TOKEN" in
  ret {| git_commit_sha := git_commit_sha;
         git_commit_ref := git_commit_ref;
         deployment_id := deployment_id;
         project_name := project_name;
         checks_token := checks_token |}.

(** [get_api_key_from_env]. *)
Definition get_api_key_from_env : M string :=
  let* api_key := getenv "IBM_CLOUD_API_KEY" in
  match api_key with
  | Some key =>
      if String.eqb key "" then
        raise ValueError
          "IBM_CLOUD_API_KEY environment variable is required. Set it in Vercel project settings or your local environment."
      else ret key
  | None =>
      raise ValueError
        "IBM_CLOUD_API_KEY environment variable is required. Set it in Vercel project settings or your local environment."
  end.

(** [validate_api_key]. *)
Definition validate_api_key (api_key : string) : bool :=
  if String.eqb api_key "" then false
  else if Nat.ltb (String.length api_key) 20 then false
  else true.

(** ** The default exclusion rules, by kind

    The rules of [DEFAULT_EXCLUDE_PATTERNS] without a metacharacter, and
    the endings of its rules [*.ext]. *)
Definition excluded_names : list string :=
  [ ".git"; ".gitmodules"; ".github"; ".cache"; ".mypy_cache";
    ".pytest_cache"; ".venv"; "venv"; ".env"; ".env.local";
    "node_modules"; ".next"; ".vercel"; "__pycache__";
    ".DS_Store"; "dist"; "build"; "coverage" ].

Definition excluded_suffixes : list string :=
  [ ".pyc"; ".pyo"; ".pyd"; ".log"; ".tmp"; ".swp" ].

(** [s.endswith(suffix)]. *)
Definition endswith (s suffix : string) : Prop :=
  ∃ stem, s = stem +:+ suffix.

(** Case analysis on the 256 characters. *)
Ltac each_ascii c :=
  destruct c as [[] [] [] [] [] [] [] []]; vm_compute; try reflexivity;
  try discriminate.

(** * Properties *)

(** ** Strings and paths *)

Lemma prefix_single (c : ascii) (s : string) :
  String.prefix (String c "") s = true ↔
  ∃ s', s = String c s'.
Proof.
  destruct s as [|d s']; simpl.
  - split; [discriminate | intros [? ?]; discriminate].
  - destruct (ascii_dec c d) as [->|Hne].
    + split; [eauto | intros _; by destruct s'].
    + split; [discriminate | intros [? [= ?]]; congruence].
Qed.

Lemma str_in_single (c : ascii) (s : string) :
  str_in (String c "") s = true ↔ c ∈ list_ascii_of_string s.
Proof.
  induction s as [|d s IH].
  - simpl. split; [discriminate | intros H; inversion H].
  - cbn [str_in list_ascii_of_string]. rewrite orb_true_iff, IH, prefix_single.
    rewrite elem_of_cons. split.
    + intros [[s' [= -> _]] | H]; auto.
    + intros [-> | H]; eauto.
Qed.

Lemma has_glob_false (rule : string) :
  has_glob rule = false ↔ glob_free rule.
Proof.
  unfold has_glob, glob_free, metachars. simpl.
  rewrite !orb_false_iff. split.
  - intros (H1 & H2 & H3 & H4 & _) c Hc Hin.
    apply str_in_single in Hin.
    rewrite !elem_of_cons in Hc.
    destruct Hc as [-> | [-> | [-> | [-> | Hc]]]];
      [congruence .. | inversion Hc].
  - intros H.
    repeat split; try done;
      apply not_true_is_false; rewrite str_in_single;
      apply H; set_solver.
Qed.

Lemma has_glob_true (rule : string) :
  has_glob rule = true ↔ ¬ glob_free rule.
Proof.
  rewrite <- has_glob_false. destruct (has_glob rule); naive_solver.
Qed.

Lemma strip_prefix_app (base rel : list string) :
  strip_prefix base (base ++ rel) = Some rel.
Proof.
  induction base as [|b base IH]; simpl; [done |].
  by rewrite String.eqb_refl.
Qed.

Lemma strip_prefix_Some (base l rel : list string) :
  strip_prefix base l = Some rel ↔ l = base ++ rel.
Proof.
  split; [| intros ->; apply strip_prefix_app].
  revert l. induction base as [|b base IH]; intros l; simpl.
  - by intros [= ->].
  - destruct l as [|x l]; [done |].
    destruct (String.eqb_spec b x) as [->|]; [| done].
    intros H. by rewrite (IH _ H).
Qed.

Lemma relative_to_joinpath (source_path : Path) (rel : list string) :
  relative_to (joinpath source_path rel) source_path
  = Some {| anchor := false; parts := rel |}.
Proof.
  unfold relative_to, joinpath; simpl.
  by rewrite eqb_reflx, strip_prefix_app.
Qed.

Lemma last_app_nonempty (l rel : list string) (d : string) :
  rel ≠ [] → List.last (l ++ rel) d = List.last rel d.
Proof.
  intros Hne. induction l as [|x l IH]; [done |].
  simpl. destruct (l ++ rel) eqn:E; [| done].
  apply app_eq_nil in E as [_ ?]. done.
Qed.

(** ** Exclusion rules *)

Lemma exclude_loop_true (rules : list string) (rel : list string) :
  exclude_loop rules (List.last rel "") (join "/" rel) rel = true ↔
  ∃ rule, rule ∈ rules ∧ rule_matches rule rel.
Proof.
  induction rules as [|r rules IH]; simpl.
  - split; [discriminate | intros (? & H & _); inversion H].
  - destruct (has_glob r) eqn:Hg; simpl.
    + apply has_glob_true in Hg.
      destruct (fnmatch (List.last rel "") r || fnmatch (join "/" rel) r)
        eqn:Hm.
      * split; [intros _ | done]. exists r. split; [left |].
        right. split; [done |]. by apply orb_true_iff.
      * rewrite IH. apply orb_false_iff in Hm as [Hm1 Hm2]. split.
        -- intros (r' & Hin & Hr'). exists r'. split; [by right | done].
        -- intros (r' & Hin & Hr'). apply elem_of_cons in Hin as [-> | Hin].
           ++ destruct Hr' as [[Hf _] | [_ [H | H]]]; [done | congruence ..].
           ++ eauto.
    + apply has_glob_false in Hg. case_bool_decide as Hin.
      * split; [intros _ | done]. exists r. split; [left | by left].
      * rewrite IH. split.
        -- intros (r' & Hin' & Hr'). exists r'. split; [by right | done].
        -- intros (r' & Hin' & Hr'). apply elem_of_cons in Hin' as [-> | Hin'].
           ++ destruct Hr' as [[_ H] | [Hf _]]; done.
           ++ eauto.
Qed.

Lemma should_exclude_walked (rules : list string) (source_path : Path)
    (rel : list string) :
  rel ≠ [] →
  should_exclude rules source_path (joinpath source_path rel)
  = Some (exclude_loop rules (List.last rel "") (join "/" rel) rel).
Proof.
  intros Hne. unfold should_exclude. rewrite relative_to_joinpath.
  unfold name, as_posix, str; simpl.
  rewrite last_app_nonempty by done.
  by destruct rel.
Qed.

Lemma exclude_loop_perm (rules rules' : list string) n s p :
  rules ≡ₚ rules' → exclude_loop rules n s p = exclude_loop rules' n s p.
Proof.
  induction 1 as [| r l l' _ IH | r1 r2 l | l l' l'' _ IH1 _ IH2]; simpl.
  - done.
  - by rewrite IH.
  - destruct (negb (has_glob r1)), (negb (has_glob r2));
      repeat case_bool_decide; repeat case_match; done.
  - congruence.
Qed.

(** C2. Exclusion test of the archive builder.  For a candidate file below
    the source root, with components [rel] relative to it: the test
    answers, and answers "excluded" exactly when some rule of the set
    matches, where a rule without glob metacharacter matches iff it equals
    one of the components (equality of whole components, so no substring
    match), and a rule with one matches iff [fnmatch] accepts the base name
    or the posix relative path.  The answer is the same for every
    reordering of the rules. *)
Theorem should_exclude_rule_semantics
    (rules : list string) (source_path : Path) (rel : list string) :
  rel ≠ [] →
  ∃ excluded,
    should_exclude rules source_path (joinpath source_path rel)
    = Some excluded
    ∧ (excluded = true ↔ ∃ rule, rule ∈ rules ∧ rule_matches rule rel)
    ∧ (∀ rule, glob_free rule →
         (rule_matches rule rel ↔ ∃ segment, segment ∈ rel ∧ segment = rule))
    ∧ (∀ rule, ¬ glob_free rule →
         (rule_matches rule rel ↔
          fnmatch (List.last rel "") rule = true
          ∨ fnmatch (join "/" rel) rule = true))
    ∧ (∀ rules', rules ≡ₚ rules' →
         should_exclude rules' source_path (joinpath source_path rel)
         = Some excluded).
Proof.
  intros Hne. eexists. split; [by apply should_exclude_walked |].
  split; [apply exclude_loop_true |].
  split; [| split].
  - intros rule Hf. unfold rule_matches. split.
    + intros [[_ H] | [H _]]; [eauto | done].
    + intros (? & H & ->). by left.
  - intros rule Hf. unfold rule_matches. split.
    + intros [[H _] | [_ H]]; done.
    + intros H. by right.
  - intros rules' Hp. rewrite should_exclude_walked by done.
    f_equal. symmetry. by apply exclude_loop_perm.
Qed.

Lemma should_exclude_rule_semantics_witness :
  ∃ excluded,
    should_exclude [".git"; "*.pyc"] (mkPath true ["srv"; "app"])
      (joinpath (mkPath true ["srv"; "app"]) ["pkg"; "mod.pyc"])
    = Some excluded
    ∧ (excluded = true ↔
       ∃ rule, rule ∈ [".git"; "*.pyc"]
               ∧ rule_matches rule ["pkg"; "mod.pyc"])
    ∧ (∀ rule, glob_free rule →
         (rule_matches rule ["pkg"; "mod.pyc"] ↔
          ∃ segment, segment ∈ ["pkg"; "mod.pyc"] ∧ segment = rule))
    ∧ (∀ rule, ¬ glob_free rule →
         (rule_matches rule ["pkg"; "mod.pyc"] ↔
          fnmatch (List.last ["pkg"; "mod.pyc"] "") rule = true
          ∨ fnmatch (join "/" ["pkg"; "mod.pyc"]) rule = true))
    ∧ (∀ rules', [".git"; "*.pyc"] ≡ₚ rules' →
         should_exclude rules' (mkPath true ["srv"; "app"])
           (joinpath (mkPath true ["srv"; "app"]) ["pkg"; "mod.pyc"])
         = Some excluded).
Proof.
  apply (should_exclude_rule_semantics [".git"; "*.pyc"]
           (mkPath true ["srv"; "app"]) ["pkg"; "mod.pyc"]).
  discriminate.
Defined.

(** ** Credential resolution *)



Lemma truthy_Some (o : option string) :
  truthy o = true → ∃ s, o = Some s ∧ s ≠ "".
Proof.
  destruct o as [s|]; [| discriminate]. simpl.
  destruct (String.eqb_spec s ""); [discriminate | eauto].
Qed.

(** With a token and a profile id the exchange makes one POST, whatever
    comes back, and touches nothing else of the world. *)
Lemma exchange_one_call (tok tp : option string) (w : World) :
  truthy tok = true → truthy tp = true →
  let w' := snd (create_iam_authenticator_oidc tok tp
                   "https://iam.cloud.ibm.com" w) in
  trace w' = trace w ++ [exchange_call tok tp]
  ∧ fs w' = fs w ∧ environ w' = environ w.
Proof.
  intros Htok Htp. run. rewrite Htok, Htp. simpl.
  fold (exchange_form tok tp).
  destruct (iam w _ _) as [msg | [[msg|] [[| b | z | s | l | fields]|]]];
    simpl; try done.
  destruct (json_truthy _); done.
Qed.

Lemma exchange_failure_raises (tok tp : option string) (w : World) :
  truthy tok = true → truthy tp = true →
  let reply :=
    iam w "https://iam.cloud.ibm.com/identity/token" (exchange_form tok tp) in
  exchange_failure reply →
  ∃ msg,
    fst (create_iam_authenticator_oidc tok tp "https://iam.cloud.ibm.com" w)
    = Raise (Exn (exchange_error_class reply) msg).
Proof.
  intros Htok Htp reply Hfail. unfold exchange_error_class.
  run. rewrite Htok, Htp. simpl.
  fold (exchange_form tok tp).
  change ("https://iam.cloud.ibm.com" +:+ "/identity/token")
    with "https://iam.cloud.ibm.com/identity/token".
  fold reply. clearbody reply.
  destruct Hfail as [msg | msg body | | v Hv | fields Hnone | fields v Hv Hf];
    simpl; eauto.
  - destruct v; simpl; eauto. by destruct (Hv fields).
  - rewrite Hnone. simpl. eauto.
  - rewrite Hv. simpl. rewrite Hf. simpl. eauto.
Qed.

Lemma exchange_ignores_environ (tok tp : option string) (ep : string)
    (e : gmap string string) (w : World) :
  fst (create_iam_authenticator_oidc tok tp ep (set_environ e w))
  = fst (create_iam_authenticator_oidc tok tp ep w).
Proof.
  run. destruct (truthy tok), (truthy tp); simpl; try done.
  destruct (iam w _ _) as [msg | [[msg|] [[| b | z | s | l | fields]|]]];
    simpl; try done.
  destruct (json_truthy _); done.
Qed.

Lemma get_authenticator_oidc_branch (tp api_key oidc_token : option string)
    (w : World) :
  truthy (resolved oidc_token "VERCEL_OIDC_TOKEN" w) = true →
  truthy tp = true →
  get_authenticator tp api_key oidc_token w
  = create_iam_authenticator_oidc
      (resolved oidc_token "VERCEL_OIDC_TOKEN" w) tp
      "https://iam.cloud.ibm.com" w.
Proof.
  intros Htok Htp. unfold get_authenticator, resolved in *.
  destruct oidc_token as [t|]; unfold bind, ret, getenv, gets; simpl;
    simpl in Htok; rewrite Htok, Htp; done.
Qed.

Lemma get_authenticator_fallback (tp api_key oidc_token : option string)
    (w : World) :
  truthy (resolved oidc_token "VERCEL_OIDC_TOKEN" w) && truthy tp = false →
  get_authenticator tp api_key oidc_token w
  = match resolved api_key "IBM_CLOUD_API_KEY" w with
    | Some k =>
        if String.eqb k "" then
          (Raise (Exn ValueError
             "No valid authentication method available. Either set VERCEL_OIDC_TOKEN with a Trusted Profile ID, or set IBM_CLOUD_API_KEY environment variable."), w)
        else new_IAMAuthenticator k w
    | None =>
        (Raise (Exn ValueError
           "No valid authentication method available. Either set VERCEL_OIDC_TOKEN with a Trusted Profile ID, or set IBM_CLOUD_API_KEY environment variable."), w)
    end.
Proof.
  intros Hno. unfold get_authenticator, resolved in *.
  destruct oidc_token as [t|]; unfold bind, ret, getenv, gets; simpl;
    simpl in Hno; rewrite Hno.
  all: destruct api_key as [k|]; simpl.
  all: try (destruct (String.eqb_spec k ""); simpl; [done |];
            run; by destruct (String.eqb_spec k "")).
  all: destruct (environ w !! "IBM_CLOUD_API_KEY") as [k|] eqn:E; simpl;
       [| done].
  all: destruct (String.eqb_spec k ""); simpl; [done |].
  all: run; rewrite ?E; simpl; by destruct (String.eqb_spec k "").
Qed.

(** C4. Priority of the credential resolver.  With [tok] the OIDC token
    (argument, else [VERCEL_OIDC_TOKEN]) and [key] the API key (argument,
    else [IBM_CLOUD_API_KEY]): when [tok] and the profile id are both
    present the resolver is the token exchange, makes its one POST, and its
    result does not depend on the API key given or set in the environment;
    otherwise, when [key] is present, it hands the key to the
    [IAMAuthenticator] constructor and leaves the world as it was (no
    network call): the result is the API-key credential, unless the key
    starts with a curly bracket or a double quote or ends with one, in
    which case the constructor raises [ValueError]; otherwise it raises
    [ValueError], the code's no-credential error. *)
Theorem get_authenticator_priority
    (tp api_key oidc_token : option string) (w : World) :
  let tok := resolved oidc_token "VERCEL_OIDC_TOKEN" w in
  let key := resolved api_key "IBM_CLOUD_API_KEY" w in
  (truthy tok = true ∧ truthy tp = true →
   get_authenticator tp api_key oidc_token w
   = create_iam_authenticator_oidc tok tp "https://iam.cloud.ibm.com" w
   ∧ trace (snd (get_authenticator tp api_key oidc_token w))
     = trace w ++ [exchange_call tok tp]
   ∧ ∀ api_key' e,
       e !! "VERCEL_OIDC_TOKEN" = environ w !! "VERCEL_OIDC_TOKEN" →
       fst (get_authenticator tp api_key' oidc_token (set_environ e w))
       = fst (get_authenticator tp api_key oidc_token w))
  ∧ (truthy tok && truthy tp = false → truthy key = true →
     ∃ k, key = Some k
          ∧ (has_bad_first_or_last_char k = false →
             get_authenticator tp api_key oidc_token w
             = (Ok (IAMAuthenticator k), w))
          ∧ (has_bad_first_or_last_char k = true →
             ∃ msg, get_authenticator tp api_key oidc_token w
                    = (Raise (Exn ValueError msg), w)))
  ∧ (truthy tok && truthy tp = false → truthy key = false →
     ∃ msg, get_authenticator tp api_key oidc_token w
            = (Raise (Exn ValueError msg), w)).
Proof.
  intros tok key. split; [| split].
  - intros [Htok Htp]. split; [| split].
    + by apply get_authenticator_oidc_branch.
    + rewrite get_authenticator_oidc_branch by done.
      by apply exchange_one_call.
    + intros api_key' e He.
      assert (resolved oidc_token "VERCEL_OIDC_TOKEN" (set_environ e w) = tok)
        as Hsame.
      { unfold tok, resolved. destruct oidc_token; simpl; done. }
      rewrite !get_authenticator_oidc_branch; try done.
      * rewrite Hsame. apply exchange_ignores_environ.
      * by rewrite Hsame.
  - intros Hno Hkey. rewrite get_authenticator_fallback by done.
    fold key. apply truthy_Some in Hkey as (k & -> & Hk).
    exists k. split; [done |].
    destruct (String.eqb_spec k ""); [done |].
    unfold new_IAMAuthenticator, raise, ret.
    split; intros ->; eauto.
  - intros Hno Hkey. rewrite get_authenticator_fallback by done.
    fold key. destruct key as [k|]; simpl in Hkey.
    + destruct (String.eqb k ""); [eauto | done].
    + eauto.
Qed.

Lemma get_authenticator_priority_witness :
  (∃ a, fst (get_authenticator (Some "Profile-1") (Some "key") (Some "jwt")
               (sample_world [] token_granted None))
        = Ok (BearerTokenAuthenticator a))
  ∧ get_authenticator None None None
      (sample_world [("IBM_CLOUD_API_KEY", "key")] token_granted None)
    = (Ok (IAMAuthenticator "key"),
       sample_world [("IBM_CLOUD_API_KEY", "key")] token_granted None)
  ∧ (∃ msg, get_authenticator None None None
              (sample_world [] token_granted None)
            = (Raise (Exn ValueError msg),
               sample_world [] token_granted None)).
Proof.
  split; [| split].
  - destruct (get_authenticator_priority (Some "Profile-1") (Some "key")
                (Some "jwt") (sample_world [] token_granted None))
      as [H _].
    destruct H as (-> & _); [by split |].
    by eexists.
  - destruct (get_authenticator_priority None None None
                (sample_world [("IBM_CLOUD_API_KEY", "key")] token_granted
                   None))
      as (_ & H & _).
    destruct H as (k & Hk & Hgood & _); [done | done |].
    injection Hk as <-. apply Hgood. reflexivity.
  - destruct (get_authenticator_priority None None None
                (sample_world [] token_granted None))
      as (_ & _ & H).
    destruct H as (msg & ->); [done | done |]. by exists msg.
Defined.

(** An available API key is not always turned into a credential: the
    key [{abc}] is refused by the [IAMAuthenticator] constructor. *)
Lemma api_key_not_always_accepted : ¬ api_key_always_accepted.
Proof.
  intros Hall.
  destruct (Hall None (Some "{abc}") None
              (sample_world [] token_granted None) eq_refl eq_refl)
    as (a & w' & Hrun).
  vm_compute in Hrun. discriminate Hrun.
Qed.

(** C5. A failed exchange is fatal, but not always an exchange error.
    When the token and the profile id are both present and the exchange
    fails, the resolver raises after exactly one POST, whatever API key is
    given or set: there is no fall-back.  The exception is
    [RuntimeError], the code's exchange error, when the transport raises,
    the response carries an HTTP error, its body is not JSON, or its JSON
    object has no truthy [access_token]; it is [AttributeError] when the
    body is JSON but not an object (an array, a string, a number,
    [null]), because [token_data.get] is called on it and no [except]
    clause takes that error. *)
Theorem oidc_failure_is_fatal
    (tp api_key oidc_token : option string) (w : World) :
  let tok := resolved oidc_token "VERCEL_OIDC_TOKEN" w in
  let reply :=
    iam w "https://iam.cloud.ibm.com/identity/token" (exchange_form tok tp) in
  truthy tok = true → truthy tp = true →
  exchange_failure reply →
  ∃ msg w',
    get_authenticator tp api_key oidc_token w
    = (Raise (Exn (exchange_error_class reply) msg), w')
    ∧ trace w' = trace w ++ [exchange_call tok tp]
    ∧ (body_is_not_object reply = false →
       exchange_error_class reply = RuntimeError)
    ∧ (body_is_not_object reply = true →
       exchange_error_class reply = AttributeError).
Proof.
  intros tok reply Htok Htp Hfail.
  rewrite get_authenticator_oidc_branch by done. fold tok.
  destruct (exchange_failure_raises tok tp w Htok Htp Hfail) as [msg Hmsg].
  destruct (exchange_one_call tok tp w Htok Htp) as (Htrace & _).
  fold reply in Hmsg.
  destruct (create_iam_authenticator_oidc tok tp _ w) as [r w'] eqn:E.
  cbn [fst snd] in *. subst r. exists msg, w'.
  split; [reflexivity |]. split; [exact Htrace |].
  unfold exchange_error_class. split; intros ->; reflexivity.
Qed.

Lemma oidc_failure_is_fatal_witness :
  ∃ msg w',
    get_authenticator (Some "Profile-1") (Some "key") (Some "jwt")
      (sample_world [("IBM_CLOUD_API_KEY", "key")]
         (PostReturns {| http_error := None;
                         json_body := Some (JArr []) |}) None)
    = (Raise (Exn AttributeError msg), w')
    ∧ trace w' = [exchange_call (Some "jwt") (Some "Profile-1")].
Proof.
  destruct (oidc_failure_is_fatal (Some "Profile-1") (Some "key")
              (Some "jwt")
              (sample_world [("IBM_CLOUD_API_KEY", "key")]
                 (PostReturns {| http_error := None;
                                 json_body := Some (JArr []) |}) None)
              eq_refl eq_refl)
    as (msg & w' & Hrun & Htrace & _).
  - apply body_not_object. discriminate.
  - exists msg, w'. split; [exact Hrun | exact Htrace].
Defined.

(** ** The uploader factory *)

(** C1. What the factory does with each variant of credential.  From an
    API-key credential it asks the library for a client with the key,
    the service instance id and the endpoint URL, and builds the uploader
    handle around it (or lets the library's refusal through, the world
    unchanged); on a bearer-token credential, the variant the OIDC
    exchange produces, it raises [AttributeError] before it gets to the
    library, because [COSUploader.__init__] reads
    [authenticator.token_manager.apikey]. *)
Theorem create_cos_uploader_by_variant
    (a : Authenticator) (region bucket : string) (endpoint : option string)
    (w : World) :
  match a with
  | IAMAuthenticator k =>
      match client_error w (factory_client k region endpoint w) with
      | None =>
          ∃ u, create_cos_uploader a region bucket endpoint w = (Ok u, w)
               ∧ ibm_api_key_id (client u) = k ∧ bucket_name u = bucket
      | Some e =>
          create_cos_uploader a region bucket endpoint w = (Raise e, w)
      end
  | BearerTokenAuthenticator _ =>
      ∃ msg, create_cos_uploader a region bucket endpoint w
             = (Raise (Exn AttributeError msg), w)
  end.
Proof.
  destruct a as [k | t].
  - unfold create_cos_uploader, COSUploader_init, boto3_client,
      token_manager_apikey, getenv_default, factory_client, bind, gets, ret,
      reraise.
    cbn [default from_option id].
    destruct endpoint as [ep|]; cbn [default from_option id];
      destruct (client_error w _); eauto.
  - unfold create_cos_uploader, COSUploader_init; run; eauto.
Qed.

(** The whole pipeline with OIDC configured and a granted token: the
    credential is obtained, the factory fails on it, nothing is archived
    or uploaded and [main] exits with 1. *)
Example main_with_oidc_credential :
  fst (get_authenticator (Some "Profile-1") None None
         (sample_world [("VERCEL_OIDC_TOKEN", "jwt")] token_granted None))
  = Ok (BearerTokenAuthenticator (JStr "tok"))
  ∧ fst (main (ret (sample_config (Some "Profile-1") true))
           (sample_world [("VERCEL_OIDC_TOKEN", "jwt")] token_granted None))
    = 1%Z
  ∧ trace (snd (main (ret (sample_config (Some "Profile-1") true))
                  (sample_world [("VERCEL_OIDC_TOKEN", "jwt")] token_granted
                     None)))
    = [exchange_call (Some "jwt") (Some "Profile-1")]
  ∧ fs (snd (main (ret (sample_config (Some "Profile-1") true))
               (sample_world [("VERCEL_OIDC_TOKEN", "jwt")] token_granted
                  None)))
    = sample_fs.
Proof. repeat split; vm_compute; reflexivity. Qed.

(** ** Timestamps and object keys *)

Lemma append_cons (c : ascii) (s t : string) :
  String c s +:+ t = String c (s +:+ t).
Proof. reflexivity. Qed.

Lemma append_empty (t : string) : "" +:+ t = t.
Proof. reflexivity. Qed.

Lemma length_append (s t : string) :
  String.length (s +:+ t) = String.length s + String.length t.
Proof. induction s as [|c s IH]; simpl; [done | by rewrite IH]. Qed.

(** Two concatenations whose right parts have the same length agree part
    by part. *)
Lemma append_inj_suffix (s1 s2 t1 t2 : string) :
  String.length t1 = String.length t2 →
  s1 +:+ t1 = s2 +:+ t2 → s1 = s2 ∧ t1 = t2.
Proof.
  intros Hlen. revert s2.
  induction s1 as [|c s1 IH]; intros [|d s2] Heq; simpl in Heq.
  - done.
  - apply (f_equal String.length) in Heq.
    rewrite !length_append in Heq. simpl in Heq. lia.
  - apply (f_equal String.length) in Heq.
    rewrite !length_append in Heq. simpl in Heq. lia.
  - injection Heq as -> Heq. destruct (IH _ Heq) as [-> ->]. done.
Qed.

Lemma digit_inj (a b : nat) : digit a = digit b → a mod 10 = b mod 10.
Proof.
  unfold digit. intros H.
  apply (f_equal nat_of_ascii) in H.
  pose proof (Nat.mod_upper_bound a 10).
  pose proof (Nat.mod_upper_bound b 10).
  rewrite !nat_ascii_embedding in H by lia. lia.
Qed.

Lemma pad2_append_inj (a b : nat) (s t : string) :
  a < 100 → b < 100 → pad2 a +:+ s = pad2 b +:+ t → a = b ∧ s = t.
Proof.
  intros Ha Hb H. unfold pad2 in H. rewrite !append_cons, !append_empty in H.
  assert (digit (a / 10) = digit (b / 10)) as H1 by congruence.
  assert (digit a = digit b) as H2 by congruence.
  split; [| congruence].
  apply digit_inj in H1, H2.
  pose proof (Nat.div_mod_eq a 10). pose proof (Nat.div_mod_eq b 10).
  assert (a / 10 < 10) by (apply Nat.Div0.div_lt_upper_bound; lia).
  assert (b / 10 < 10) by (apply Nat.Div0.div_lt_upper_bound; lia).
  pose proof (Nat.mod_small (a / 10) 10).
  pose proof (Nat.mod_small (b / 10) 10).
  lia.
Qed.

Lemma four_digits (n : nat) :
  n < 100 * 100 →
  n = 1000 * ((n / 1000) mod 10) + 100 * ((n / 100) mod 10)
      + 10 * ((n / 10) mod 10) + n mod 10.
Proof.
  intros Hn.
  pose proof (Nat.div_mod_eq n 10) as E1.
  pose proof (Nat.div_mod_eq (n / 10) 10) as E2.
  pose proof (Nat.div_mod_eq (n / 100) 10) as E3.
  assert (n / 10 / 10 = n / 100) as D2 by apply Nat.Div0.div_div.
  assert (n / 100 / 10 = n / 1000) as D3 by apply Nat.Div0.div_div.
  assert (n / 1000 < 10) by (apply Nat.Div0.div_lt_upper_bound; lia).
  pose proof (Nat.mod_small (n / 1000) 10).
  lia.
Qed.

Lemma pad4_append_inj (a b : nat) (s t : string) :
  a < 100 * 100 → b < 100 * 100 →
  pad4 a +:+ s = pad4 b +:+ t → a = b ∧ s = t.
Proof.
  intros Ha Hb H. unfold pad4 in H. rewrite !append_cons, !append_empty in H.
  assert (digit (a / 1000) = digit (b / 1000)) as H1 by congruence.
  assert (digit (a / 100) = digit (b / 100)) as H2 by congruence.
  assert (digit (a / 10) = digit (b / 10)) as H3 by congruence.
  assert (digit a = digit b) as H4 by congruence.
  split; [| congruence].
  apply digit_inj in H1, H2, H3, H4.
  rewrite (four_digits a Ha), (four_digits b Hb). congruence.
Qed.

Lemma strftime_stamp (dt : datetime) :
  strftime "%Y%m%d_%H%M%S" dt
  = pad4 (year dt) +:+ pad2 (month dt) +:+ pad2 (day dt) +:+ "_"
    +:+ pad2 (hour dt) +:+ pad2 (minute dt) +:+ pad2 (second dt) +:+ "".
Proof. reflexivity. Qed.

Lemma strftime_stamp_length (dt : datetime) :
  String.length (strftime "%Y%m%d_%H%M%S" dt) = 15.
Proof. reflexivity. Qed.

(** The second-resolution stamp determines the six fields. *)
Lemma strftime_stamp_inj (t1 t2 : datetime) :
  valid_datetime t1 → valid_datetime t2 →
  strftime "%Y%m%d_%H%M%S" t1 = strftime "%Y%m%d_%H%M%S" t2 → t1 = t2.
Proof.
  intros V1 V2 H. rewrite !strftime_stamp in H.
  destruct t1 as [y1 m1 d1 h1 mi1 s1], t2 as [y2 m2 d2 h2 mi2 s2].
  unfold valid_datetime in *. cbn [year month day hour minute second] in *.
  destruct V1 as ([_ Hy1] & V1), V2 as ([_ Hy2] & V2).
  apply Nat.lt_succ_r in Hy1, Hy2.
  apply pad4_append_inj in H as [-> H]; [| exact Hy1 | exact Hy2].
  apply pad2_append_inj in H as [-> H]; [| lia ..].
  apply pad2_append_inj in H as [-> H]; [| lia ..].
  apply String.app_inj in H.
  apply pad2_append_inj in H as [-> H]; [| lia ..].
  apply pad2_append_inj in H as [-> H]; [| lia ..].
  apply pad2_append_inj in H as [-> H]; [| lia ..].
  done.
Qed.

(** A key determines the deployment id and the stamp it was built from. *)
Lemma object_key_inj (d1 d2 : string) (t1 t2 : datetime) :
  object_key d1 t1 = object_key d2 t2 →
  d1 = d2 ∧ strftime "%Y%m%d_%H%M%S" t1 = strftime "%Y%m%d_%H%M%S" t2.
Proof.
  unfold object_key. intros H. apply String.app_inj in H.
  apply append_inj_suffix in H as [-> H].
  - split; [done |]. apply String.app_inj in H.
    by apply append_inj_suffix in H as [-> _].
  - rewrite !length_append, !strftime_stamp_length. reflexivity.
Qed.

(** ** The uploader *)

(** [upload_file], case by case. *)
Lemma upload_file_cases (self : COSUploader) (file_path : string)
    (object_name : option string) (w : World) :
  let p := Path_of_str file_path in
  let key := default (name p) object_name in
  upload_file self file_path object_name w
  = match stat (fs w) (cwd w) p with
    | None =>
        (Raise (Exn FileNotFoundError ("File not found: " +:+ file_path)), w)
    | Some (File data) =>
        match cos_put w (bucket_name self) key with
        | Some msg =>
            (Raise (Exn RuntimeError
                      ("Failed to upload file to COS: " +:+ msg)),
             log_event (EvUpload (bucket_name self) key) w)
        | None =>
            (Ok (locator (bucket_name self) key),
             set_bucket_objects
               (<[(bucket_name self, key) := data]> (bucket_objects w))
               (log_event (EvUpload (bucket_name self) key) w))
        end
    | Some Dir =>
        (Raise (Exn RuntimeError
                  ("Failed to upload file to COS: "
                   +:+ os_error_text "[Errno 21] Is a directory" p)), w)
    end.
Proof.
  intros p key. unfold upload_file, path_exists, open_rb, upload_fileobj.
  fold p. unfold bind, gets, modify, try_except, raise, ret, stat.
  replace (match object_name with Some s => s | None => name p end)
    with key by (unfold key; by destruct object_name).
  destruct (locate (fs w) (cwd w) p) as [k | |] eqn:Hwalk;
    [| reflexivity ..].
  destruct (node_at (fs w) k) as [[data |]|] eqn:Hnode; cbn [negb];
    [| | reflexivity].
  - rewrite Hwalk, Hnode. cbn [cos_put log_event bucket_objects].
    destruct (cos_put w (bucket_name self) key); reflexivity.
  - rewrite Hwalk, Hnode. reflexivity.
Qed.

(** ** The archive builder *)

Lemma not_in_removelast (x : string) (l : list string) :
  x ∉ l → x ∉ removelast l.
Proof.
  induction l as [|y l IH]; [done |]. intros Hx.
  apply not_elem_of_cons in Hx as [Hne Hx]. simpl.
  destruct l; [set_solver |]. apply not_elem_of_cons. auto.
Qed.

Lemma fold_step_no_dotdot (l acc : list string) :
  ".." ∉ acc → ".." ∉ fold_left step_component l acc.
Proof.
  revert acc. induction l as [|x l IH]; intros acc Hacc; simpl; [done |].
  apply IH. unfold step_component.
  destruct (String.eqb_spec x "..") as [->|Hne].
  - by apply not_in_removelast.
  - rewrite elem_of_app, list_elem_of_singleton.
    intros [H | H]; [done | congruence].
Qed.

Lemma fold_step_normal (l acc : list string) :
  ".." ∉ l → fold_left step_component l acc = acc ++ l.
Proof.
  revert acc. induction l as [|x l IH]; intros acc Hl; simpl.
  - by rewrite app_nil_r.
  - apply not_elem_of_cons in Hl as [Hne Hl].
    unfold step_component at 2.
    destruct (String.eqb_spec x ".."); [done |].
    rewrite IH by done. by rewrite <- app_assoc.
Qed.

(** Resolving a resolved path changes nothing. *)
Lemma abs_parts_resolved (cwd0 cwd1 : list string) (p : Path) :
  abs_parts cwd1 {| anchor := true; parts := abs_parts cwd0 p |}
  = abs_parts cwd0 p.
Proof.
  unfold abs_parts at 1. simpl.
  rewrite fold_step_normal; [done |].
  unfold abs_parts. by apply fold_step_no_dotdot, not_elem_of_nil.
Qed.

(** *** Walks *)

Lemma path_walk_reach (f : gmap (list string) Node) (pre rel : list string) :
  reach f pre rel = true → path_walk f pre rel = Reached (pre ++ rel).
Proof.
  revert pre. induction rel as [|x rel IH]; intros pre Hreach.
  - by rewrite app_nil_r.
  - cbn [reach] in Hreach.
    apply andb_true_iff in Hreach as [Hreach Hrest].
    apply andb_true_iff in Hreach as [Hdir Hx].
    cbn [path_walk]. unfold is_dir_at in Hdir.
    destruct (node_at f pre) as [[|]|]; try discriminate.
    unfold step_component.
    destruct (String.eqb x ".."); [discriminate |].
    rewrite IH by done. by rewrite <- app_assoc.
Qed.

(** Along names without [..], a walk that gets through ends where the
    names say. *)
Lemma path_walk_plain (f : gmap (list string) Node) (cur names k : list string) :
  ".." ∉ names → path_walk f cur names = Reached k → k = cur ++ names.
Proof.
  revert cur. induction names as [|x names IH]; intros cur Hplain Hwalk.
  - cbn in Hwalk. injection Hwalk as <-. by rewrite app_nil_r.
  - apply not_elem_of_cons in Hplain as [Hx Hplain].
    cbn [path_walk] in Hwalk.
    destruct (node_at f cur) as [[|]|]; try discriminate.
    unfold step_component in Hwalk.
    destruct (String.eqb_spec x ".."); [done |].
    apply IH in Hwalk; [| done]. by rewrite Hwalk, <- app_assoc.
Qed.

Lemma stat_abs_reach (f : gmap (list string) Node) (key : list string) :
  reach f [] key = true → stat_abs f key = node_at f key.
Proof.
  intros Hreach. unfold stat_abs, stat, locate. cbn [anchor parts].
  by rewrite (path_walk_reach f [] key Hreach).
Qed.


Lemma abs_parts_plain (cwd0 : list string) (p : Path) :
  ".." ∉ abs_parts cwd0 p.
Proof. unfold abs_parts. by apply fold_step_no_dotdot, not_elem_of_nil. Qed.


(** *** The archive builder, step by step *)

(** The existence check comes first: on a missing source nothing else
    happens. *)
Lemma create_source_archive_missing
    (self : COSUploader) (source_dir : string) (output_path : option string)
    (exclude_patterns : option (list string)) (w : World) :
  stat_abs (fs w) (abs_parts (cwd w) (Path_of_str source_dir)) = None →
  create_source_archive self source_dir output_path exclude_patterns w
  = (Raise (Exn FileNotFoundError
              ("Source directory not found: " +:+ source_dir)), w).
Proof.
  intros Hmissing. unfold create_source_archive, resolve, path_exists.
  unfold bind, gets, raise. unfold stat_abs in Hmissing.
  assert (∀ c, stat (fs w) c
                 {| anchor := true;
                    parts := abs_parts (cwd w) (Path_of_str source_dir) |}
               = None) as Hstat by (intros c; exact Hmissing).
  rewrite Hstat. reflexivity.
Qed.




(** Opening the archive: an error with nothing changed, or the file
    created, or truncated, at the entry the path leads to. *)
Lemma zip_open_w_cases (p : Path) (w : World) :
  (∃ e, zip_open_w p w = (Raise e, w))
  ∨ (∃ key, zip_open_w p w
            = (Ok key, set_fs (<[key := File (Zip [])]> (fs w)) w)
            ∧ locate (fs w) (cwd w) p = Reached key
            ∧ node_at (fs w) key ≠ Some Dir).
Proof.
  unfold zip_open_w.
  destruct (locate (fs w) (cwd w) p) as [key| |]; [| eauto ..].
  destruct (node_at (fs w) key) as [[data|]|] eqn:Hnode; [| eauto |].
  - right. exists key. rewrite Hnode. done.
  - destruct (String.eqb _ ".."); [eauto |].
    right. exists key. rewrite Hnode. done.
Qed.

(** [create_source_archive] on an existing source, step by step. *)
Lemma create_source_archive_cases
    (self : COSUploader) (source_dir : string) (output_path : option string)
    (exclude_patterns : option (list string)) (w : World) :
  let source_path :=
    {| anchor := true; parts := abs_parts (cwd w) (Path_of_str source_dir) |} in
  let rules := default DEFAULT_EXCLUDE_PATTERNS exclude_patterns in
  let output_file := Path_of_str (chosen_output output_path w) in
  let w1 := match output_path with
            | None => set_ticks (S (ticks w)) w
            | Some _ => w
            end in
  stat_abs (fs w) (parts source_path) ≠ None →
  create_source_archive self source_dir output_path exclude_patterns w
  = match mkdir_parents (fs w) (cwd w) (anchor (parent output_file))
            (reverse (parts (parent output_file))) with
    | (Raise e, f1) => (Raise e, set_fs f1 w1)
    | (Ok _, f1) =>
        match zip_open_w output_file (set_fs f1 w1) with
        | (Raise e, w2) => (Raise e, w2)
        | (Ok out_key, w2) =>
            let written :=
              write_entries (fs w2) (zip_error w) rules source_path
                (rglob (fs w2) source_path) in
            let w3 :=
              set_fs (<[out_key := File (Zip (fst written))]> (fs w2)) w2 in
            match snd written with
            | Some e => (Raise e, w3)
            | None => (Ok (str output_file), w3)
            end
        end
    end.
Proof.
  intros source_path rules output_file w1 Hexists.
  unfold create_source_archive.
  unfold bind at 1. unfold resolve, gets.
  unfold bind at 1. unfold path_exists, gets.
  cbn [parts] in Hexists. unfold stat_abs in Hexists.
  assert (stat (fs w) (cwd w)
            {| anchor := true;
               parts := abs_parts (cwd w) (Path_of_str source_dir) |}
          = stat (fs w) []
              {| anchor := true;
                 parts := abs_parts (cwd w) (Path_of_str source_dir) |})
    as -> by reflexivity.
  destruct (stat (fs w) [] _) eqn:E; [| done].
  cbn [negb]. fold source_path.
  assert (match exclude_patterns with
          | Some l => l
          | None => DEFAULT_EXCLUDE_PATTERNS
          end = rules) as -> by (unfold rules; by destruct exclude_patterns).
  assert (∀ (o : string) (w0 : World),
            w0 = match output_path with
                 | None => set_ticks (S (ticks w)) w
                 | Some _ => w
                 end →
            (mkdir_parents_exist_ok (parent (Path_of_str o)) ;;;
             let* zipf := zip_open_w (Path_of_str o) in
             let* f := λ w2 : World, (Ok (fs w2), w2) in
             let* reject := λ w2 : World, (Ok (zip_error w2), w2) in
             let '(entries, err) :=
               write_entries f reject rules source_path (rglob f source_path) in
             zip_close zipf entries ;;;
             match err with
             | Some e => reraise e
             | None => ret (str (Path_of_str o))
             end) w0
            = match mkdir_parents (fs w) (cwd w) (anchor (parent (Path_of_str o)))
                      (reverse (parts (parent (Path_of_str o)))) with
              | (Raise e, f1) => (Raise e, set_fs f1 w0)
              | (Ok _, f1) =>
                  match zip_open_w (Path_of_str o) (set_fs f1 w0) with
                  | (Raise e, w2) => (Raise e, w2)
                  | (Ok out_key, w2) =>
                      let written :=
                        write_entries (fs w2) (zip_error w) rules source_path
                          (rglob (fs w2) source_path) in
                      let w3 :=
                        set_fs (<[out_key := File (Zip (fst written))]> (fs w2))
                          w2 in
                      match snd written with
                      | Some e => (Raise e, w3)
                      | None => (Ok (str (Path_of_str o)), w3)
                      end
                  end
              end) as Hrest.
  { intros o w0 Hw0.
    assert (fs w0 = fs w ∧ cwd w0 = cwd w ∧ zip_error w0 = zip_error w)
      as (Hfs & Hcwd & Hzip) by (subst w0; by destruct output_path).
    unfold bind at 1. unfold mkdir_parents_exist_ok. rewrite Hfs, Hcwd.
    destruct (mkdir_parents (fs w) (cwd w) _ _) as [[[]|e] f1];
      [| reflexivity].
    unfold bind at 1.
    destruct (zip_open_w_cases (Path_of_str o) (set_fs f1 w0))
      as [[e He] | (key & Hopen & _)]; rewrite ?He, ?Hopen; [reflexivity |].
    unfold bind at 1. unfold bind at 1.
    cbn [fs set_fs zip_error]. rewrite Hzip.
    cbv zeta.
    destruct (write_entries _ _ _ _ _) as [es [e|]];
      unfold bind, zip_close, modify, reraise, ret; cbn [fs set_fs fst snd];
      reflexivity. }
  unfold output_file, w1, chosen_output.
  destruct output_path as [s|].
  - unfold bind at 1. unfold ret at 1. by apply Hrest.
  - unfold bind at 1. unfold bind at 1. unfold utcnow, ret at 1.
    by apply Hrest.
Qed.

(** *** The walk and the entries written *)

Lemma elem_of_rglob (f : gmap (list string) Node) (source_path item : Path) :
  item ∈ rglob f source_path ↔
  ∃ rel, item = joinpath source_path rel
         ∧ is_Some (f !! (parts source_path ++ rel))
         ∧ under f (parts source_path) rel.
Proof.
  unfold rglob, under. rewrite list_elem_of_omap. split.
  - intros ([key node] & Hin & Hitem).
    apply elem_of_map_to_list in Hin. unfold walk_item in Hitem.
    cbn [fst] in Hitem.
    destruct (strip_prefix _ key) as [[|x rel]|] eqn:Hs; try done.
    destruct (reach f [] key) eqn:Hd; [| done].
    injection Hitem as <-. apply strip_prefix_Some in Hs as ->.
    exists (x :: rel). split; [done |]. split; [eauto |]. done.
  - intros (rel & -> & [node Hnode] & Hne & Hreach).
    exists (parts source_path ++ rel, node). split.
    + by apply elem_of_map_to_list.
    + unfold walk_item. cbn [fst]. rewrite strip_prefix_app, Hreach.
      by destruct rel.
Qed.

Lemma rglob_walked (f : gmap (list string) Node) (source_path item : Path) :
  item ∈ rglob f source_path →
  ∃ rel, rel ≠ [] ∧ item = joinpath source_path rel.
Proof.
  intros (rel & -> & _ & Hne & _)%elem_of_rglob. eauto.
Qed.

(** The loop writes the entries of the items in order, up to the first
    one that raises. *)
Lemma write_entries_prefix (f : gmap (list string) Node)
    (reject : list string → option exn) (rules : list string)
    (source_path : Path) (items : list Path) :
  fst (write_entries f reject rules source_path items)
    `prefix_of` omap (entry_of f rules source_path) items.
Proof.
  induction items as [|item items IH]; [done |].
  cbn [write_entries omap list_omap]. unfold entry_of at 1.
  destruct (stat_abs f (parts item)) as [[data|]|]; try done.
  destruct (should_exclude rules source_path item) as [[|]|];
    [done | | apply prefix_nil].
  destruct (relative_to item source_path) as [arcname|]; [| apply prefix_nil].
  destruct (reject (parts item)); [apply prefix_nil |].
  destruct (write_entries f reject rules source_path items) as [written err].
  cbn [fst] in *. by apply prefix_cons.
Qed.



(** What the archive holds after a complete walk over [f]: the regular
    files the walk reaches that no rule matches, each under its relative
    path. *)
Lemma elem_of_archive (f : gmap (list string) Node) (rules : list string)
    (source_path arcname : Path) (data : Data) :
  (arcname, data)
    ∈ omap (entry_of f rules source_path) (rglob f source_path) ↔
  ∃ rel, arcname = {| anchor := false; parts := rel |}
         ∧ under f (parts source_path) rel
         ∧ f !! (parts source_path ++ rel) = Some (File data)
         ∧ ¬ ∃ rule, rule ∈ rules ∧ rule_matches rule rel.
Proof.
  assert (∀ rel, rel ≠ [] →
            node_at f (parts source_path ++ rel)
            = f !! (parts source_path ++ rel)) as Hnode_at.
  { intros rel Hne. unfold node_at.
    destruct (parts source_path ++ rel) eqn:E; [| done].
    by apply app_eq_nil in E as [_ ?]. }
  rewrite list_elem_of_omap. split.
  - intros (item & Hitem & Hentry).
    apply elem_of_rglob in Hitem as (rel & -> & _ & Hunder).
    pose proof Hunder as [Hne Hreach].
    unfold entry_of in Hentry. cbn [joinpath parts] in Hentry.
    rewrite stat_abs_reach, Hnode_at in Hentry by done.
    destruct (f !! _) as [[data'|]|] eqn:Hnode; try done.
    rewrite should_exclude_walked, relative_to_joinpath in Hentry by done.
    destruct (exclude_loop _ _ _ _) eqn:Hloop; [done |].
    injection Hentry as <- <-. exists rel.
    split; [done |]. split; [done |]. split; [done |].
    rewrite <- exclude_loop_true. congruence.
  - intros (rel & -> & Hunder & Hfile & Hnone).
    pose proof Hunder as [Hne Hreach].
    exists (joinpath source_path rel). split.
    + apply elem_of_rglob. exists rel. eauto.
    + unfold entry_of. cbn [joinpath parts].
      rewrite stat_abs_reach, Hnode_at, Hfile by done.
      rewrite should_exclude_walked, relative_to_joinpath by done.
      destruct (exclude_loop _ _ _ _) eqn:Hloop; [| done].
      by apply exclude_loop_true in Hloop.
Qed.

(** *** Writing the archive leaves the source tree as it was *)

Lemma node_at_agree (f f' : gmap (list string) Node) (key : list string) :
  f' !! key = f !! key → node_at f' key = node_at f key.
Proof. intros H. unfold node_at. by destruct key. Qed.

Lemma node_at_None (f : gmap (list string) Node) (key : list string) :
  node_at f key = None → f !! key = None.
Proof. unfold node_at. by destruct key. Qed.

(** [os.mkdir] adds one directory, at the entry the path leads to, where
    nothing was. *)
Lemma os_mkdir_Made (f f' : gmap (list string) Node) (cwd0 : list string)
    (p : Path) :
  os_mkdir f cwd0 p = Made f' →
  ∃ key, locate f cwd0 p = Reached key ∧ f !! key = None
         ∧ f' = <[key := Dir]> f.
Proof.
  unfold os_mkdir.
  destruct (locate f cwd0 p) as [key| |]; try discriminate.
  destruct (node_at f key) eqn:Hnode; [discriminate |].
  destruct (String.eqb _ ".."); [discriminate |].
  intros [= <-]. exists key. by apply node_at_None in Hnode.
Qed.

(** What [mkdir(parents=True, exist_ok=True)] changes, whether it
    succeeds or not: it adds directories where nothing was, and, when the
    path has no [..], only along the path. *)
Lemma mkdir_parents_changes (f f1 : gmap (list string) Node)
    (cwd0 : list string) (anchored : bool) (rnames : list string)
    (r : result unit) :
  mkdir_parents f cwd0 anchored rnames = (r, f1) →
  ".." ∉ rnames →
  ∀ k, f1 !! k = f !! k
       ∨ (f !! k = None ∧ f1 !! k = Some Dir
          ∧ k `prefix_of` ((if anchored then [] else cwd0) ++ reverse rnames)).
Proof.
  revert r f1. induction rnames as [|x rparent IH]; intros r f1 Hrun Hplain k.
  - cbn [mkdir_parents] in Hrun.
    destruct (os_mkdir f cwd0 _) as [f'| | |] eqn:Hmk.
    + injection Hrun as <- <-.
      apply os_mkdir_Made in Hmk as (key & Hloc & Hnone & ->).
      unfold locate in Hloc. cbn [anchor parts path_walk] in Hloc.
      change (reverse []) with (@nil string) in Hloc. cbn [path_walk] in Hloc.
      injection Hloc as <-.
      destruct (decide (k = if anchored then [] else cwd0)) as [-> | Hne].
      * right. rewrite lookup_insert_eq. change (reverse []) with (@nil string).
        rewrite app_nil_r. done.
      * left. by rewrite lookup_insert_ne.
    + destruct (is_dir f cwd0 _); injection Hrun as <- <-; by left.
    + injection Hrun as <- <-. by left.
    + injection Hrun as <- <-. by left.
  - cbn [mkdir_parents] in Hrun.
    apply not_elem_of_cons in Hplain as [Hx Hplain].
    assert (∀ f0 f',
              os_mkdir f0 cwd0 {| anchor := anchored;
                                  parts := reverse (x :: rparent) |} = Made f' →
              f0 !! ((if anchored then [] else cwd0) ++ reverse (x :: rparent))
              = None
              ∧ f' = <[(if anchored then [] else cwd0) ++ reverse (x :: rparent)
                       := Dir]> f0) as Hmade.
    { intros f0 f' Hmk.
      apply os_mkdir_Made in Hmk as (key & Hloc & Hnone & ->).
      unfold locate in Hloc. cbn [anchor parts] in Hloc.
      apply path_walk_plain in Hloc as ->; [done |].
      rewrite elem_of_reverse, elem_of_cons.
      intros [H | H]; [congruence | done]. }
    destruct (os_mkdir f cwd0 _) as [f'| | |] eqn:Hmk.
    + injection Hrun as <- <-. apply Hmade in Hmk as [Hnone ->].
      destruct (decide (k = (if anchored then [] else cwd0)
                            ++ reverse (x :: rparent))) as [-> | Hne].
      * right. by rewrite lookup_insert_eq.
      * left. by rewrite lookup_insert_ne.
    + destruct (is_dir f cwd0 _); injection Hrun as <- <-; by left.
    + destruct (mkdir_parents f cwd0 anchored rparent) as [r0 f0] eqn:Hrec.
      specialize (IH r0 f0 eq_refl Hplain).
      assert (∀ k, f0 !! k = f !! k
                   ∨ (f !! k = None ∧ f0 !! k = Some Dir
                      ∧ k `prefix_of` ((if anchored then [] else cwd0)
                                        ++ reverse (x :: rparent)))) as IH'.
      { intros k0. destruct (IH k0) as [H | (H1 & H2 & H3)]; [by left |].
        right. split; [done |]. split; [done |].
        rewrite reverse_cons, app_assoc. by apply prefix_app_r. }
      destruct r0 as [[]|e]; [| injection Hrun as <- <-; apply IH'].
      destruct (os_mkdir f0 cwd0 _) as [f2| | |] eqn:Hmk2.
      * injection Hrun as <- <-. apply Hmade in Hmk2 as [Hnone ->].
        destruct (decide (k = (if anchored then [] else cwd0)
                              ++ reverse (x :: rparent))) as [-> | Hne].
        -- right. rewrite lookup_insert_eq. split; [| done].
           destruct (IH' ((if anchored then [] else cwd0)
                          ++ reverse (x :: rparent))) as [H | (H & _)];
             congruence.
        -- rewrite lookup_insert_ne by done. apply IH'.
      * destruct (is_dir f0 cwd0 _); injection Hrun as <- <-; apply IH'.
      * injection Hrun as <- <-. apply IH'.
      * injection Hrun as <- <-. apply IH'.
    + injection Hrun as <- <-. by left.
Qed.


(** What the builder does to the file system before the walk: it makes
    the directories of the output path and creates or truncates the
    output file.  For an output path without [..] the file is at the
    entry the path names. *)
Lemma zip_open_w_plain (p : Path) (w : World) (key : list string) (w2 : World) :
  ".." ∉ parts p →
  zip_open_w p w = (Ok key, w2) →
  key = written_key (cwd w) p
  ∧ w2 = set_fs (<[key := File (Zip [])]> (fs w)) w
  ∧ node_at (fs w) key ≠ Some Dir.
Proof.
  intros Hplain Hopen.
  destruct (zip_open_w_cases p w) as [[e He] | (k & Hk & Hloc & Hnode)];
    [congruence |].
  rewrite Hk in Hopen. injection Hopen as <- <-.
  apply path_walk_plain in Hloc; done.
Qed.

Lemma prefix_removelast {A : Type} (l : list A) :
  removelast l `prefix_of` l.
Proof.
  induction l as [|x l IH]; [done |].
  destruct l as [|y l]; [apply prefix_nil |].
  change (removelast (x :: y :: l)) with (x :: removelast (y :: l)).
  by apply prefix_cons.
Qed.

Lemma strip_prefix_refl (l : list string) : strip_prefix l l = Some [].
Proof.
  pose proof (strip_prefix_app l []) as H. by rewrite app_nil_r in H.
Qed.

Lemma strip_prefix_None_prefix (root k out : list string) :
  strip_prefix root out = None → k `prefix_of` out →
  strip_prefix root k = None.
Proof.
  intros Hout [suf ->].
  destruct (strip_prefix root k) as [rel|] eqn:Hk; [| done].
  apply strip_prefix_Some in Hk as ->.
  by rewrite <- app_assoc, strip_prefix_app in Hout.
Qed.

(** The directories from the root of the file system down to an entry
    that [stat] finds. *)
Lemma stat_abs_reach_inv (f : gmap (list string) Node) (key : list string) :
  ".." ∉ key → stat_abs f key ≠ None → reach f [] key = true.
Proof.
  unfold stat_abs, stat, locate. cbn [anchor parts].
  generalize (@nil string) as cur.
  induction key as [|x key IH]; intros cur Hplain Hstat; [done |].
  apply not_elem_of_cons in Hplain as [Hx Hplain].
  cbn [path_walk reach] in *. unfold is_dir_at.
  destruct (node_at f cur) as [[|]|]; try done.
  unfold step_component in Hstat.
  destruct (String.eqb_spec x ".."); [done |].
  cbn [negb andb]. by apply IH.
Qed.

Lemma reach_app (f : gmap (list string) Node) (pre a b : list string) :
  reach f pre (a ++ b) = reach f pre a && reach f (pre ++ a) b.
Proof.
  revert pre. induction a as [|x a IH]; intros pre.
  - by rewrite app_nil_r.
  - cbn [app reach]. rewrite IH, <- app_assoc, !andb_assoc. done.
Qed.

(** Two file systems that hold the same at every entry on the way from
    the root of the file system to [key] reach [key] alike. *)
Lemma reach_agree (f f' : gmap (list string) Node) (pre rel : list string) :
  (∀ a b, rel = a ++ b → b ≠ [] →
          node_at f' (pre ++ a) = node_at f (pre ++ a)) →
  reach f' pre rel = reach f pre rel.
Proof.
  revert pre. induction rel as [|x rel IH]; intros pre Hagree; [done |].
  cbn [reach]. unfold is_dir_at.
  pose proof (Hagree [] (x :: rel) eq_refl ltac:(done)) as Hpre.
  rewrite app_nil_r in Hpre. rewrite Hpre. f_equal.
  apply IH. intros a b -> Hb. rewrite <- app_assoc.
  apply (Hagree (x :: a) b); done.
Qed.

(** The file system the walk sees, for an output that lies outside the
    source root: every entry from the root of the file system down to the
    source root, and every entry below it, is what it was before the
    call. *)
Lemma walk_time_agree (w : World) (root : list string) (output_file : Path)
    (f1 : gmap (list string) Node) (out_key : list string) (w1 w2 : World) :
  ".." ∉ root →
  stat_abs (fs w) root ≠ None →
  ".." ∉ parts output_file →
  strip_prefix root (written_key (cwd w) output_file) = None →
  cwd w1 = cwd w →
  mkdir_parents (fs w) (cwd w) (anchor (parent output_file))
    (reverse (parts (parent output_file))) = (Ok tt, f1) →
  zip_open_w output_file (set_fs f1 w1) = (Ok out_key, w2) →
  out_key = written_key (cwd w) output_file
  ∧ fs w2 = <[out_key := File (Zip [])]> f1
  ∧ (∀ rel, fs w2 !! (root ++ rel) = fs w !! (root ++ rel))
  ∧ ∀ rel, reach (fs w2) [] (root ++ rel) = reach (fs w) [] (root ++ rel).
Proof.
  intros Hroot Hexists Hplain Hout Hcwd Hmk Hopen.
  apply zip_open_w_plain in Hopen as (Hkey & -> & Hnode); [| done].
  cbn [cwd fs set_fs] in *. rewrite Hcwd in Hkey.
  split; [done |]. split; [done |].
  assert (".." ∉ reverse (parts (parent output_file))) as Hplain'.
  { rewrite elem_of_reverse. unfold parent. cbn [parts].
    by apply not_in_removelast. }
  pose proof (mkdir_parents_changes _ _ _ _ _ _ Hmk Hplain') as Hchanges.
  rewrite reverse_involutive in Hchanges.
  assert ((if anchor (parent output_file) then [] else cwd w)
          ++ parts (parent output_file) `prefix_of`
          written_key (cwd w) output_file) as Hparent.
  { unfold written_key, parent. cbn [anchor parts].
    apply prefix_app, prefix_removelast. }
  assert (reach (fs w) [] root = true) as Hreach
    by (by apply stat_abs_reach_inv).
  assert (∀ a b, root = a ++ b → b ≠ [] → node_at (fs w) a = Some Dir)
    as Hancestors.
  { intros a b -> Hb. rewrite reach_app in Hreach.
    apply andb_true_iff in Hreach as [_ Hreach]. cbn [app] in Hreach.
    destruct b as [|y b]; [done |]. cbn [reach] in Hreach.
    unfold is_dir_at in Hreach.
    by destruct (node_at (fs w) a) as [[|]|]. }
  assert (∀ k, strip_prefix root k ≠ None → f1 !! k = fs w !! k) as Hbelow1.
  { intros k Hk. destruct (Hchanges k) as [H | (_ & _ & Hpre)]; [done |].
    exfalso. apply Hk. eapply strip_prefix_None_prefix; [exact Hout |].
    etrans; [exact Hpre | exact Hparent]. }
  assert (∀ a b, root = a ++ b → b ≠ [] → node_at f1 a = Some Dir)
    as Hancestors1.
  { intros a b Heq Hb. pose proof (Hancestors a b Heq Hb) as Hdir.
    unfold node_at in *. destruct a as [|x a]; [done |].
    destruct (Hchanges (x :: a)) as [H | (H & _)]; congruence. }
  rewrite Hkey in *.
  set (out := written_key (cwd w) output_file) in *.
  assert (∀ rel, <[out := File (Zip [])]> f1 !! (root ++ rel)
                 = fs w !! (root ++ rel)) as Hbelow.
  { intros rel. rewrite lookup_insert_ne.
    - apply Hbelow1. by rewrite strip_prefix_app.
    - intros Heq. rewrite Heq, strip_prefix_app in Hout. done. }
  split; [exact Hbelow |].
  intros rel. apply reach_agree. intros a b Heq Hb.
  cbn [app].
  destruct (prefix_weak_total a root (root ++ rel)) as [Hpre | Hpre];
    [by eexists | by apply prefix_app_r | |].
  - destruct Hpre as [suf Hsuf]. destruct suf as [|y suf].
    + rewrite app_nil_r in Hsuf. subst a.
      apply node_at_agree. rewrite <- (app_nil_r root). apply Hbelow.
    + rewrite (Hancestors a (y :: suf) Hsuf) by done.
      pose proof (Hancestors1 a (y :: suf) Hsuf ltac:(done)) as H1.
      destruct (decide (a = out)) as [-> | Hne]; [done |].
      unfold node_at in *. destruct a as [|z a]; [done |].
      by rewrite lookup_insert_ne.
  - destruct Hpre as [suf ->]. apply node_at_agree, Hbelow.
Qed.






(** ** Object keys and locators *)

(** The builder touches the file system and the clock only. *)
Lemma create_source_archive_frame
    (self : COSUploader) (source_dir : string) (output_path : option string)
    (exclude_patterns : option (list string)) (w : World) :
  let w' := snd (create_source_archive self source_dir output_path
                   exclude_patterns w) in
  trace w' = trace w ∧ bucket_objects w' = bucket_objects w
  ∧ cwd w' = cwd w ∧ cos_put w' = cos_put w ∧ environ w' = environ w.
Proof.
  destruct (stat_abs (fs w) (abs_parts (cwd w) (Path_of_str source_dir)))
    as [n|] eqn:E.
  - rewrite create_source_archive_cases by (cbn [parts]; congruence).
    cbv zeta.
    destruct (mkdir_parents _ _ _ _) as [[[]|e] f1];
      [| by destruct output_path].
    destruct (zip_open_w_cases
                (Path_of_str (chosen_output output_path w))
                (set_fs f1 match output_path with
                           | Some _ => w
                           | None => set_ticks (S (ticks w)) w
                           end))
      as [[e He] | (key & Hopen & _)]; rewrite ?He, ?Hopen.
    + by destruct output_path.
    + destruct (snd (write_entries _ _ _ _ _)); by destruct output_path.
  - by rewrite create_source_archive_missing.
Qed.

Lemma upload_source_code_cases (self : COSUploader)
    (source_dir deployment_id : string)
    (exclude_patterns : option (list string)) (w : World) :
  upload_source_code self source_dir deployment_id exclude_patterns w
  = match create_source_archive self source_dir None exclude_patterns
            (set_ticks (S (ticks w)) w) with
    | (Ok zip_path, w1) =>
        match upload_file self zip_path
                (Some (object_key deployment_id (clock w (ticks w)))) w1 with
        | (Ok cos_uri, w2) => (Ok (cos_uri, zip_path), w2)
        | (Raise e, w2) => (Raise e, w2)
        end
    | (Raise e, w1) => (Raise e, w1)
    end.
Proof.
  unfold upload_source_code, bind, utcnow, ret, object_key.
  destruct (create_source_archive _ _ _ _ _) as [[zip|e] w1]; [| reflexivity].
  destruct (upload_file _ _ _ _) as [[uri|e] w2]; reflexivity.
Qed.

(** C6. Object key and locator of an uploaded archive.  Whenever
    [upload_source_code] returns, with [now] the reading of the clock it
    took first: the locator returned is [cos://bucket/key] for the key
    [deployments/{id}/{stamp}_source.zip], [stamp] being [now] formatted
    as [YYYYMMDD_HHMMSS], and the archive is stored in the bucket under
    that key.  Keys of different deployment ids differ whatever the times;
    keys of one id at two different seconds differ.  Deployment [dep123]
    at 2024-01-02 03:04:05 gets
    [deployments/dep123/20240102_030405_source.zip]. *)
Theorem upload_source_code_object_key :
  (∀ (self : COSUploader) (source_dir deployment_id : string)
     (exclude_patterns : option (list string)) (w w' : World)
     (cos_uri zip_path : string),
     upload_source_code self source_dir deployment_id exclude_patterns w
     = (Ok (cos_uri, zip_path), w') →
     let key := object_key deployment_id (clock w (ticks w)) in
     cos_uri = locator (bucket_name self) key
     ∧ is_Some (bucket_objects w' !! (bucket_name self, key))
     ∧ trace w' = trace w ++ [EvUpload (bucket_name self) key])
  ∧ (∀ d1 d2 t1 t2, d1 ≠ d2 → object_key d1 t1 ≠ object_key d2 t2)
  ∧ (∀ d t1 t2, valid_datetime t1 → valid_datetime t2 → t1 ≠ t2 →
                object_key d t1 ≠ object_key d t2)
  ∧ object_key "dep123" sample_time
    = "deployments/dep123/20240102_030405_source.zip"
  ∧ ∀ bucket,
      locator bucket (object_key "dep123" sample_time)
      = "cos://" +:+ bucket
        +:+ "/deployments/dep123/20240102_030405_source.zip".
Proof.
  split; [| split; [| split; [| split]]].
  - intros self source_dir deployment_id exclude_patterns w w' cos_uri zip_path
      Hrun key.
    rewrite upload_source_code_cases in Hrun. fold key in Hrun.
    pose proof (create_source_archive_frame self source_dir None
                  exclude_patterns (set_ticks (S (ticks w)) w)) as Hframe.
    cbv zeta in Hframe.
    destruct (create_source_archive _ _ _ _ _) as [[zip|e] w1];
      [| discriminate].
    cbn [snd trace bucket_objects cwd cos_put environ set_ticks] in Hframe.
    destruct Hframe as (Htrace & _ & _ & _ & _).
    rewrite upload_file_cases in Hrun. cbv zeta in Hrun.
    cbn [default] in Hrun.
    destruct (stat _ _ _) as [[data |]|]; try discriminate.
    destruct (cos_put w1 _ _); [discriminate |].
    injection Hrun as <- <- <-.
    cbn [trace bucket_objects set_bucket_objects log_event].
    split; [reflexivity |]. split; [| by rewrite Htrace].
    rewrite lookup_insert_eq. eauto.
  - intros d1 d2 t1 t2 Hne Heq. by apply object_key_inj in Heq as [? _].
  - intros d t1 t2 V1 V2 Hne Heq. apply object_key_inj in Heq as [_ Heq].
    by apply strftime_stamp_inj in Heq.
  - reflexivity.
  - reflexivity.
Qed.

Lemma upload_source_code_object_key_witness :
  let out := upload_source_code sample_uploader "." "dep123" None
               (sample_world [] token_granted None) in
  fst out = Ok ("cos://bkt/deployments/dep123/20240102_030405_source.zip",
                "/tmp/source_20240102_030405.zip")
  ∧ is_Some (bucket_objects (snd out)
               !! ("bkt", "deployments/dep123/20240102_030405_source.zip"))
  ∧ trace (snd out)
    = [EvUpload "bkt" "deployments/dep123/20240102_030405_source.zip"].
Proof.
  intros out.
  assert (out = (Ok ("cos://bkt/deployments/dep123/20240102_030405_source.zip",
                     "/tmp/source_20240102_030405.zip"), snd out)) as Hrun
    by (vm_compute; reflexivity).
  destruct (proj1 upload_source_code_object_key _ _ _ _ _ _ _ _ Hrun)
    as (_ & Hstored & Htrace).
  split; [by rewrite Hrun | split; [exact Hstored | exact Htrace]].
Defined.

(** ** Path strings *)


Lemma slash_free_cons (c : ascii) (s : string) :
  slash_free (String c s) ↔ c ≠ "/"%char ∧ slash_free s.
Proof.
  unfold slash_free. cbn [list_ascii_of_string].
  rewrite not_elem_of_cons. split; intros [? ?]; split; congruence || done.
Qed.

(** The pieces [split("/")] returns contain no slash. *)
Lemma split_slash_free (s seg : string) :
  seg ∈ split_slash s → slash_free seg.
Proof.
  revert seg. induction s as [|c s IH]; intros seg Hin.
  - apply list_elem_of_singleton in Hin as ->. apply not_elem_of_nil.
  - cbn [split_slash] in Hin. destruct (Ascii.eqb_spec c "/") as [->|Hc].
    + apply elem_of_cons in Hin as [-> | Hin]; [apply not_elem_of_nil | auto].
    + destruct (split_slash s) as [|seg0 segs] eqn:E.
      * apply list_elem_of_singleton in Hin as ->.
        apply slash_free_cons. split; [done | apply not_elem_of_nil].
      * apply elem_of_cons in Hin as [-> | Hin].
        -- apply slash_free_cons. split; [done |]. apply IH. by left.
        -- apply IH. by right.
Qed.

Lemma split_slash_app (x rest : string) :
  slash_free x →
  split_slash (x +:+ String "/" rest) = x :: split_slash rest.
Proof.
  induction x as [|c x IH]; intros Hx.
  - reflexivity.
  - apply slash_free_cons in Hx as [Hc Hx].
    rewrite append_cons. cbn [split_slash].
    destruct (Ascii.eqb_spec c "/"); [done |]. by rewrite IH.
Qed.

Lemma split_slash_single (x : string) :
  slash_free x → split_slash x = [x].
Proof.
  induction x as [|c x IH]; intros Hx; [reflexivity |].
  apply slash_free_cons in Hx as [Hc Hx]. cbn [split_slash].
  destruct (Ascii.eqb_spec c "/"); [done |]. by rewrite IH.
Qed.

(** Splitting a joined list of slash-free components gives it back. *)
Lemma split_slash_join (l : list string) :
  l ≠ [] → (∀ seg, seg ∈ l → slash_free seg) →
  split_slash (join "/" l) = l.
Proof.
  induction l as [|x l IH]; intros Hne Hfree; [done |].
  destruct l as [|y l].
  - cbn [join String.concat]. apply split_slash_single, Hfree. by left.
  - change (join "/" (x :: y :: l)) with (x +:+ String "/" (join "/" (y :: l))).
    rewrite split_slash_app by (apply Hfree; by left).
    rewrite IH; [done | done |]. intros seg Hseg. apply Hfree. by right.
Qed.

Lemma filter_keeps_all (P : string → Prop) `{∀ x, Decision (P x)}
    (l : list string) :
  (∀ x, x ∈ l → P x) → filter P l = l.
Proof.
  induction l as [|x l IH]; intros Hall; [done |].
  rewrite filter_cons_True by (apply Hall; by left).
  rewrite IH; [done |]. intros y Hy. apply Hall. by right.
Qed.

Lemma Path_of_str_parts (s seg : string) :
  seg ∈ parts (Path_of_str s) →
  slash_free seg ∧ seg ≠ "" ∧ seg ≠ ".".
Proof.
  unfold Path_of_str. cbn [parts].
  intros [[H1 H2] Hin]%list_elem_of_filter.
  split; [by apply (split_slash_free s) | done].
Qed.

(** [Path(str(Path(s)))] is [Path(s)]: the string a path prints as names
    the same path. *)
Lemma Path_of_str_str (s : string) :
  Path_of_str (str (Path_of_str s)) = Path_of_str s.
Proof.
  pose proof (Path_of_str_parts s) as Hparts.
  destruct (Path_of_str s) as [a l] eqn:E. cbn [parts] in Hparts.
  assert (filter (fun x : string => x ≠ "" ∧ x ≠ ".") l = l) as Hfilter.
  { apply filter_keeps_all. intros x Hx. by apply Hparts. }
  unfold str. cbn [anchor parts]. destruct a.
  - unfold Path_of_str. f_equal.
    + rewrite append_cons, append_empty. cbn [String.prefix].
      destruct (ascii_dec "/" "/"); [| done]. by destruct (join "/" l).
    + rewrite append_cons, append_empty. cbn [split_slash].
      change (Ascii.eqb "/" "/") with true. cbv iota.
      rewrite filter_cons_False by (intros [? _]; done).
      destruct l as [|x l]; [reflexivity |].
      rewrite split_slash_join; [done | done |].
      intros seg Hseg. by apply Hparts.
  - destruct l as [|x l]; [reflexivity |].
    unfold Path_of_str. f_equal.
    + destruct (Hparts x) as (Hfree & Hne & _); [by left |].
      destruct x as [|c x]; [done |].
      apply slash_free_cons in Hfree as [Hc _].
      destruct l; cbn [join String.concat]; rewrite ?append_cons;
        cbn [String.prefix]; by destruct (ascii_dec "/" c).
    + rewrite split_slash_join; [done | done |].
      intros seg Hseg. by apply Hparts.
Qed.

(** The base name of a path contains no slash. *)
Lemma name_slash_free (s : string) : slash_free (name (Path_of_str s)).
Proof.
  unfold name.
  destruct (parts (Path_of_str s)) as [|x l] eqn:E; [apply not_elem_of_nil |].
  assert (List.last (x :: l) "" ∈ parts (Path_of_str s)) as Hin.
  { rewrite E. clear E. revert x. induction l as [|y l IH]; intros x.
    - by left.
    - right. apply (IH y). }
  by apply Path_of_str_parts in Hin as [? _].
Qed.

(** C10. Default object name of [upload_file].  For a local path at which
    a regular file exists (the path is looked up as written: every
    directory named on the way has to exist), and a storage service that
    accepts the object, [upload_file] called without an object name
    stores the file's content under the base name of the path, the last
    component, which contains no slash (so it is never the full path of a
    file in a directory), and returns [cos://bucket/basename]. *)
Theorem upload_file_default_object_name
    (self : COSUploader) (file_path : string) (data : Data) (w : World) :
  let p := Path_of_str file_path in
  stat (fs w) (cwd w) p = Some (File data) →
  cos_put w (bucket_name self) (name p) = None →
  ∃ w',
    upload_file self file_path None w
    = (Ok ("cos://" +:+ bucket_name self +:+ "/" +:+ name p), w')
    ∧ bucket_objects w' !! (bucket_name self, name p) = Some data
    ∧ trace w' = trace w ++ [EvUpload (bucket_name self) (name p)]
    ∧ name p = List.last (parts p) ""
    ∧ slash_free (name p).
Proof.
  intros p Hfile Hput. rewrite upload_file_cases. cbv zeta. fold p.
  cbn [default]. rewrite Hfile, Hput.
  eexists. split; [reflexivity |].
  cbn [bucket_objects trace set_bucket_objects log_event].
  split; [apply lookup_insert_eq |]. split; [reflexivity |].
  split; [reflexivity | apply name_slash_free].
Qed.

Lemma upload_file_default_object_name_witness :
  ∃ w',
    upload_file sample_uploader "/proj/node_modules/x.js" None
      (sample_world [] token_granted None)
    = (Ok "cos://bkt/x.js", w')
    ∧ bucket_objects w' !! ("bkt", "x.js") = Some (Raw "x()")
    ∧ trace w' = [EvUpload "bkt" "x.js"]
    ∧ "x.js" = List.last ["proj"; "node_modules"; "x.js"] ""
    ∧ slash_free "x.js".
Proof.
  apply (upload_file_default_object_name sample_uploader
           "/proj/node_modules/x.js" (Raw "x()")
           (sample_world [] token_granted None)).
  - vm_compute. reflexivity.
  - reflexivity.
Defined.

(** ** The pipeline *)

(** Creating or changing a file that is not a directory does not change
    where a walk gets. *)
Lemma path_walk_insert (f : gmap (list string) Node) (key : list string)
    (n : Node) (cur names k : list string) :
  node_at f key ≠ Some Dir →
  path_walk f cur names = Reached k →
  path_walk (<[key := n]> f) cur names = Reached k.
Proof.
  intros Hkey. revert cur. induction names as [|x names IH]; intros cur Hwalk.
  - done.
  - cbn [path_walk] in *.
    destruct (node_at f cur) as [[|]|] eqn:Hcur; try discriminate.
    assert (node_at (<[key := n]> f) cur = Some Dir) as ->.
    { unfold node_at in *. destruct cur as [|y cur]; [done |].
      rewrite lookup_insert_ne; [done |]. intros ->. by rewrite Hcur in Hkey. }
    by apply IH.
Qed.

(** A successful build leaves an archive at the path it returns. *)
Lemma create_source_archive_Ok
    (self : COSUploader) (source_dir : string) (output_path : option string)
    (exclude_patterns : option (list string)) (w w' : World) (zip : string) :
  create_source_archive self source_dir output_path exclude_patterns w
  = (Ok zip, w') →
  zip = str (Path_of_str (chosen_output output_path w))
  ∧ cwd w' = cwd w
  ∧ ∃ key entries,
      locate (fs w') (cwd w') (Path_of_str zip) = Reached key
      ∧ key ≠ []
      ∧ fs w' !! key = Some (File (Zip entries)).
Proof.
  intros Hrun.
  destruct (stat_abs (fs w) (abs_parts (cwd w) (Path_of_str source_dir)))
    as [n|] eqn:E.
  - rewrite create_source_archive_cases in Hrun by (cbn [parts]; congruence).
    cbv zeta in Hrun.
    destruct (mkdir_parents _ _ _ _) as [[[]|e] f1]; [| discriminate].
    set (w1 := match output_path with
               | Some _ => w
               | None => set_ticks (S (ticks w)) w
               end) in *.
    assert (cwd w1 = cwd w) as Hcwd by (unfold w1; by destruct output_path).
    destruct (zip_open_w_cases (Path_of_str (chosen_output output_path w))
                (set_fs f1 w1))
      as [[e He] | (key & Hopen & Hloc & Hnode)];
      rewrite ?He, ?Hopen in Hrun; [discriminate |].
    destruct (snd (write_entries _ _ _ _ _)); [discriminate |].
    injection Hrun as <- <-. rewrite Path_of_str_str.
    cbn [cwd fs set_fs] in *. split; [done |]. split; [done |].
    eexists key, _. split; [| split].
    + apply path_walk_insert; [| apply path_walk_insert; done].
      unfold node_at. destruct key as [|x key]; [done |].
      rewrite lookup_insert_eq. done.
    + intros ->. done.
    + apply lookup_insert_eq.
  - rewrite create_source_archive_missing in Hrun by done.
    discriminate.
Qed.

(** [upload_file] reads the file system and never writes it. *)
Lemma upload_file_frame (self : COSUploader) (file_path : string)
    (object_name : option string) (w : World) :
  let w' := snd (upload_file self file_path object_name w) in
  fs w' = fs w ∧ cwd w' = cwd w.
Proof.
  rewrite upload_file_cases. cbv zeta.
  destruct (stat _ _ _) as [[data |]|]; try done.
  destruct (cos_put _ _ _); done.
Qed.

(** The default output path and its components. *)
Lemma digit_not_slash (n : nat) : digit n ≠ "/"%char.
Proof.
  unfold digit. intros H. apply (f_equal nat_of_ascii) in H.
  pose proof (Nat.mod_upper_bound n 10).
  rewrite nat_ascii_embedding in H by lia.
  change (nat_of_ascii "/") with 47 in H. lia.
Qed.

Lemma slash_free_stamp (dt : datetime) :
  slash_free ("source_" +:+ strftime "%Y%m%d_%H%M%S" dt +:+ ".zip").
Proof.
  rewrite strftime_stamp. unfold pad4, pad2.
  rewrite !append_cons, !append_empty.
  repeat (apply slash_free_cons;
          split; [first [apply digit_not_slash | discriminate] |]).
  apply not_elem_of_nil.
Qed.

Lemma default_output_path (dt : datetime) :
  Path_of_str ("/tmp/source_" +:+ strftime "%Y%m%d_%H%M%S" dt +:+ ".zip")
  = {| anchor := true;
       parts := ["tmp";
                 "source_" +:+ strftime "%Y%m%d_%H%M%S" dt +:+ ".zip"] |}.
Proof.
  set (file := "source_" +:+ strftime "%Y%m%d_%H%M%S" dt +:+ ".zip").
  assert ("/tmp/source_" +:+ strftime "%Y%m%d_%H%M%S" dt +:+ ".zip"
          = String "/" ("tmp" +:+ String "/" file)) as -> by reflexivity.
  unfold Path_of_str. f_equal.
  assert (split_slash (String "/" ("tmp" +:+ String "/" file))
          = [""; "tmp"; file]) as ->.
  { change (split_slash (String "/" ("tmp" +:+ String "/" file)))
      with ("" :: split_slash ("tmp" +:+ String "/" file)).
    rewrite split_slash_app, split_slash_single; [done | |].
    - apply slash_free_stamp.
    - apply (bool_decide_unpack _). vm_compute. exact I. }
  rewrite filter_cons_False by (intros [? _]; done).
  rewrite filter_cons_True by done.
  rewrite filter_cons_True by (split; discriminate).
  done.
Qed.

Lemma main_unfold (load_config : M DeploymentConfig) (w : World) :
  main load_config w
  = match load_config w with
    | (Ok config, w0) =>
        match main_body config w0 with
        | (Ok _, w') => (0%Z, w')
        | (Raise _, w') => (1%Z, w')
        end
    | (Raise _, w0) => (1%Z, w0)
    end.
Proof.
  unfold main, bind. destruct (load_config w) as [[config|e] w0].
  - destruct (main_body config w0) as [[[]|e] w']; [done |].
    by destruct (exn_cls e).
  - by destruct (exn_cls e).
Qed.

(** C9. The local archive after a failed upload.  Take a run of [main] in
    which the configuration was loaded (and the application name it
    prints could be formed), the credential resolved, the
    uploader built and the archive created at [zip].  Then the archive is
    on disk; if the upload raises, [main] exits with 1 in the very world
    the upload left, whose file system is the one that holds the archive
    (nothing deletes it on the error path); if the upload succeeds, [main]
    exits with 0, and the archive is unlinked exactly when
    [cleanup_artifacts] is set. *)
Theorem archive_survives_failed_upload
    (load_config : M DeploymentConfig) (config : DeploymentConfig)
    (w w0 w1 w2 w3 : World) (a : Authenticator) (u : COSUploader)
    (zip app_name : string) :
  load_config w = (Ok config, w0) →
  get_app_name (vercel config) = Ok app_name →
  get_authenticator (trusted_profile_id (ibm_cloud config)) None None w0
  = (Ok a, w1) →
  create_cos_uploader a (region (ibm_cloud config))
    (cos_bucket (ibm_cloud config)) (cos_endpoint (ibm_cloud config)) w1
  = (Ok u, w2) →
  create_source_archive u (source_dir config) None None
    (set_ticks (S (ticks w2)) w2)
  = (Ok zip, w3) →
  let key := abs_parts (cwd w3) (Path_of_str zip) in
  let object_name :=
    object_key (deployment_id (vercel config)) (clock w2 (ticks w2)) in
  (∃ entries, fs w3 !! key = Some (File (Zip entries)))
  ∧ (∀ e w4,
       upload_file u zip (Some object_name) w3 = (Raise e, w4) →
       main load_config w = (1%Z, w4) ∧ fs w4 = fs w3)
  ∧ (∀ uri w4,
       upload_file u zip (Some object_name) w3 = (Ok uri, w4) →
       fs w4 = fs w3
       ∧ main load_config w
         = (0%Z, if cleanup_artifacts config
                 then set_fs (delete key (fs w3)) w4
                 else w4)).
Proof.
  intros Hload Happ Hauth Hfactory Hzip key object_name.
  destruct (create_source_archive_Ok _ _ _ _ _ _ _ Hzip)
    as (Hstr & Hcwd & key' & entries & Hloc & Hkey & Hentries).
  assert (Path_of_str zip
          = {| anchor := true;
               parts := ["tmp";
                         "source_"
                         +:+ strftime "%Y%m%d_%H%M%S" (clock w2 (S (ticks w2)))
                         +:+ ".zip"] |}) as Hpath.
  { rewrite Hstr, Path_of_str_str. cbn [chosen_output clock ticks set_ticks].
    apply default_output_path. }
  assert (".." ∉ parts (Path_of_str zip)) as Hplain.
  { rewrite Hpath. cbn [parts]. rewrite !not_elem_of_cons.
    split; [discriminate |]. split; [| apply not_elem_of_nil].
    intros H. inversion H. }
  assert (key' = key) as ->.
  { unfold locate in Hloc. apply path_walk_plain in Hloc; [| done].
    rewrite Hloc. unfold key, abs_parts. rewrite Hpath in *.
    cbn [anchor parts app] in *. by rewrite fold_step_normal. }
  assert (∀ r w4,
            upload_file u zip (Some object_name) w3 = (r, w4) →
            main_body config w0
            = match r with
              | Ok _ =>
                  if cleanup_artifacts config
                  then unlink_missing_ok (Path_of_str zip) w4
                  else (Ok tt, w4)
              | Raise e => (Raise e, w4)
              end) as Hbody.
  { intros r w4 Hup. unfold main_body, bind at 1. unfold lift.
    rewrite Happ. unfold bind at 1. rewrite Hauth.
    unfold bind at 1. rewrite Hfactory.
    unfold bind at 1. rewrite upload_source_code_cases, Hzip.
    fold object_name. rewrite Hup.
    destruct r as [uri|e]; [| reflexivity].
    cbn [snd]. by destruct (cleanup_artifacts config). }
  split; [eauto |]. split.
  - intros e w4 Hup.
    pose proof (upload_file_frame u zip (Some object_name) w3) as Hframe.
    cbv zeta in Hframe. rewrite Hup in Hframe. cbn [snd] in Hframe.
    split; [| apply Hframe].
    rewrite main_unfold, Hload, (Hbody _ _ Hup). reflexivity.
  - intros uri w4 Hup.
    pose proof (upload_file_frame u zip (Some object_name) w3) as Hframe.
    cbv zeta in Hframe. rewrite Hup in Hframe. cbn [snd] in Hframe.
    destruct Hframe as [Hfs Hcwd4]. split; [done |].
    rewrite main_unfold, Hload, (Hbody _ _ Hup).
    destruct (cleanup_artifacts config); [| reflexivity].
    unfold unlink_missing_ok. rewrite Hcwd4, Hfs, Hloc.
    unfold node_at. destruct key as [|x key0] eqn:Ek; [done |].
    rewrite Hentries. reflexivity.
Qed.

Lemma archive_survives_failed_upload_witness :
  fst (main (ret (sample_config None true))
         (sample_world [("IBM_CLOUD_API_KEY", "key")] token_granted
            (Some "503 Service Unavailable"))) = 1%Z
  ∧ ∃ entries,
      fs (snd (main (ret (sample_config None true))
                 (sample_world [("IBM_CLOUD_API_KEY", "key")] token_granted
                    (Some "503 Service Unavailable"))))
        !! ["tmp"; "source_20240102_030405.zip"]
      = Some (File (Zip entries)).
Proof.
  set (W := sample_world [("IBM_CLOUD_API_KEY", "key")] token_granted
              (Some "503 Service Unavailable")).
  set (cfg := sample_config None true).
  set (zip := "/tmp/source_20240102_030405.zip").
  set (w3 := snd (create_source_archive sample_uploader (source_dir cfg)
                    None None (set_ticks (S (ticks W)) W))).
  set (name3 := object_key (deployment_id (vercel cfg)) (clock W (ticks W))).
  set (w4 := snd (upload_file sample_uploader zip (Some name3) w3)).
  assert (get_authenticator (trusted_profile_id (ibm_cloud cfg)) None None W
          = (Ok (IAMAuthenticator "key"), W)) as H1
    by (vm_compute; reflexivity).
  assert (create_cos_uploader (IAMAuthenticator "key")
            (region (ibm_cloud cfg)) (cos_bucket (ibm_cloud cfg))
            (cos_endpoint (ibm_cloud cfg)) W
          = (Ok sample_uploader, W)) as H2
    by (vm_compute; reflexivity).
  assert (create_source_archive sample_uploader (source_dir cfg) None None
            (set_ticks (S (ticks W)) W)
          = (Ok zip, w3)) as H3
    by (vm_compute; reflexivity).
  assert (upload_file sample_uploader zip (Some name3) w3
          = (Raise (Exn RuntimeError
                      "Failed to upload file to COS: 503 Service Unavailable"),
             w4)) as H4
    by (vm_compute; reflexivity).
  destruct (archive_survives_failed_upload (ret cfg) cfg W W W W w3
              (IAMAuthenticator "key") sample_uploader zip "app-main"
              eq_refl eq_refl H1 H2 H3)
    as ((entries & Hentries) & Hfail & _).
  destruct (Hfail _ w4 H4) as [Hmain Hfs].
  rewrite Hmain. cbn [fst snd]. split; [reflexivity |].
  exists entries. rewrite Hfs.
  replace ["tmp"; "source_20240102_030405.zip"]
    with (abs_parts (cwd w3) (Path_of_str zip)) by (vm_compute; reflexivity).
  exact Hentries.
Defined.

(** ** Error kinds *)







(** * Further properties of the code *)

(** ** [sdk/auth.py] *)

(** The constructor call, case by case: it never changes the world. *)
Lemma new_IAMAuthenticator_cases (k : string) (w : World) :
  new_IAMAuthenticator k w
  = (if has_bad_first_or_last_char k then
       Raise (Exn ValueError
                ("The apikey shouldn't start or end with curly brackets or quotes. Please remove any surrounding {, }, or "
                 +:+ String dquote " characters."))
     else Ok (IAMAuthenticator k), w).
Proof.
  unfold new_IAMAuthenticator, raise, ret.
  by destruct (has_bad_first_or_last_char k).
Qed.

(** X1.  [create_iam_authenticator] takes the key from its argument, and from
    [IBM_CLOUD_API_KEY] only when the argument is [None].  It returns the
    credential of that key exactly when the key is non-empty and passes
    the validation of the [IAMAuthenticator] constructor (no curly bracket
    or double quote as first or last character); otherwise it raises
    [ValueError].  It never changes the world.  An explicit empty key is
    an error even when the environment holds a key. *)
Theorem create_iam_authenticator_key_source
    (api_key : option string) (w : World) :
  snd (create_iam_authenticator api_key w) = w
  ∧ (∀ a, fst (create_iam_authenticator api_key w) = Ok a ↔
          ∃ k, resolved api_key "IBM_CLOUD_API_KEY" w = Some k
               ∧ k ≠ "" ∧ has_bad_first_or_last_char k = false
               ∧ a = IAMAuthenticator k)
  ∧ (∀ e, fst (create_iam_authenticator api_key w) = Raise e →
          exn_cls e = ValueError)
  ∧ (api_key = Some "" →
     ∃ e, fst (create_iam_authenticator api_key w) = Raise e).
Proof.
  assert (create_iam_authenticator api_key w
          = (match resolved api_key "IBM_CLOUD_API_KEY" w with
             | Some k =>
                 if String.eqb k ""
                 then Raise (Exn ValueError
                   "IBM Cloud API key is required. Provide it as an argument or set the IBM_CLOUD_API_KEY environment variable.")
                 else fst (new_IAMAuthenticator k w)
             | None =>
                 Raise (Exn ValueError
                   "IBM Cloud API key is required. Provide it as an argument or set the IBM_CLOUD_API_KEY environment variable.")
             end, w)) as ->.
  { unfold create_iam_authenticator, resolved, bind, ret, raise, getenv, gets.
    destruct api_key as [k|].
    - destruct (String.eqb k ""); [done |].
      by rewrite new_IAMAuthenticator_cases.
    - destruct (environ w !! "IBM_CLOUD_API_KEY") as [k|]; [| done].
      destruct (String.eqb k ""); [done |].
      by rewrite new_IAMAuthenticator_cases. }
  cbn [fst snd]. split; [done |].
  assert (api_key = Some "" →
          resolved api_key "IBM_CLOUD_API_KEY" w = Some "") as Hempty
    by (by intros ->).
  destruct (resolved api_key "IBM_CLOUD_API_KEY" w) as [k|].
  - destruct (String.eqb_spec k "") as [->|Hk].
    + split; [| split].
      * intros a. split; [done |]. intros (k & [= <-] & Hk & _). done.
      * by intros e [= <-].
      * eauto.
    + rewrite new_IAMAuthenticator_cases. cbn [fst].
      destruct (has_bad_first_or_last_char k) eqn:Hbad.
      * split; [| split].
        -- intros a. split; [done |].
           intros (k' & [= <-] & _ & Hgood & _). congruence.
        -- by intros e [= <-].
        -- eauto.
      * split; [| split].
        -- intros a. split.
           ++ intros [= <-]. eauto.
           ++ intros (k' & [= <-] & _ & _ & ->). done.
        -- done.
        -- intros H. apply Hempty in H. congruence.
  - split; [| split].
    + intros a. split; [done |]. by intros (k & [=] & _).
    + by intros e [= <-].
    + eauto.
Qed.

Lemma create_iam_authenticator_key_source_witness :
  ∃ e,
    fst (create_iam_authenticator (Some "")
           (sample_world [("IBM_CLOUD_API_KEY", "key")] token_granted None))
    = Raise e.
Proof.
  apply (proj2 (proj2 (proj2
           (create_iam_authenticator_key_source (Some "")
              (sample_world [("IBM_CLOUD_API_KEY", "key")] token_granted
                 None))))).
  reflexivity.
Defined.

(** X2.  Without a token, or without a profile id, the exchange raises
    [ValueError] and makes no network call. *)
Theorem oidc_exchange_needs_token_and_profile
    (tok tp : option string) (iam_endpoint : string) (w : World) :
  truthy tok = false ∨ truthy tp = false →
  ∃ msg,
    create_iam_authenticator_oidc tok tp iam_endpoint w
    = (Raise (Exn ValueError msg), w).
Proof.
  unfold create_iam_authenticator_oidc, raise.
  intros [-> | Htp]; cbn [negb]; [eauto |].
  destruct (truthy tok); cbn [negb]; [| eauto]. rewrite Htp. eauto.
Qed.

Lemma oidc_exchange_needs_token_and_profile_witness :
  ∃ msg,
    create_iam_authenticator_oidc (Some "") (Some "Profile-1")
      "https://iam.cloud.ibm.com" (sample_world [] token_granted None)
    = (Raise (Exn ValueError msg), sample_world [] token_granted None).
Proof.
  apply (oidc_exchange_needs_token_and_profile (Some "") (Some "Profile-1")).
  left. reflexivity.
Defined.

(** The exchange, reply by reply, once token and profile id are there. *)
Lemma oidc_exchange_cases (tok tp : option string) (iam_endpoint : string)
    (w : World) :
  truthy tok = true → truthy tp = true →
  let url := iam_endpoint +:+ "/identity/token" in
  let w' := log_event (EvPost url (exchange_form tok tp) 10) w in
  create_iam_authenticator_oidc tok tp iam_endpoint w
  = match iam w url (exchange_form tok tp) with
    | PostRaises msg =>
        (Raise (Exn RuntimeError
                  ("Failed to exchange OIDC token with IBM IAM: " +:+ msg)),
         w')
    | PostReturns r =>
        match http_error r with
        | Some msg =>
            (Raise (Exn RuntimeError
                      ("Failed to exchange OIDC token with IBM IAM: "
                       +:+ msg)), w')
        | None =>
            match json_body r with
            | None =>
                (Raise (Exn RuntimeError
                          ("Failed to exchange OIDC token with IBM IAM: "
                           +:+ "Expecting value")), w')
            | Some (JObj fields) =>
                let token := default JNull (assoc "access_token" fields) in
                if json_truthy token
                then (Ok (BearerTokenAuthenticator token), w')
                else (Raise (Exn RuntimeError
                               "Failed to obtain access token from IBM IAM"),
                      w')
            | Some body =>
                (Raise (Exn AttributeError
                          ("'" +:+ type_name body
                           +:+ "' object has no attribute 'get'")), w')
            end
        end
    end.
Proof.
  intros Htok Htp url w'.
  unfold create_iam_authenticator_oidc. rewrite Htok, Htp. cbn [negb].
  unfold try_except, requests_post, raise_for_status, response_json, json_get.
  unfold bind, modify, gets, raise, ret, reraise.
  fold (exchange_form tok tp). fold url. cbn [iam log_event].
  destruct (iam w url (exchange_form tok tp)) as [msg | r];
    cbn [exn_cls exn_msg]; [reflexivity |].
  destruct (http_error r) as [msg|]; cbn [exn_cls exn_msg]; [reflexivity |].
  destruct (json_body r) as [body|]; cbn [exn_cls exn_msg]; [| reflexivity].
  destruct body as [| b | z | s | items | fields];
    cbn [exn_cls exn_msg]; try reflexivity.
  destruct (json_truthy _); reflexivity.
Qed.

(** X3.  A granted token: the exchange posts once to
    [{iam_endpoint}/identity/token], with the grant type, the OIDC token
    and the profile id as form fields and a timeout of 10 seconds, and
    returns the bearer credential that carries the [access_token] of the
    reply. *)
Theorem oidc_exchange_success
    (tok tp : option string) (iam_endpoint : string) (w : World)
    (fields : list (string * json)) (token : json) :
  truthy tok = true → truthy tp = true →
  iam w (iam_endpoint +:+ "/identity/token")
    [ ("grant_type", "urn:ibm:params:oauth:grant-type:cr-token");
      ("cr_token", default "" tok); ("profile_id", default "" tp) ]
  = PostReturns {| http_error := None; json_body := Some (JObj fields) |} →
  assoc "access_token" fields = Some token →
  json_truthy token = true →
  ∃ w',
    create_iam_authenticator_oidc tok tp iam_endpoint w
    = (Ok (BearerTokenAuthenticator token), w')
    ∧ trace w'
      = trace w
        ++ [EvPost (iam_endpoint +:+ "/identity/token")
              [ ("grant_type", "urn:ibm:params:oauth:grant-type:cr-token");
                ("cr_token", default "" tok); ("profile_id", default "" tp) ]
              10]
    ∧ fs w' = fs w ∧ bucket_objects w' = bucket_objects w.
Proof.
  intros Htok Htp Hreply Hfield Htruthy.
  rewrite oidc_exchange_cases by done. cbv zeta.
  unfold exchange_form. rewrite Hreply. cbn [http_error json_body].
  cbv zeta. rewrite Hfield. cbn [default from_option id]. rewrite Htruthy.
  eexists. split; [reflexivity |]. done.
Qed.

Lemma oidc_exchange_success_witness :
  ∃ w',
    create_iam_authenticator_oidc (Some "jwt") (Some "Profile-1")
      "https://iam.cloud.ibm.com" (sample_world [] token_granted None)
    = (Ok (BearerTokenAuthenticator (JStr "tok")), w')
    ∧ trace w'
      = [EvPost "https://iam.cloud.ibm.com/identity/token"
           [ ("grant_type", "urn:ibm:params:oauth:grant-type:cr-token");
             ("cr_token", "jwt"); ("profile_id", "Profile-1") ] 10]
    ∧ fs w' = sample_fs ∧ bucket_objects w' = ∅.
Proof.
  apply (oidc_exchange_success (Some "jwt") (Some "Profile-1")
           "https://iam.cloud.ibm.com" (sample_world [] token_granted None)
           [("access_token", JStr "tok"); ("expires_in", JNum 3600)]
           (JStr "tok")); reflexivity.
Defined.

(** X4.  Two replies that look like success.  A JSON body that is not an
    object (an array, a string, a number, [null]) makes the exchange raise
    [AttributeError]: neither [except] clause takes it, so it is not
    turned into the [RuntimeError] of a failed exchange.  An object whose
    [access_token] is empty, [null], zero or [false] does raise
    [RuntimeError]. *)
Theorem oidc_exchange_odd_replies
    (tok tp : option string) (iam_endpoint : string) (w : World)
    (body : json) :
  truthy tok = true → truthy tp = true →
  iam w (iam_endpoint +:+ "/identity/token") (exchange_form tok tp)
  = PostReturns {| http_error := None; json_body := Some body |} →
  match body with
  | JObj fields =>
      json_truthy (default JNull (assoc "access_token" fields)) = false →
      ∃ w', create_iam_authenticator_oidc tok tp iam_endpoint w
            = (Raise (Exn RuntimeError
                        "Failed to obtain access token from IBM IAM"), w')
  | _ =>
      ∃ msg w', create_iam_authenticator_oidc tok tp iam_endpoint w
                = (Raise (Exn AttributeError msg), w')
  end.
Proof.
  intros Htok Htp Hreply.
  rewrite oidc_exchange_cases by done. cbv zeta.
  rewrite Hreply. cbn [http_error json_body].
  destruct body; eauto. cbv zeta. intros ->. eauto.
Qed.

Lemma oidc_exchange_odd_replies_witness :
  ∃ msg w',
    create_iam_authenticator_oidc (Some "jwt") (Some "Profile-1")
      "https://iam.cloud.ibm.com"
      (sample_world []
         (PostReturns {| http_error := None;
                         json_body := Some (JArr [JStr "tok"]) |}) None)
    = (Raise (Exn AttributeError msg), w').
Proof.
  apply (oidc_exchange_odd_replies (Some "jwt") (Some "Profile-1")
           "https://iam.cloud.ibm.com"
           (sample_world []
              (PostReturns {| http_error := None;
                              json_body := Some (JArr [JStr "tok"]) |}) None)
           (JArr [JStr "tok"])); reflexivity.
Defined.

(** X5.  An explicit empty OIDC token switches the exchange off: the resolver
    does not look at [VERCEL_OIDC_TOKEN], makes no network call, and
    answers from the API key alone. *)
Theorem get_authenticator_empty_token_no_fallback
    (tp api_key : option string) (w : World) :
  snd (get_authenticator tp api_key (Some "") w) = w
  ∧ ∀ e, e !! "IBM_CLOUD_API_KEY" = environ w !! "IBM_CLOUD_API_KEY" →
         fst (get_authenticator tp api_key (Some "") (set_environ e w))
         = fst (get_authenticator tp api_key (Some "") w).
Proof.
  split.
  - rewrite get_authenticator_fallback by reflexivity.
    destruct (resolved _ _ _) as [k|]; [| done].
    rewrite new_IAMAuthenticator_cases. by destruct (String.eqb k "").
  - intros e He. rewrite !get_authenticator_fallback by reflexivity.
    unfold resolved. destruct api_key as [k|].
    + rewrite !new_IAMAuthenticator_cases. by destruct (String.eqb k "").
    + cbn [environ set_environ]. rewrite He.
      destruct (environ w !! "IBM_CLOUD_API_KEY") as [k|]; [| done].
      rewrite !new_IAMAuthenticator_cases. by destruct (String.eqb k "").
Qed.

Lemma get_authenticator_empty_token_no_fallback_witness :
  fst (get_authenticator (Some "Profile-1") None (Some "")
         (set_environ (list_to_map [("VERCEL_OIDC_TOKEN", "jwt")])
            (sample_world [] token_granted None)))
  = fst (get_authenticator (Some "Profile-1") None (Some "")
           (sample_world [] token_granted None)).
Proof.
  apply (proj2 (get_authenticator_empty_token_no_fallback (Some "Profile-1")
                  None (sample_world [] token_granted None))).
  vm_compute; reflexivity.
Defined.

(** ** [sdk/cos.py] *)



Lemma delete_file_cases
    (self : COSUploader) (object_name : string) (w : World) :
  ∃ w',
    delete_file self object_name w = (Ok tt, w')
    ∧ trace w' = trace w ++ [EvDelete (bucket_name self) object_name]
    ∧ fs w' = fs w
    ∧ bucket_objects w'
      = match cos_delete w (bucket_name self) object_name with
        | None => delete (bucket_name self, object_name) (bucket_objects w)
        | Some _ => bucket_objects w
        end.
Proof.
  unfold delete_file, delete_object, try_except, bind, modify, gets, raise,
    ret.
  cbn [cos_delete log_event].
  destruct (cos_delete w (bucket_name self) object_name);
    eexists; (split; [reflexivity |]); done.
Qed.

(** X7.  [delete_file] is best effort: it never raises, makes exactly one
    delete call and leaves the disk alone; the object is gone when the
    service accepts the call, and the bucket is as before when it does
    not. *)
Theorem delete_file_best_effort
    (self : COSUploader) (object_name : string) (w : World) :
  ∃ w',
    delete_file self object_name w = (Ok tt, w')
    ∧ trace w' = trace w ++ [EvDelete (bucket_name self) object_name]
    ∧ fs w' = fs w
    ∧ bucket_objects w'
      = match cos_delete w (bucket_name self) object_name with
        | None => delete (bucket_name self, object_name) (bucket_objects w)
        | Some _ => bucket_objects w
        end.
Proof. apply delete_file_cases. Qed.

(** X8.  Upload then delete: after a successful upload under a key, an accepted
    [delete_file] of that key leaves no object under it and every other
    object of the bucket store as it was before the upload. *)
Theorem upload_then_delete
    (self : COSUploader) (file_path key uri : string) (w w1 : World) :
  upload_file self file_path (Some key) w = (Ok uri, w1) →
  cos_delete w1 (bucket_name self) key = None →
  let w2 := snd (delete_file self key w1) in
  bucket_objects w2 !! (bucket_name self, key) = None
  ∧ ∀ other, other ≠ (bucket_name self, key) →
             bucket_objects w2 !! other = bucket_objects w !! other.
Proof.
  intros Hup Hdel w2.
  destruct (delete_file_cases self key w1)
    as (w2' & Hrun & _ & _ & Hbucket).
  unfold w2. rewrite Hrun. cbn [snd]. rewrite Hbucket, Hdel.
  rewrite upload_file_cases in Hup. cbv zeta in Hup.
  cbn [default from_option id] in Hup.
  destruct (stat _ _ _) as [[data |]|]; try discriminate.
  destruct (cos_put _ _ _); [discriminate |].
  injection Hup as _ <-. cbn [bucket_objects set_bucket_objects log_event].
  split.
  - apply lookup_delete_eq.
  - intros other Hother.
    rewrite lookup_delete_ne, lookup_insert_ne by done. done.
Qed.

Lemma upload_then_delete_witness :
  let w1 := snd (upload_file sample_uploader "/proj/a.txt" (Some "k")
                   (sample_world [] token_granted None)) in
  bucket_objects (snd (delete_file sample_uploader "k" w1)) !! ("bkt", "k")
  = None.
Proof.
  intros w1.
  refine (proj1 (upload_then_delete sample_uploader "/proj/a.txt" "k"
                   "cos://bkt/k" (sample_world [] token_granted None) w1
                   _ _)); vm_compute; reflexivity.
Defined.

(** X9.  The factory on an API-key credential: the endpoint is the one given,
    and [s3.{region}.cloud-object-storage.appdomain.cloud] only when none
    is given (the region then plays no other part); it asks the library
    for a client for [https://{endpoint}], with the credential's key and
    the instance id of [IBM_COS_SERVICE_INSTANCE_ID], or the placeholder
    CRN when that is unset.  When the library returns the client, the
    result is the uploader with that client, endpoint and bucket; when
    the library refuses (an invalid endpoint, say), its exception goes
    through.  The world is not changed. *)
Theorem create_cos_uploader_endpoint
    (k region bucket : string) (endpoint_arg : option string) (w : World) :
  let ep :=
    default ("s3." +:+ region +:+ ".cloud-object-storage.appdomain.cloud")
      endpoint_arg in
  let c :=
    {| ibm_api_key_id := k;
       ibm_service_instance_id :=
         default "crn:v1:bluemix:public:cloud-object-storage:global:a/:::"
           (environ w !! "IBM_COS_SERVICE_INSTANCE_ID");
       endpoint_url := "https://" +:+ ep |} in
  create_cos_uploader (IAMAuthenticator k) region bucket endpoint_arg w
  = (match client_error w c with
     | None => Ok {| bucket_name := bucket; endpoint := ep; client := c |}
     | Some e => Raise e
     end, w)
  ∧ ∀ region',
      is_Some endpoint_arg →
      create_cos_uploader (IAMAuthenticator k) region' bucket endpoint_arg w
      = create_cos_uploader (IAMAuthenticator k) region bucket endpoint_arg w.
Proof.
  intros ep c. split.
  - unfold create_cos_uploader, COSUploader_init, boto3_client,
      token_manager_apikey, getenv_default, bind, gets, ret, reraise.
    subst c ep.
    destruct endpoint_arg as [given|]; cbn [default from_option id];
      by destruct (client_error w _).
  - intros region' [given ->]. reflexivity.
Qed.

Lemma create_cos_uploader_endpoint_witness :
  create_cos_uploader (IAMAuthenticator "key") "eu-de" "bkt"
    (Some "s3.private.example") (sample_world [] token_granted None)
  = create_cos_uploader (IAMAuthenticator "key") "us-south" "bkt"
      (Some "s3.private.example") (sample_world [] token_granted None).
Proof.
  apply (proj2 (create_cos_uploader_endpoint "key" "us-south" "bkt"
                  (Some "s3.private.example")
                  (sample_world [] token_granted None))).
  eauto.
Defined.

(** *** The builder and the source tree *)

(** The directories made for the output path lie along that path: none
    is at or below a root the output file is outside of. *)
Lemma mkdir_parents_outside (w : World) (root : list string)
    (output_file : Path) (r : result unit) (f1 : gmap (list string) Node) :
  ".." ∉ parts output_file →
  strip_prefix root (written_key (cwd w) output_file) = None →
  mkdir_parents (fs w) (cwd w) (anchor (parent output_file))
    (reverse (parts (parent output_file))) = (r, f1) →
  ∀ rel, f1 !! (root ++ rel) = fs w !! (root ++ rel).
Proof.
  intros Hplain Hout Hmk rel.
  assert (".." ∉ reverse (parts (parent output_file))) as Hplain'.
  { rewrite elem_of_reverse. unfold parent. cbn [parts].
    by apply not_in_removelast. }
  pose proof (mkdir_parents_changes _ _ _ _ _ _ Hmk Hplain') as Hchanges.
  rewrite reverse_involutive in Hchanges.
  destruct (Hchanges (root ++ rel)) as [H | (_ & _ & Hpre)]; [done |].
  exfalso.
  assert (strip_prefix root (root ++ rel) ≠ None) as Hk
    by (by rewrite strip_prefix_app).
  apply Hk. eapply strip_prefix_None_prefix; [exact Hout |].
  etrans; [exact Hpre |].
  unfold written_key, parent. cbn [anchor parts].
  apply prefix_app, prefix_removelast.
Qed.

(** X10.  [create_source_archive] does not touch the source tree: when the
    output path has no [..] component and the file it names lies outside
    the source root, every path at or below the root holds after the
    call, successful or not, what it held before. *)
Theorem create_source_archive_keeps_source
    (self : COSUploader) (source_dir : string) (output_path : option string)
    (exclude_patterns : option (list string)) (w : World) :
  let root := abs_parts (cwd w) (Path_of_str source_dir) in
  let output_file := Path_of_str (chosen_output output_path w) in
  ".." ∉ parts output_file →
  strip_prefix root (written_key (cwd w) output_file) = None →
  ∀ rel,
    fs (snd (create_source_archive self source_dir output_path
               exclude_patterns w)) !! (root ++ rel)
    = fs w !! (root ++ rel).
Proof.
  intros root output_file Hplain Hout rel.
  destruct (stat_abs (fs w) root) as [n|] eqn:E.
  - rewrite create_source_archive_cases by (cbn [parts]; fold root; congruence).
    cbv zeta. fold output_file.
    set (w1 := match output_path with
               | Some _ => w
               | None => set_ticks (S (ticks w)) w
               end).
    assert (cwd w1 = cwd w) as Hcwd by (unfold w1; by destruct output_path).
    destruct (mkdir_parents (fs w) (cwd w) _ _) as [r f1] eqn:Hmk.
    pose proof (mkdir_parents_outside w root output_file r f1 Hplain Hout Hmk)
      as Hf1.
    destruct r as [[]|e]; [| cbn [snd fs set_fs]; apply Hf1].
    destruct (zip_open_w output_file (set_fs f1 w1)) as [[out_key|e] w2]
      eqn:Hopen.
    + destruct (walk_time_agree w root output_file f1 out_key w1 w2)
        as (Hkey & _ & Hbelow & _); try done.
      { apply abs_parts_plain. }
      { congruence. }
      assert (out_key ≠ root ++ rel) as Hne.
      { intros Heq. rewrite Hkey in Heq.
        rewrite Heq, strip_prefix_app in Hout. done. }
      destruct (snd (write_entries _ _ _ _ _)); cbn [snd fs set_fs];
        by rewrite lookup_insert_ne.
    + destruct (zip_open_w_cases output_file (set_fs f1 w1))
        as [[e' He] | (key & Hk & _)]; [| congruence].
      rewrite He in Hopen. injection Hopen as _ <-.
      cbn [snd fs set_fs]. apply Hf1.
  - by rewrite create_source_archive_missing.
Qed.

Lemma create_source_archive_keeps_source_witness :
  fs (snd (create_source_archive sample_uploader "." None None
             (sample_world [] token_granted None)))
    !! (["proj"] ++ [".git"; "config"])
  = sample_fs !! (["proj"] ++ [".git"; "config"]).
Proof.
  apply (create_source_archive_keeps_source sample_uploader "." None None
           (sample_world [] token_granted None)).
  - apply (bool_decide_unpack _); vm_compute; exact I.
  - vm_compute; reflexivity.
Defined.

Lemma NoDup_omap_inj {A B : Type} (f : A → option B) (l : list A) :
  (∀ x y z, x ∈ l → y ∈ l → f x = Some z → f y = Some z → x = y) →
  NoDup l → NoDup (omap f l).
Proof.
  induction l as [|x l IH]; intros Hinj Hnd; [constructor |].
  apply NoDup_cons in Hnd as [Hx Hnd]. cbn [omap list_omap].
  assert (NoDup (omap f l)) as Hrest.
  { apply IH; [| done]. intros x' y' z Hx' Hy'.
    apply Hinj; by right. }
  destruct (f x) as [z|] eqn:Hfx; [| done].
  apply NoDup_cons. split; [| done].
  intros (y & Hy & Hfy)%list_elem_of_omap.
  assert (x = y) as -> by (apply (Hinj x y z); [by left | by right | done ..]).
  done.
Qed.

Lemma fst_omap {A B C : Type} (g : A → option (B * C)) (l : list A) :
  (omap g l).*1 = omap (fun x => fst <$> g x) l.
Proof.
  induction l as [|x l IH]; [done |]. cbn [omap list_omap].
  destruct (g x) as [[b c]|]; cbn [fmap option_fmap option_map];
    [cbn [fmap list_fmap]; by rewrite <- IH | done].
Qed.

(** The walk yields every path once. *)
Lemma rglob_NoDup (f : gmap (list string) Node) (source_path : Path) :
  NoDup (rglob f source_path).
Proof.
  unfold rglob. apply NoDup_omap_inj; [| apply NoDup_map_to_list].
  intros [k1 n1] [k2 n2] item H1 H2 Hw1 Hw2. cbn [fst] in Hw1, Hw2.
  assert (∀ k, walk_item f source_path k = Some item → k = parts item)
    as Hkey.
  { intros k Hk. unfold walk_item in Hk.
    destruct (strip_prefix _ k) as [[|x rel]|] eqn:Hs; try done.
    apply strip_prefix_Some in Hs as ->.
    destruct (reach _ _ _); [| done]. by injection Hk as <-. }
  apply Hkey in Hw1, Hw2. subst k1 k2. f_equal.
  apply elem_of_map_to_list in H1, H2. congruence.
Qed.

(** X11.  No name occurs twice in an archive, whether the loop runs to its
    end or is cut short by the zip library ([reject]): each file of the
    tree is written at most once, under a relative name of its own. *)
Theorem archive_names_distinct
    (f : gmap (list string) Node) (reject : list string → option exn)
    (rules : list string) (source_path : Path) :
  NoDup (fst (write_entries f reject rules source_path
                (rglob f source_path))).*1
  ∧ ∀ arcname,
      arcname ∈ (fst (write_entries f reject rules source_path
                        (rglob f source_path))).*1 →
      anchor arcname = false ∧ parts arcname ≠ [].
Proof.
  destruct (write_entries_prefix f reject rules source_path
              (rglob f source_path)) as [rest Hrest].
  assert (NoDup (omap (entry_of f rules source_path)
                   (rglob f source_path)).*1) as Hall.
  { rewrite fst_omap. apply NoDup_omap_inj; [| apply rglob_NoDup].
    intros x y arc Hx Hy Hex Hey.
    apply rglob_walked in Hx as (rx & Hrx & ->), Hy as (ry & Hry & ->).
    unfold entry_of in Hex, Hey.
    destruct (stat_abs f (parts (joinpath source_path rx))) as [[dx |]|];
      try done.
    destruct (stat_abs f (parts (joinpath source_path ry))) as [[dy |]|];
      try done.
    rewrite should_exclude_walked, relative_to_joinpath in Hex, Hey by done.
    destruct (exclude_loop rules (List.last rx "") (join "/" rx) rx);
      [done |].
    destruct (exclude_loop rules (List.last ry "") (join "/" ry) ry);
      [done |].
    cbn in Hex, Hey. congruence. }
  rewrite Hrest, fmap_app in Hall. apply NoDup_app in Hall as (Hnd & _ & _).
  split; [exact Hnd |].
  intros arcname ((arc & data) & -> & Hin)%list_elem_of_fmap.
  assert ((arc, data) ∈ omap (entry_of f rules source_path)
                          (rglob f source_path)) as Hin'
    by (rewrite Hrest; apply elem_of_app; by left).
  apply elem_of_archive in Hin' as (rel & -> & [Hne _] & _). done.
Qed.

Lemma archive_names_distinct_witness :
  let names :=
    (fst (write_entries sample_fs (fun _ => None) DEFAULT_EXCLUDE_PATTERNS
            (mkPath true ["proj"])
            (rglob sample_fs (mkPath true ["proj"])))).*1 in
  NoDup names ∧ names = [mkPath false ["a.txt"]]
  ∧ parts (mkPath false ["a.txt"]) ≠ [].
Proof.
  intros names.
  assert (names = [mkPath false ["a.txt"]]) as Heq
    by (vm_compute; reflexivity).
  destruct (archive_names_distinct sample_fs (fun _ => None)
              DEFAULT_EXCLUDE_PATTERNS (mkPath true ["proj"]))
    as [Hnd Hall].
  split; [exact Hnd |]. split; [exact Heq |].
  apply (Hall (mkPath false ["a.txt"])).
  change (mkPath false ["a.txt"] ∈ names). rewrite Heq.
  apply list_elem_of_here.
Defined.

(** *** [upload_source] and [main] *)

Lemma upload_source_code_Ok
    (self : COSUploader) (source_dir deployment_id : string)
    (exclude_patterns : option (list string)) (w w' : World)
    (cos_uri zip_path : string) :
  upload_source_code self source_dir deployment_id exclude_patterns w
  = (Ok (cos_uri, zip_path), w') →
  let key := object_key deployment_id (clock w (ticks w)) in
  cos_uri = locator (bucket_name self) key
  ∧ is_Some (bucket_objects w' !! (bucket_name self, key))
  ∧ trace w' = trace w ++ [EvUpload (bucket_name self) key]
  ∧ ∃ w1 data,
      create_source_archive self source_dir None exclude_patterns
        (set_ticks (S (ticks w)) w) = (Ok zip_path, w1)
      ∧ stat (fs w1) (cwd w1) (Path_of_str zip_path) = Some (File data)
      ∧ bucket_objects w' !! (bucket_name self, key) = Some data
      ∧ fs w' = fs w1 ∧ cwd w' = cwd w1.
Proof.
  intros Hrun key.
  rewrite upload_source_code_cases in Hrun. fold key in Hrun.
  pose proof (create_source_archive_frame self source_dir None
                exclude_patterns (set_ticks (S (ticks w)) w)) as Hframe.
  cbv zeta in Hframe.
  destruct (create_source_archive _ _ _ _ _) as [[zip|e] w1];
    [| discriminate].
  cbn [snd trace bucket_objects cwd cos_put environ set_ticks] in Hframe.
  destruct Hframe as (Htrace & _ & _ & _ & _).
  rewrite upload_file_cases in Hrun. cbv zeta in Hrun.
  cbn [default] in Hrun.
  destruct (stat _ _ _) as [[data |]|] eqn:Hstat; try discriminate.
  destruct (cos_put w1 _ _); [discriminate |].
  injection Hrun as <- <- <-.
  cbn [trace bucket_objects set_bucket_objects log_event fs cwd].
  split; [reflexivity |]. rewrite lookup_insert_eq.
  split; [eauto |]. split; [by rewrite Htrace |].
  exists w1, data. done.
Qed.

Lemma create_cos_uploader_cases
    (a : Authenticator) (region bucket : string) (endpoint_arg : option string)
    (w : World) :
  match a with
  | IAMAuthenticator k =>
      match client_error w (factory_client k region endpoint_arg w) with
      | None =>
          ∃ u, create_cos_uploader a region bucket endpoint_arg w = (Ok u, w)
               ∧ bucket_name u = bucket
      | Some e =>
          create_cos_uploader a region bucket endpoint_arg w = (Raise e, w)
      end
  | BearerTokenAuthenticator _ =>
      create_cos_uploader a region bucket endpoint_arg w
      = (Raise (Exn AttributeError
           "'BearerTokenAuthenticator' object has no attribute 'token_manager'"),
         w)
  end.
Proof.
  destruct a as [k | t].
  - unfold create_cos_uploader, COSUploader_init, boto3_client,
      token_manager_apikey, getenv_default, factory_client, bind, gets, ret,
      reraise.
    cbn [default from_option id].
    destruct endpoint_arg as [ep|]; cbn [default from_option id];
      destruct (client_error w _); eauto.
  - unfold create_cos_uploader, COSUploader_init; run; eauto.
Qed.

(** X12.  [upload_source], the one-call helper.  With a bearer credential it
    raises [AttributeError] before anything is archived or sent.  With an
    API-key credential, whenever it returns, the locator is that of the key
    [deployments/{id}/{stamp}_source.zip] in the bucket given, the object
    is stored there, and [id] is the argument when one is passed, else the
    value of [VERCEL_DEPLOYMENT_ID], else [local]. *)
Theorem upload_source_deployment_id
    (a : Authenticator) (source_path bucket region : string)
    (endpoint_arg dep : option string) (w : World) :
  match a with
  | BearerTokenAuthenticator _ =>
      ∃ msg, upload_source a source_path bucket region endpoint_arg dep w
             = (Raise (Exn AttributeError msg), w)
  | IAMAuthenticator _ =>
      ∀ uri w',
        upload_source a source_path bucket region endpoint_arg dep w
        = (Ok uri, w') →
        let id :=
          default (default "local" (environ w !! "VERCEL_DEPLOYMENT_ID")) dep in
        let key := object_key id (clock w (ticks w)) in
        uri = locator bucket key
        ∧ is_Some (bucket_objects w' !! (bucket, key))
        ∧ trace w' = trace w ++ [EvUpload bucket key]
  end.
Proof.
  pose proof (create_cos_uploader_cases a region bucket endpoint_arg w)
    as Hfactory.
  destruct a as [k | t].
  - intros uri w' Hrun id key.
    unfold upload_source, bind in Hrun.
    assert ((match dep with
             | Some s => ret s
             | None => getenv_default "VERCEL_DEPLOYMENT_ID" "local"
             end) w = (Ok id, w)) as Hid.
    { unfold id, getenv_default, bind, gets, ret.
      destruct dep; [reflexivity |].
      by destruct (environ w !! "VERCEL_DEPLOYMENT_ID"). }
    rewrite Hid in Hrun.
    destruct (client_error w _);
      [rewrite Hfactory in Hrun; discriminate |].
    destruct Hfactory as (u & Hu & Hbucket). rewrite Hu in Hrun.
    destruct (upload_source_code u source_path id None w)
      as [[[cos_uri zip_path]|e] w1] eqn:Hup; [| discriminate].
    unfold ret in Hrun. cbn [fst] in Hrun. injection Hrun as <- <-.
    apply upload_source_code_Ok in Hup as (H1 & H2 & H3 & _).
    rewrite Hbucket in H1, H2, H3. done.
  - eexists. unfold upload_source, bind.
    destruct dep as [d|]; unfold getenv_default, bind, gets, ret;
      [| destruct (environ w !! "VERCEL_DEPLOYMENT_ID")];
      by rewrite Hfactory.
Qed.

Lemma upload_source_deployment_id_witness :
  let out := upload_source (IAMAuthenticator "key") "." "bkt" "us-south"
               None None
               (sample_world [("VERCEL_DEPLOYMENT_ID", "dpl_1")]
                  token_granted None) in
  fst out = Ok "cos://bkt/deployments/dpl_1/20240102_030405_source.zip"
  ∧ trace (snd out)
    = [EvUpload "bkt" "deployments/dpl_1/20240102_030405_source.zip"].
Proof.
  intros out.
  assert (out
          = (Ok "cos://bkt/deployments/dpl_1/20240102_030405_source.zip",
             snd out)) as Hrun by (vm_compute; reflexivity).
  destruct (upload_source_deployment_id (IAMAuthenticator "key") "." "bkt"
              "us-south" None None
              (sample_world [("VERCEL_DEPLOYMENT_ID", "dpl_1")]
                 token_granted None) _ (snd out) Hrun)
    as (_ & _ & Htrace).
  split; [by rewrite Hrun | exact Htrace].
Defined.

(** The effects of [get_authenticator] on a returning run with no token
    for the exchange: none. *)
Lemma get_authenticator_fallback_Ok (tp api_key oidc_token : option string)
    (w w' : World) (a : Authenticator) :
  truthy (resolved oidc_token "VERCEL_OIDC_TOKEN" w) && truthy tp = false →
  get_authenticator tp api_key oidc_token w = (Ok a, w') →
  w' = w
  ∧ ∃ k, a = IAMAuthenticator k ∧ k ≠ ""
         ∧ has_bad_first_or_last_char k = false
         ∧ resolved api_key "IBM_CLOUD_API_KEY" w = Some k.
Proof.
  intros Hno Hrun. rewrite get_authenticator_fallback in Hrun by done.
  destruct (resolved api_key "IBM_CLOUD_API_KEY" w) as [k|]; [| discriminate].
  destruct (String.eqb_spec k ""); [discriminate |].
  rewrite new_IAMAuthenticator_cases in Hrun.
  destruct (has_bad_first_or_last_char k) eqn:Hbad; [discriminate |].
  injection Hrun as <- <-. eauto 10.
Qed.

(** X13.  With OIDC configured, [main] never uploads.  When the environment
    holds a token and the configuration a trusted profile, [main] exits
    with 1 whatever the reply of the identity service.  If the
    application name cannot be derived it stops there, before any network
    call.  Otherwise it posts the exchange, once: a failed exchange is
    fatal, and the bearer credential of a successful one is refused by
    the uploader factory.  Nothing else happens: the final world is the
    one the configuration was loaded in, with at most the one POST
    recorded. *)
Theorem main_oidc_never_uploads
    (load_config : M DeploymentConfig) (config : DeploymentConfig)
    (w w0 : World) :
  load_config w = (Ok config, w0) →
  truthy (environ w0 !! "VERCEL_OIDC_TOKEN") = true →
  truthy (trusted_profile_id (ibm_cloud config)) = true →
  main load_config w
  = (1%Z,
     match get_app_name (vercel config) with
     | Ok _ =>
         log_event
           (exchange_call (environ w0 !! "VERCEL_OIDC_TOKEN")
              (trusted_profile_id (ibm_cloud config))) w0
     | Raise _ => w0
     end).
Proof.
  intros Hload Htok Htp.
  rewrite main_unfold, Hload. unfold main_body, bind, lift.
  destruct (get_app_name (vercel config)) as [app_name|e]; [| reflexivity].
  rewrite get_authenticator_oidc_branch by done.
  cbn [resolved]. rewrite oidc_exchange_cases by done. cbv zeta.
  change ("https://iam.cloud.ibm.com" +:+ "/identity/token")
    with "https://iam.cloud.ibm.com/identity/token".
  fold (exchange_call (environ w0 !! "VERCEL_OIDC_TOKEN")
          (trusted_profile_id (ibm_cloud config))).
  destruct (iam w0 _ _) as [msg | [[msg|] [[| b | z | s | l | fields]|]]];
    cbn [http_error json_body]; try reflexivity.
  destruct (json_truthy _); [| reflexivity].
  pose proof (create_cos_uploader_cases
                (BearerTokenAuthenticator
                   (default JNull (assoc "access_token" fields)))
                (region (ibm_cloud config)) (cos_bucket (ibm_cloud config))
                (cos_endpoint (ibm_cloud config))
                (log_event
                   (exchange_call (environ w0 !! "VERCEL_OIDC_TOKEN")
                      (trusted_profile_id (ibm_cloud config))) w0)) as Hf.
  cbv beta iota in Hf. rewrite Hf. reflexivity.
Qed.

Lemma main_oidc_never_uploads_witness :
  main (ret (sample_config (Some "Profile-1") true))
    (sample_world [("VERCEL_OIDC_TOKEN", "jwt")] token_granted None)
  = (1%Z,
     log_event (exchange_call (Some "jwt") (Some "Profile-1"))
       (sample_world [("VERCEL_OIDC_TOKEN", "jwt")] token_granted None)).
Proof.
  apply (main_oidc_never_uploads
           (ret (sample_config (Some "Profile-1") true))
           (sample_config (Some "Profile-1") true)
           (sample_world [("VERCEL_OIDC_TOKEN", "jwt")] token_granted None)
           (sample_world [("VERCEL_OIDC_TOKEN", "jwt")] token_granted None));
    vm_compute; reflexivity.
Defined.

(** X14.  Exit code 0 means the source was uploaded with an API key.  When
    [main] exits with 0 the configuration was loaded, the credential was
    the non-empty, well-formed [IBM_CLOUD_API_KEY] (no token exchange took
    place), the only network call after loading is one upload to the
    configured bucket, under the key of the configured deployment id and
    the time the upload started, and the object stored under that key is
    the content of the archive file that [create_source_archive] wrote
    for the configured source directory. *)
Theorem main_success_uploaded
    (load_config : M DeploymentConfig) (w : World) :
  fst (main load_config w) = 0%Z →
  ∃ config w0 k,
    load_config w = (Ok config, w0)
    ∧ environ w0 !! "IBM_CLOUD_API_KEY" = Some k ∧ k ≠ ""
    ∧ has_bad_first_or_last_char k = false
    ∧ truthy (environ w0 !! "VERCEL_OIDC_TOKEN")
      && truthy (trusted_profile_id (ibm_cloud config)) = false
    ∧ let w' := snd (main load_config w) in
      let key :=
        object_key (deployment_id (vercel config)) (clock w0 (ticks w0)) in
      trace w' = trace w0 ++ [EvUpload (cos_bucket (ibm_cloud config)) key]
      ∧ ∃ u zip w1 data,
          create_cos_uploader (IAMAuthenticator k) (region (ibm_cloud config))
            (cos_bucket (ibm_cloud config)) (cos_endpoint (ibm_cloud config))
            w0 = (Ok u, w0)
          ∧ create_source_archive u (source_dir config) None None
              (set_ticks (S (ticks w0)) w0) = (Ok zip, w1)
          ∧ stat (fs w1) (cwd w1) (Path_of_str zip) = Some (File data)
          ∧ bucket_objects w' !! (cos_bucket (ibm_cloud config), key)
            = Some data.
Proof.
  rewrite main_unfold.
  destruct (load_config w) as [[config|e] w0]; [| discriminate].
  destruct (main_body config w0) as [[[]|e] w'] eqn:Hbody; [| discriminate].
  intros _. exists config, w0.
  unfold main_body, bind, lift in Hbody.
  destruct (get_app_name (vercel config)) as [app_name|e]; [| discriminate].
  destruct (truthy (environ w0 !! "VERCEL_OIDC_TOKEN")
            && truthy (trusted_profile_id (ibm_cloud config))) eqn:Hoidc.
  { apply andb_true_iff in Hoidc as [Htok Htp].
    rewrite get_authenticator_oidc_branch in Hbody by done.
    cbn [resolved] in Hbody. rewrite oidc_exchange_cases in Hbody by done.
    cbv zeta in Hbody.
    destruct (iam w0 _ _) as [msg | [[msg|] [[| b | z | s | l | fields]|]]];
      cbn [http_error json_body] in Hbody; try discriminate.
    destruct (json_truthy _); [| discriminate].
    match type of Hbody with
    | context [create_cos_uploader ?a ?r ?b ?e ?w1] =>
        pose proof (create_cos_uploader_cases a r b e w1) as Hf
    end.
    cbv beta iota in Hf. rewrite Hf in Hbody. discriminate. }
  destruct (get_authenticator _ None None w0) as [[a|e] w1] eqn:Hauth;
    [| discriminate].
  apply get_authenticator_fallback_Ok in Hauth
    as (-> & k & -> & Hk & Hgood & Henv); [| exact Hoidc].
  cbn [resolved] in Henv. exists k.
  split; [reflexivity |]. split; [exact Henv |]. split; [exact Hk |].
  split; [exact Hgood |]. split; [reflexivity |].
  pose proof (create_cos_uploader_cases (IAMAuthenticator k)
                (region (ibm_cloud config)) (cos_bucket (ibm_cloud config))
                (cos_endpoint (ibm_cloud config)) w0) as Hfactory.
  cbv beta iota in Hfactory.
  destruct (client_error w0 _);
    [rewrite Hfactory in Hbody; discriminate |].
  destruct Hfactory as (u & Hu & Hbucket).
  rewrite Hu in Hbody.
  destruct (upload_source_code u _ _ None w0)
    as [[[cos_uri zip_path]|e] w2] eqn:Hup; [| discriminate].
  apply upload_source_code_Ok in Hup
    as (_ & _ & Htrace & w1 & data & Harchive & Hstat & Hstored & _).
  rewrite Hbucket in Hstored, Htrace.
  cbn [snd] in *.
  assert (trace w' = trace w2 ∧ bucket_objects w' = bucket_objects w2)
    as [Htr Hbk].
  { destruct (cleanup_artifacts config).
    - unfold unlink_missing_ok in Hbody.
      destruct (locate (fs w2) _ _) as [key| |]; try discriminate.
      + destruct (node_at (fs w2) key) as [[|]|]; try discriminate;
          by injection Hbody as <-.
      + by injection Hbody as <-.
    - unfold ret in Hbody. by injection Hbody as <-. }
  rewrite Htr, Hbk. split; [exact Htrace |].
  exists u, zip_path, w1, data. done.
Qed.

Lemma main_success_uploaded_witness :
  let out := main (ret (sample_config None true))
               (sample_world [("IBM_CLOUD_API_KEY", "key")] token_granted
                  None) in
  fst out = 0%Z
  ∧ trace (snd out)
    = [EvUpload "bkt" "deployments/dep123/20240102_030405_source.zip"].
Proof.
  intros out.
  assert (fst out = 0%Z) as Hexit by (vm_compute; reflexivity).
  split; [exact Hexit |].
  destruct (main_success_uploaded (ret (sample_config None true))
              (sample_world [("IBM_CLOUD_API_KEY", "key")] token_granted None)
              Hexit)
    as (config & w0 & k & Hload & _ & _ & _ & _ & Htrace & _).
  unfold ret in Hload. injection Hload as <- <-. exact Htrace.
Defined.

(** ** [core/config.py] *)

Lemma chars_filter_map (p : ascii → bool) (f : ascii → ascii) (s : string) :
  list_ascii_of_string (filter_chars p (map_chars f s))
  = List.filter p (List.map f (list_ascii_of_string s)).
Proof.
  induction s as [|c s IH]; [reflexivity |].
  cbn [map_chars filter_chars list_ascii_of_string List.map List.filter].
  destruct (p (f c)); cbn [list_ascii_of_string]; by rewrite IH.
Qed.

Lemma map_chars_compose (f g : ascii → ascii) (s : string) :
  map_chars f (map_chars g s) = map_chars (fun c => f (g c)) s.
Proof.
  induction s as [|c s IH]; [reflexivity |].
  cbn [map_chars]. by rewrite IH.
Qed.

(** What the three rewriting steps of [get_app_name] make of one
    character, and which characters pass its filter. *)
Lemma sanitized_char_kept (c : ascii) :
  let c' :=
    (if Ascii.eqb (if Ascii.eqb (lower_char c) "/" then "-"
                   else lower_char c) "_"
     then "-"
     else if Ascii.eqb (lower_char c) "/" then "-" else lower_char c)%char in
  (isalnum c' || Ascii.eqb c' "-" = name_char c)
  ∧ (isalnum c' || Ascii.eqb c' "-" = true →
     islower c' || isdigit c' || Ascii.eqb c' "-" = true).
Proof.
  cbv zeta. split; [each_ascii c |]. each_ascii c; intros H; discriminate H.
Qed.

Lemma alpha_kept_lower (c : ascii) :
  isalpha c = true → islower c || isdigit c || Ascii.eqb c "-" = true →
  islower c = true.
Proof. each_ascii c; intros H; discriminate H. Qed.

Lemma length_take_chars (n : nat) (s : string) :
  (String.length (take_chars n s) <= n)%nat.
Proof.
  revert s. induction n as [|n IH]; intros [|c s]; cbn; try lia.
  specialize (IH s). lia.
Qed.

Lemma sanitized_ref_chars (ref : string) :
  let sanitized :=
    filter_chars (fun c => isalnum c || Ascii.eqb c "-")
      (replace_char "_" "-" (replace_char "/" "-" (lower ref))) in
  (sanitized = "" ↔
   ∀ ch, ch ∈ list_ascii_of_string ref → name_char ch = false)
  ∧ ∀ ch, ch ∈ list_ascii_of_string sanitized →
          islower ch || isdigit ch || Ascii.eqb ch "-" = true.
Proof.
  cbv zeta. unfold replace_char, lower. rewrite !map_chars_compose.
  set (p := fun c : ascii => isalnum c || Ascii.eqb c "-").
  set (f := fun c : ascii => _).
  assert (∀ c, p (f c) = name_char c) as Hkept
    by (intros c; apply (sanitized_char_kept c)).
  assert (∀ c, p (f c) = true
               → islower (f c) || isdigit (f c) || Ascii.eqb (f c) "-" = true)
    as Hclass by (intros c; apply (sanitized_char_kept c)).
  split.
  - assert (filter_chars p (map_chars f ref) = ""
            ↔ list_ascii_of_string (filter_chars p (map_chars f ref)) = [])
      as -> by (destruct (filter_chars p (map_chars f ref)); done).
    rewrite chars_filter_map. clear Hclass.
    induction (list_ascii_of_string ref) as [|c l IH].
    + split; [| done]. intros _ ch Hin. by apply elem_of_nil in Hin.
    + cbn [List.map List.filter]. rewrite Hkept.
      destruct (name_char c) eqn:Hc.
      * split; [done |]. intros Hall.
        specialize (Hall c (list_elem_of_here _ _)). congruence.
      * rewrite IH. split.
        -- intros Hall ch [-> | Hin]%elem_of_cons; [done | by apply Hall].
        -- intros Hall ch Hin. apply Hall. by right.
  - intros ch Hin. rewrite chars_filter_map in Hin.
    apply list_elem_of_In, filter_In in Hin as [Hin Hp].
    apply in_map_iff in Hin as (c & <- & _). by apply Hclass.
Qed.

(** X15.  When [get_app_name] fails.  For an ASCII git ref, [get_app_name]
    raises [IndexError] exactly when the ref contains no letter, digit,
    hyphen, slash or underscore (the empty ref is one such); on every
    other ref it returns a name. *)
Theorem get_app_name_raises_iff (self : VercelConfig) :
  isascii (git_commit_ref self) = true →
  ((∃ msg, get_app_name self = Raise (Exn IndexError msg))
   ↔ ∀ ch, ch ∈ list_ascii_of_string (git_commit_ref self) →
           name_char ch = false)
  ∧ ((∃ app_name, get_app_name self = Ok app_name)
     ↔ ∃ ch, ch ∈ list_ascii_of_string (git_commit_ref self)
             ∧ name_char ch = true).
Proof.
  intros _.
  destruct (sanitized_ref_chars (git_commit_ref self)) as [Hempty _].
  cbv zeta in Hempty. unfold get_app_name.
  destruct (filter_chars _ _) as [|c0 s0].
  - split.
    + split; [intros _; by apply Hempty | eauto].
    + split; [by intros [? ?] |].
      intros (ch & Hin & Hc). rewrite (proj1 Hempty eq_refl ch Hin) in Hc.
      done.
  - assert (∃ ch, ch ∈ list_ascii_of_string (git_commit_ref self)
                  ∧ name_char ch = true) as Hsome.
    { clear -Hempty.
      induction (list_ascii_of_string (git_commit_ref self)) as [|c l IH].
      - exfalso. assert (String c0 s0 = "") as Habs; [| done].
        apply Hempty. intros ch Hin. by apply elem_of_nil in Hin.
      - destruct (name_char c) eqn:Hc.
        + exists c. split; [by left | done].
        + destruct IH as (ch & Hin & Hch).
          * split; [done |]. intros Hall. exfalso.
            assert (String c0 s0 = "") as Habs; [| done].
            apply Hempty. intros ch [-> | Hin]%elem_of_cons; [done |].
            by apply Hall.
          * exists ch. split; [by right | done]. }
    split.
    + split; [by intros [? ?] |]. intros Hall.
      destruct Hsome as (ch & Hin & Hc). rewrite (Hall ch Hin) in Hc. done.
    + split; [done | eauto].
Qed.

Lemma get_app_name_raises_iff_witness :
  (∃ msg,
     get_app_name
       {| git_commit_sha := "unknown"; git_commit_ref := "";
          deployment_id := "local"; project_name := "app";
          checks_token := None |}
     = Raise (Exn IndexError msg)).
Proof.
  refine (proj2 (proj1 (get_app_name_raises_iff
                          {| git_commit_sha := "unknown"; git_commit_ref := "";
                             deployment_id := "local"; project_name := "app";
                             checks_token := None |} eq_refl)) _).
  intros ch Hin. by apply elem_of_nil in Hin.
Defined.

(** X16.  The shape of an application name.  For an ASCII git ref, a name
    returned by [get_app_name] has at most 63 characters and is the
    beginning of [{project_name}-{part}], where [part] starts with a
    lower-case letter and consists of lower-case letters, digits and
    hyphens only.  (The project name is taken as it is.) *)
Theorem get_app_name_shape (self : VercelConfig) (app_name : string) :
  isascii (git_commit_ref self) = true →
  get_app_name self = Ok app_name →
  (String.length app_name <= 63)%nat
  ∧ ∃ (c0 : ascii) (rest : string),
      app_name = take_chars 63 (project_name self +:+ "-" +:+ String c0 rest)
      ∧ islower c0 = true
      ∧ ∀ ch, ch ∈ list_ascii_of_string (String c0 rest) →
              islower ch || isdigit ch || Ascii.eqb ch "-" = true.
Proof.
  intros _ Hrun.
  destruct (sanitized_ref_chars (git_commit_ref self)) as [_ Hclass].
  cbv zeta in Hclass. unfold get_app_name in Hrun.
  destruct (filter_chars _ _) as [|c0 s0]; [discriminate |].
  assert (∀ a b : string, @Ok string a = Ok b → a = b) as Hinj
    by (intros a b H; congruence).
  apply Hinj in Hrun. subst app_name. clear Hinj.
  split; [apply length_take_chars |].
  destruct (isalpha c0) eqn:Halpha; cbn [negb].
  - exists c0, s0. split; [reflexivity |]. split; [| exact Hclass].
    apply alpha_kept_lower; [exact Halpha |].
    apply Hclass. cbn [list_ascii_of_string]. by left.
  - exists "a"%char, ("pp-" +:+ String c0 s0). split; [reflexivity |].
    split; [reflexivity |].
    intros ch Hin. cbn [append list_ascii_of_string] in Hin.
    repeat (apply elem_of_cons in Hin as [-> | Hin]; [reflexivity |]).
    apply Hclass. exact Hin.
Qed.

Lemma get_app_name_shape_witness :
  get_app_name
    {| git_commit_sha := "unknown"; git_commit_ref := "Feature/Add_1";
       deployment_id := "local"; project_name := "app";
       checks_token := None |}
  = Ok "app-feature-add-1"
  ∧ (String.length "app-feature-add-1" <= 63)%nat.
Proof.
  assert (get_app_name
            {| git_commit_sha := "unknown"; git_commit_ref := "Feature/Add_1";
               deployment_id := "local"; project_name := "app";
               checks_token := None |}
          = Ok "app-feature-add-1") as Hrun by (vm_compute; reflexivity).
  split; [exact Hrun |].
  exact (proj1 (get_app_name_shape
                  {| git_commit_sha := "unknown";
                     git_commit_ref := "Feature/Add_1";
                     deployment_id := "local"; project_name := "app";
                     checks_token := None |}
                  "app-feature-add-1" eq_refl Hrun)).
Defined.

(** X17.  A git ref without a usable character stops [main] at once: when the
    loaded configuration's ref is ASCII and has no letter, digit, hyphen,
    slash or underscore (an empty ref, say), [main] exits with 1 in the
    world the configuration was loaded in: no credential is looked up,
    nothing is posted, archived or uploaded. *)
Theorem main_unusable_git_ref
    (load_config : M DeploymentConfig) (config : DeploymentConfig)
    (w w0 : World) :
  load_config w = (Ok config, w0) →
  isascii (git_commit_ref (vercel config)) = true →
  (∀ ch, ch ∈ list_ascii_of_string (git_commit_ref (vercel config)) →
         name_char ch = false) →
  main load_config w = (1%Z, w0).
Proof.
  intros Hload _ Hall.
  destruct (sanitized_ref_chars (git_commit_ref (vercel config)))
    as [Hempty _].
  cbv zeta in Hempty. apply Hempty in Hall.
  rewrite main_unfold, Hload. unfold main_body, bind, lift, get_app_name.
  rewrite Hall. reflexivity.
Qed.

(** X18.  [IBMCloudConfig.__post_init__] and the uploader factory.  After
    [__post_init__] the endpoint of a configuration is a non-empty string:
    the one given, or [s3.{region}.cloud-object-storage.appdomain.cloud]
    when none or an empty one was given; the other fields are untouched
    and a second run changes nothing.  The factory, called as [main] calls
    it on such a configuration, asks the library for a client for exactly
    that endpoint, and returns the uploader around that client unless the
    library refuses, in which case the library's exception goes through. *)
Theorem post_init_endpoint (self : IBMCloudConfig) :
  let config := IBMCloudConfig_post_init self in
  ∃ ep,
    cos_endpoint config = Some ep ∧ ep ≠ ""
    ∧ ep = (if truthy (cos_endpoint self)
            then default "" (cos_endpoint self)
            else "s3." +:+ region self
                 +:+ ".cloud-object-storage.appdomain.cloud")
    ∧ region config = region self
    ∧ project_id config = project_id self
    ∧ cos_bucket config = cos_bucket self
    ∧ trusted_profile_id config = trusted_profile_id self
    ∧ IBMCloudConfig_post_init config = config
    ∧ ∀ (k : string) (w : World),
        ∃ c,
          endpoint_url c = "https://" +:+ ep
          ∧ create_cos_uploader (IAMAuthenticator k) (region config)
              (cos_bucket config) (cos_endpoint config) w
            = (match client_error w c with
               | None =>
                   Ok {| bucket_name := cos_bucket config;
                         endpoint := ep;
                         client := c |}
               | Some e => Raise e
               end, w).
Proof.
  assert (∀ (k region bucket ep : string) (w : World),
            ∃ c,
              endpoint_url c = "https://" +:+ ep
              ∧ create_cos_uploader (IAMAuthenticator k) region bucket
                  (Some ep) w
                = (match client_error w c with
                   | None =>
                       Ok {| bucket_name := bucket; endpoint := ep;
                             client := c |}
                   | Some e => Raise e
                   end, w)) as Hfactory.
  { intros k region bucket ep w.
    exists {| ibm_api_key_id := k;
              ibm_service_instance_id :=
                default
                  "crn:v1:bluemix:public:cloud-object-storage:global:a/:::"
                  (environ w !! "IBM_COS_SERVICE_INSTANCE_ID");
              endpoint_url := "https://" +:+ ep |}.
    split; [reflexivity |].
    unfold create_cos_uploader, COSUploader_init, boto3_client,
      token_manager_apikey, getenv_default, bind, gets, ret, reraise.
    by destruct (client_error w _). }
  cbv zeta. unfold IBMCloudConfig_post_init.
  destruct (truthy (cos_endpoint self)) eqn:Htruthy; cbn [negb].
  - destruct (truthy_Some _ Htruthy) as (ep & Hep & Hne).
    exists ep. rewrite Htruthy. cbn [negb]. rewrite Hep.
    repeat (split; [done |]). intros k w. apply Hfactory.
  - exists ("s3." +:+ region self
            +:+ ".cloud-object-storage.appdomain.cloud").
    cbn [region project_id cos_bucket cos_endpoint trusted_profile_id
         truthy].
    repeat (split; [done |]). intros k w. apply Hfactory.
Qed.

(** X19.  [VercelConfig.from_environment] reads five variables and changes
    nothing.  A variable that is unset gets its default ([unknown],
    [main], [local], [app], and no checks token); one that is set, even to
    the empty string, is taken as it is.  So with [VERCEL_GIT_COMMIT_REF]
    and [VERCEL_PROJECT_NAME] unset the application name is [app-main],
    and with [VERCEL_GIT_COMMIT_REF] set to the empty string
    [get_app_name] raises [IndexError]. *)
Theorem from_environment_defaults (w : World) :
  ∃ config,
    from_environment w = (Ok config, w)
    ∧ git_commit_sha config
      = default "unknown" (environ w !! "VERCEL_GIT_COMMIT_SHA")
    ∧ git_commit_ref config
      = default "main" (environ w !! "VERCEL_GIT_COMMIT_REF")
    ∧ deployment_id config
      = default "local" (environ w !! "VERCEL_DEPLOYMENT_ID")
    ∧ project_name config
      = default "app" (environ w !! "VERCEL_PROJECT_NAME")
    ∧ checks_token config = environ w !! "VERCEL_CHECKS_TOKEN"
    ∧ (environ w !! "VERCEL_GIT_COMMIT_REF" = None →
       environ w !! "VERCEL_PROJECT_NAME" = None →
       get_app_name config = Ok "app-main")
    ∧ (environ w !! "VERCEL_GIT_COMMIT_REF" = Some "" →
       ∃ msg, get_app_name config = Raise (Exn IndexError msg)).
Proof.
  unfold from_environment, getenv_default, getenv, bind, gets, ret.
  eexists. split; [reflexivity |].
  cbn [git_commit_sha git_commit_ref deployment_id project_name checks_token].
  repeat (split; [reflexivity |]). split.
  - intros -> ->. reflexivity.
  - intros ->. eexists. reflexivity.
Qed.

Lemma from_environment_defaults_witness :
  ∃ config,
    from_environment (sample_world [] token_granted None)
    = (Ok config, sample_world [] token_granted None)
    ∧ get_app_name config = Ok "app-main".
Proof.
  destruct (from_environment_defaults (sample_world [] token_granted None))
    as (config & Hrun & _ & _ & _ & _ & _ & Hname & _).
  exists config. split; [exact Hrun |].
  apply Hname; reflexivity.
Defined.

(** X20.  The deployment id [from_environment] puts in the configuration is the
    one [upload_source] falls back on when it is given none: both read
    [VERCEL_DEPLOYMENT_ID] with the default [local], so the helper called
    without an id uploads under the key [main] would use. *)
Theorem upload_source_agrees_with_environment
    (a : Authenticator) (source_path bucket region : string)
    (endpoint_arg : option string) (w : World) (config : VercelConfig) :
  fst (from_environment w) = Ok config →
  upload_source a source_path bucket region endpoint_arg None w
  = upload_source a source_path bucket region endpoint_arg
      (Some (deployment_id config)) w.
Proof.
  unfold from_environment, getenv_default, getenv, bind, gets, ret.
  cbn [fst]. intros [= <-]. cbn [deployment_id].
  unfold upload_source, getenv_default, bind, gets, ret. reflexivity.
Qed.

Lemma upload_source_agrees_with_environment_witness :
  upload_source (IAMAuthenticator "key") "." "bkt" "us-south" None None
    (sample_world [] token_granted None)
  = upload_source (IAMAuthenticator "key") "." "bkt" "us-south" None
      (Some "local") (sample_world [] token_granted None).
Proof.
  apply (upload_source_agrees_with_environment (IAMAuthenticator "key") "."
           "bkt" "us-south" None (sample_world [] token_granted None)
           {| git_commit_sha := "unknown"; git_commit_ref := "main";
              deployment_id := "local"; project_name := "app";
              checks_token := None |}).
  vm_compute; reflexivity.
Defined.

Lemma main_unusable_git_ref_witness :
  let config :=
    {| ibm_cloud := ibm_cloud (sample_config None true);
       vercel :=
         {| git_commit_sha := "unknown"; git_commit_ref := "";
            deployment_id := "local"; project_name := "app";
            checks_token := None |};
       source_dir := "."; cleanup_artifacts := true |} in
  main (ret config)
    (sample_world [("IBM_CLOUD_API_KEY", "key")] token_granted None)
  = (1%Z, sample_world [("IBM_CLOUD_API_KEY", "key")] token_granted None).
Proof.
  intros config.
  apply (main_unusable_git_ref (ret config) config
           (sample_world [("IBM_CLOUD_API_KEY", "key")] token_granted None)
           (sample_world [("IBM_CLOUD_API_KEY", "key")] token_granted None));
    [reflexivity | reflexivity |].
  intros ch Hin. by apply elem_of_nil in Hin.
Defined.

(** ** The API-key helpers of [sdk/auth.py] *)

(** X21.  [get_api_key_from_env] returns the value of [IBM_CLOUD_API_KEY] when
    it is set and not empty, and raises [ValueError] otherwise; it changes
    nothing.  [create_iam_authenticator], called without an argument,
    builds the credential of a key exactly when the helper returns that
    key and the key passes the validation of the [IAMAuthenticator]
    constructor (no curly bracket or double quote as first or last
    character). *)
Theorem get_api_key_from_env_agrees (w : World) :
  snd (get_api_key_from_env w) = w
  ∧ (∀ k, fst (get_api_key_from_env w) = Ok k
          ↔ environ w !! "IBM_CLOUD_API_KEY" = Some k ∧ k ≠ "")
  ∧ (truthy (environ w !! "IBM_CLOUD_API_KEY") = false →
     ∃ msg, fst (get_api_key_from_env w) = Raise (Exn ValueError msg))
  ∧ ∀ k, fst (create_iam_authenticator None w) = Ok (IAMAuthenticator k)
         ↔ fst (get_api_key_from_env w) = Ok k
           ∧ has_bad_first_or_last_char k = false.
Proof.
  unfold get_api_key_from_env, create_iam_authenticator, getenv, bind, gets,
    raise, ret.
  destruct (environ w !! "IBM_CLOUD_API_KEY") as [key|]; cbn [truthy].
  - destruct (String.eqb_spec key "") as [-> | Hne]; cbn [fst snd negb].
    + split; [reflexivity |]. split.
      * intros k. split; [discriminate |]. intros [[= <-] Hk]. done.
      * split; [eauto |]. intros k.
        split; [discriminate | intros [? _]; discriminate].
    + split; [reflexivity |]. split.
      * intros k. split; [intros [= <-]; done | intros [[= <-] _]; done].
      * split; [discriminate |]. intros k.
        rewrite new_IAMAuthenticator_cases. cbn [fst].
        destruct (has_bad_first_or_last_char key) eqn:Hbad.
        -- split; [discriminate |]. intros [[= <-] Hgood]. congruence.
        -- split; [intros [= <-]; done | intros [[= <-] _]; done].
  - cbn [fst snd]. split; [reflexivity |]. split.
    + intros k. split; [discriminate | intros [? _]; discriminate].
    + split; [eauto |]. intros k.
      split; [discriminate | intros [? _]; discriminate].
Qed.

Lemma get_api_key_from_env_agrees_witness :
  ∃ msg,
    fst (get_api_key_from_env
           (sample_world [("IBM_CLOUD_API_KEY", "")] token_granted None))
    = Raise (Exn ValueError msg).
Proof.
  refine (proj1 (proj2 (proj2 (get_api_key_from_env_agrees
            (sample_world [("IBM_CLOUD_API_KEY", "")] token_granted None))))
            _).
  reflexivity.
Defined.

(** X22.  [validate_api_key] accepts exactly the keys of 20 characters or
    more (stated for ASCII keys, whose characters are their bytes).
    Nothing applies it: [create_iam_authenticator] builds a credential
    from any non-empty key that passes the validation of the
    [IAMAuthenticator] constructor, whatever its length. *)
Theorem validate_api_key_length (api_key : string) :
  isascii api_key = true →
  (validate_api_key api_key = true ↔ (20 <= String.length api_key)%nat)
  ∧ (api_key ≠ "" → has_bad_first_or_last_char api_key = false →
     ∀ w, create_iam_authenticator (Some api_key) w
          = (Ok (IAMAuthenticator api_key), w)).
Proof.
  intros _. split.
  - unfold validate_api_key.
    destruct (String.eqb_spec api_key "") as [-> | Hne].
    + split; [discriminate |]. cbn [String.length]. lia.
    + destruct (Nat.ltb_spec (String.length api_key) 20) as [Hlt | Hge].
      * split; [discriminate | lia].
      * split; [intros _; exact Hge | reflexivity].
  - intros Hne Hgood w. unfold create_iam_authenticator, bind, ret.
    destruct (String.eqb_spec api_key ""); [done |].
    by rewrite new_IAMAuthenticator_cases, Hgood.
Qed.

Lemma validate_api_key_length_witness :
  validate_api_key "short" = false
  ∧ create_iam_authenticator (Some "short")
      (sample_world [] token_granted None)
    = (Ok (IAMAuthenticator "short"), sample_world [] token_granted None).
Proof.
  split; [reflexivity |].
  apply (proj2 (validate_api_key_length "short" eq_refl));
    [discriminate | reflexivity].
Defined.

(** ** The default exclusion rules *)

Lemma glob_match_star_unfold (ts : list glob_token) (s : list ascii) :
  glob_match (GStar :: ts) s
  = glob_match ts s
    || match s with
       | [] => false
       | _ :: s' => glob_match (GStar :: ts) s'
       end.
Proof. destruct s; reflexivity. Qed.

Lemma glob_match_star (ts : list glob_token) (s : list ascii) :
  glob_match (GStar :: ts) s = true
  ↔ ∃ pre suf, s = pre ++ suf ∧ glob_match ts suf = true.
Proof.
  induction s as [|c s IH]; rewrite glob_match_star_unfold, orb_true_iff.
  - split.
    + intros [H | H]; [| discriminate]. by exists [], [].
    + intros (pre & suf & Heq & H). left.
      symmetry in Heq. apply app_eq_nil in Heq as [_ ->]. exact H.
  - rewrite IH. split.
    + intros [H | (pre & suf & -> & H)].
      * by exists [], (c :: s).
      * by exists (c :: pre), suf.
    + intros (pre & suf & Heq & H). destruct pre as [|d pre].
      * left. cbn [app] in Heq. by rewrite Heq.
      * right. injection Heq as _ ->. eauto.
Qed.

Lemma glob_match_lits (l s : list ascii) :
  glob_match (List.map GLit l) s = true ↔ s = l.
Proof.
  revert s. induction l as [|c l IH]; intros [|d s]; cbn [List.map glob_match];
    try (split; [discriminate | done]); [done |].
  rewrite andb_true_iff, IH. split.
  - intros [Hc ->]. apply Ascii.eqb_eq in Hc. by subst.
  - intros [= -> ->]. split; [apply Ascii.eqb_refl | done].
Qed.

Lemma translate_aux_plain (l : list ascii) (fuel : nat) :
  (∀ c, c ∈ metachars → c ∉ l) → (length l <= fuel)%nat →
  translate_aux fuel l = List.map GLit l.
Proof.
  revert fuel. induction l as [|c l IH]; intros fuel Hfree Hfuel.
  - by destruct fuel.
  - destruct fuel as [|fuel]; [cbn in Hfuel; lia |].
    cbn [translate_aux List.map].
    assert (∀ m, m ∈ metachars → Ascii.eqb c m = false) as Hc.
    { intros m Hm. apply Ascii.eqb_neq. intros ->.
      apply (Hfree m Hm). by left. }
    rewrite !Hc by (unfold metachars; set_solver).
    f_equal. apply IH.
    + intros m Hm Hin. apply (Hfree m Hm). by right.
    + cbn in Hfuel. lia.
Qed.

Lemma list_ascii_of_string_app (a b : string) :
  list_ascii_of_string (a +:+ b)
  = list_ascii_of_string a ++ list_ascii_of_string b.
Proof.
  induction a as [|c a IH]; [reflexivity |].
  rewrite append_cons. cbn [list_ascii_of_string app]. by rewrite IH.
Qed.

Lemma string_of_list_ascii_app (a b : list ascii) :
  string_of_list_ascii (a ++ b)
  = string_of_list_ascii a +:+ string_of_list_ascii b.
Proof.
  induction a as [|c a IH]; [reflexivity |].
  cbn [app string_of_list_ascii]. rewrite append_cons. by rewrite IH.
Qed.

(** A rule [*lit], with no metacharacter in [lit], matches exactly the
    names that end with [lit]. *)
Lemma fnmatch_star_suffix (file_name lit : string) :
  glob_free lit →
  fnmatch file_name (String "*" lit) = true ↔ endswith file_name lit.
Proof.
  intros Hfree. unfold fnmatch, translate.
  cbn [list_ascii_of_string length translate_aux Ascii.eqb Bool.eqb].
  rewrite translate_aux_plain by (done || lia).
  rewrite glob_match_star. unfold endswith. split.
  - intros (pre & suf & Heq & Hm). apply glob_match_lits in Hm as ->.
    exists (string_of_list_ascii pre).
    rewrite <- (string_of_list_ascii_of_string file_name), Heq.
    rewrite string_of_list_ascii_app.
    by rewrite string_of_list_ascii_of_string.
  - intros (stem & ->).
    exists (list_ascii_of_string stem), (list_ascii_of_string lit).
    split; [apply list_ascii_of_string_app | by apply glob_match_lits].
Qed.

Lemma excluded_names_rules (rule : string) :
  rule ∈ excluded_names →
  rule ∈ DEFAULT_EXCLUDE_PATTERNS ∧ has_glob rule = false.
Proof.
  unfold excluded_names. intros Hin.
  repeat (apply elem_of_cons in Hin as [-> | Hin];
          [split; [apply (bool_decide_unpack _); vm_compute; exact I
                  | reflexivity] |]).
  by apply elem_of_nil in Hin.
Qed.

Lemma excluded_suffixes_rules (suffix : string) :
  suffix ∈ excluded_suffixes →
  String "*" suffix ∈ DEFAULT_EXCLUDE_PATTERNS
  ∧ has_glob (String "*" suffix) = true ∧ has_glob suffix = false.
Proof.
  unfold excluded_suffixes. intros Hin.
  repeat (apply elem_of_cons in Hin as [-> | Hin];
          [split; [apply (bool_decide_unpack _); vm_compute; exact I
                  | split; reflexivity] |]).
  by apply elem_of_nil in Hin.
Qed.

Lemma default_rules_by_kind (rule : string) :
  rule ∈ DEFAULT_EXCLUDE_PATTERNS →
  (rule ∈ excluded_names ∧ has_glob rule = false)
  ∨ ∃ suffix, rule = String "*" suffix ∧ suffix ∈ excluded_suffixes
              ∧ has_glob rule = true ∧ has_glob suffix = false.
Proof.
  unfold DEFAULT_EXCLUDE_PATTERNS. intros Hin.
  repeat (apply elem_of_cons in Hin as [-> | Hin];
          [first
             [ left; split;
               [apply (bool_decide_unpack _); vm_compute; exact I | reflexivity]
             | right; eexists; split; [reflexivity |];
               split; [apply (bool_decide_unpack _); vm_compute; exact I
                      | split; reflexivity] ] |]).
  by apply elem_of_nil in Hin.
Qed.

(** X23.  What the default rules leave out.  With the default rules a file
    below the source root is excluded exactly when one of the components
    of its relative path (a directory on the way, or the file name) is one
    of the eighteen plain names ([.git], [node_modules], [dist], ...), or
    its name or relative path ends with one of [.pyc], [.pyo], [.pyd],
    [.log], [.tmp], [.swp]. *)
Theorem default_exclusions (source_path : Path) (rel : list string) :
  rel ≠ [] →
  should_exclude DEFAULT_EXCLUDE_PATTERNS source_path
    (joinpath source_path rel) = Some true
  ↔ (∃ segment, segment ∈ rel ∧ segment ∈ excluded_names)
    ∨ (∃ suffix, suffix ∈ excluded_suffixes
                 ∧ (endswith (List.last rel "") suffix
                    ∨ endswith (join "/" rel) suffix)).
Proof.
  intros Hne. rewrite should_exclude_walked by done.
  assert (∀ b : bool, Some b = Some true ↔ b = true) as ->
    by (intros b; split; congruence).
  rewrite exclude_loop_true. split.
  - intros (rule & Hin & Hm).
    destruct (default_rules_by_kind rule Hin)
      as [[Hname Hg] | (suffix & -> & Hsuf & Hg & Hgs)].
    + left. exists rule. split; [| done].
      destruct Hm as [[_ H] | [Hnf _]]; [done |].
      by apply has_glob_false in Hg.
    + right. exists suffix. split; [done |].
      apply has_glob_false in Hgs.
      destruct Hm as [[Hf _] | [_ H]].
      * apply has_glob_false in Hf. congruence.
      * by rewrite !fnmatch_star_suffix in H.
  - intros [(segment & Hin & Hname) | (suffix & Hsuf & Hends)].
    + apply excluded_names_rules in Hname as [Hrule Hg].
      exists segment. split; [done |]. left.
      split; [by apply has_glob_false | done].
    + apply excluded_suffixes_rules in Hsuf as (Hrule & Hg & Hgs).
      exists (String "*" suffix). split; [done |]. right.
      split; [by apply has_glob_true |].
      apply has_glob_false in Hgs.
      by rewrite !fnmatch_star_suffix.
Qed.

Lemma default_exclusions_witness :
  should_exclude DEFAULT_EXCLUDE_PATTERNS (mkPath true ["srv"; "app"])
    (joinpath (mkPath true ["srv"; "app"]) ["pkg"; "node_modules"; "x.js"])
  = Some true.
Proof.
  apply (default_exclusions (mkPath true ["srv"; "app"])
           ["pkg"; "node_modules"; "x.js"]); [discriminate |].
  left. exists "node_modules".
  split; apply (bool_decide_unpack _); vm_compute; exact I.
Defined.
